(** * Face verification pipeline: detection decoding, box geometry,
      embedding post-processing and similarity comparison

    A shallow embedding of the numeric core of the face verification API
    ([src/utils/math.js], [src/utils/image.js], [src/utils/validation.js],
    [src/services/faceDetectionService.js],
    [src/services/faceRecognitionService.js],
    [src/services/faceProcessingService.js], [src/config/index.js] and
    [src/constants/errors.js]).

    JavaScript numbers are IEEE-754 binary64 values; they are modelled by
    Rocq's primitive floats, so every definition below computes exactly what
    the JavaScript engine computes.  The vector functions of [math.js] are
    written over an interface of the number operations they use, which
    binary64 implements; rounding errors are bounded from the specification
    of the primitive floats. *)

From Stdlib Require Import Reals Lra.
From Stdlib Require Import ZArith Floats Lia List Bool String.
From stdpp Require Import base list.
From Equations Require Import Equations.
Import ListNotations.

Set Warnings "-inexact-float,-register-all".

#[local] Open Scope nat_scope.

(* ===================================================================== *)
(** * JavaScript number primitives over binary64 *)
(* ===================================================================== *)

Module JS.

#[local] Open Scope float_scope.

(** An integer of magnitude below 2^63 as a number. *)
Definition of_Z (z : Z) : float :=
  if (z <? 0)%Z then - of_uint63 (Uint63.of_Z (- z))
  else of_uint63 (Uint63.of_Z z).

(** A loop counter as a number. *)
Definition of_nat (n : nat) : float := of_Z (Z.of_nat n).

(** [Math.max(a, b)]: NaN when either argument is NaN; [+0] is larger
    than [-0]. *)
Definition Math_max (a b : float) : float :=
  match a ?= b with
  | FGt => a
  | FLt => b
  | FEq => if get_sign a then b else a
  | FNotComparable => nan
  end.

(** [Math.min(a, b)]: NaN when either argument is NaN; [-0] is smaller
    than [+0]. *)
Definition Math_min (a b : float) : float :=
  match a ?= b with
  | FLt => a
  | FGt => b
  | FEq => if get_sign a then a else b
  | FNotComparable => nan
  end.

Definition Math_abs (a : float) : float := abs a.

Definition Math_sqrt (a : float) : float := PrimFloat.sqrt a.

(** [Math.round(v)]: the integer closest to [v], ties towards +infinity,
    that is floor(v + 1/2) computed without intermediate rounding.  A
    binary64 value with a non-negative exponent is already an integer;
    zeros, infinities and NaN are returned as they are; a result of zero
    keeps the sign of [v]. *)
Definition Math_round (v : float) : float :=
  match Prim2SF v with
  | S754_finite s m e =>
      if (0 <=? e)%Z then v
      else
        let n := if s then Z.neg m else Z.pos m in
        let r := ((2 * n + 2 ^ (- e)) / 2 ^ (1 - e))%Z in
        if (r =? 0)%Z then (if s then neg_zero else zero) else of_Z r
  | _ => v
  end.

(** [a === b] on numbers. *)
Definition strict_eq (a b : float) : bool := a =? b.

(** [ToBoolean] on numbers: [0], [-0] and NaN are falsy. *)
Definition truthy (a : float) : bool := negb (is_zero a || is_nan a).

(** [a > b], [a < b], [a >= b], [a <= b]. *)
Definition gt (a b : float) : bool := b <? a.
Definition lt (a b : float) : bool := a <? b.
Definition ge (a b : float) : bool := b <=? a.
Definition le (a b : float) : bool := a <=? b.

(** [Array.prototype.sort(cmp)]: the sort is stable, and an element [a]
    is placed after [b] when [cmp(a, b) > 0]; a comparator result of NaN
    counts as [0].  The order of the result is fixed by the language only
    for a consistent comparator; this is the stable insertion sort every
    such comparator agrees with. *)
Section Sort.
Context {A : Type} (cmp : A -> A -> float).

Fixpoint sort_insert (a : A) (l : list A) : list A :=
  match l with
  | [] => [a]
  | b :: l' => if gt (cmp a b) 0 then b :: sort_insert a l' else a :: l
  end.

Definition Array_sort (l : list A) : list A :=
  List.fold_right sort_insert [] l.
End Sort.

End JS.

(* ===================================================================== *)
(** * Counted loops *)
(* ===================================================================== *)

(** [for (let i = 0; i < n; i++) body(i)] as a state transformer. *)
Definition for_ {S : Type} (n : nat) (body : nat -> S -> S) (s : S) : S :=
  List.fold_left (fun acc i => body i acc) (seq 0 n) s.

(** [for (const v of items) body(v)]. *)
Definition for_of {S A : Type} (items : list A) (body : A -> S -> S) (s : S) : S :=
  List.fold_left (fun acc v => body v acc) items s.

(* ===================================================================== *)
(** * [src/constants/errors.js] *)
(* ===================================================================== *)

Module Errors.

#[local] Open Scope string_scope.

Inductive ErrorType :=
| VALIDATION | DETECTION | PROCESSING | MODEL | INTERNAL.

Definition NO_FACE_DETECTED : string :=
  "No face detected. Please provide a clear image with a visible face.".
Definition FACE_TOO_SMALL : string :=
  "Detected face is too small. Please provide a clearer image with a larger face.".
Definition INVALID_EMBEDDING_FORMAT : string :=
  "storedEmbedding must be an array of 512 numbers".
Definition INVALID_EMBEDDING_VALUES : string :=
  "storedEmbedding must contain only valid numbers".
Definition SIMILARITY_CALCULATION_FAILED : string :=
  "Failed to calculate similarity. Embeddings may be invalid.".

(** [class AppError extends Error]: message, [name = type], status code. *)
Record AppError := mkAppError {
  message : string;
  name : ErrorType;
  statusCode : nat;
}.

(** The outcome of a call that either returns or throws an [AppError]. *)
Inductive outcome (A : Type) :=
| Returned (a : A)
| Thrown (e : AppError).
Arguments Returned {A} a.
Arguments Thrown {A} e.

End Errors.

(* ===================================================================== *)
(** * [src/config/index.js] *)
(* ===================================================================== *)

Module Config.

#[local] Open Scope float_scope.

Record FaceDetection := {
  targetSize : float;
  confidenceThreshold : float;
  nmsThreshold : float;
  minFaceSize : float;
  maxFaceSize : float;
  minPixelSize : float;
  edgeMarginRatio : float;
  aspectRatioMin : float;
  aspectRatioMax : float;
}.

(** [similarityThreshold], [faceExpandRatio] and [useSquareCrop] come from
    the environment; the record below carries their defaults. *)
Record FaceRecognition := {
  similarityThreshold : float;
  faceExpandRatio : float;
  maxExpandRatio : float;
  useSquareCrop : bool;
  embeddingDimension : nat;
}.

Inductive ChannelOrder := RGB | BGR.

Record Arcface := {
  inputSize : nat;
  channelOrder : ChannelOrder;
  useTTAFlip : bool;
}.

Record FaceScoring := {
  detectionConfidence : float;
  centrality : float;
  sizeRatio : float;
}.

Record t := {
  faceDetection : FaceDetection;
  faceRecognition : FaceRecognition;
  arcface : Arcface;
  faceScoring : FaceScoring;
}.

Definition config : t := {|
  faceDetection := {|
    targetSize := 128;
    confidenceThreshold := 0.5;
    nmsThreshold := 0.5;
    minFaceSize := 0.02;
    maxFaceSize := 0.8;
    minPixelSize := 20;
    edgeMarginRatio := 0.05;
    aspectRatioMin := 0.6;
    aspectRatioMax := 1.8;
  |};
  faceRecognition := {|
    similarityThreshold := 0.45;
    faceExpandRatio := 0.10;
    maxExpandRatio := 0.20;
    useSquareCrop := true;
    embeddingDimension := 512;
  |};
  arcface := {|
    inputSize := 112;
    channelOrder := RGB;
    useTTAFlip := true;
  |};
  faceScoring := {|
    detectionConfidence := 0.65;
    centrality := 0.25;
    sizeRatio := 0.10;
  |};
|}.

(** [config.faceRecognition] declares no [minPixelSize] key (the key lives
    under [config.faceDetection]); reading [cfg.minPixelSize] on it yields
    [undefined], which a relational operator converts to NaN. *)
Definition faceRecognition_minPixelSize (cfg : FaceRecognition) : float := nan.

End Config.

(* ===================================================================== *)
(** * The number operations used by the vector functions *)
(* ===================================================================== *)

Module Num.

(** The operations [math.js] applies to vector entries: the literals [0],
    [1.0] and [0.5], [+], [*], [/], [Math.sqrt], the test [x === 0] and
    the truthiness of a number (as in [x || 1.0]). *)
Class Arith (N : Type) := {
  zero : N;
  one : N;
  half : N;
  add : N -> N -> N;
  mul : N -> N -> N;
  div : N -> N -> N;
  sqrt : N -> N;
  is_zero : N -> bool;
  truthy : N -> bool;
}.

(** The numbers of the running program: IEEE-754 binary64. *)
#[global] Instance binary64 : Arith float := {|
  zero := 0%float;
  one := 1%float;
  half := 0.5%float;
  add := PrimFloat.add;
  mul := PrimFloat.mul;
  div := PrimFloat.div;
  sqrt := JS.Math_sqrt;
  is_zero := fun x => JS.strict_eq x 0%float;
  truthy := JS.truthy;
|}.

End Num.

(* ===================================================================== *)
(** * [src/utils/math.js] *)
(* ===================================================================== *)

(** A bounding box [{x, y, width, height}]. *)
Record Box := mkBox {
  x : float;
  y : float;
  width : float;
  height : float;
}.

Module MathUtils.

Section Vectors.
Context {N : Type} `{Num.Arith N}.

(** The three accumulators of the loop of [cosineSimilarity]. *)
Definition cosine_step (acc : N * N * N) (ab : N * N) : N * N * N :=
  let '(dotProduct, normA, normB) := acc in
  let '(a, b) := ab in
  (Num.add dotProduct (Num.mul a b),
   Num.add normA (Num.mul a a),
   Num.add normB (Num.mul b b)).

(** [cosineSimilarity(vectorA, vectorB)].  An argument is [None] when
    it is [null] or [undefined]; an array, even an empty one, is truthy.
    The result [None] is [null].  The loop reads [vectorA[i]] and
    [vectorB[i]] for every index of two arrays of equal length. *)
Definition cosineSimilarity (vectorA vectorB : option (list N)) : option N :=
  match vectorA, vectorB with
  | Some a, Some b =>
      if negb (Nat.eqb (length a) (length b)) then None
      else
        let '(dotProduct, normA, normB) :=
          List.fold_left cosine_step (combine a b)
            (Num.zero, Num.zero, Num.zero) in
        if Num.is_zero normA || Num.is_zero normB then Some Num.zero
        else Some (Num.div dotProduct (Num.mul (Num.sqrt normA) (Num.sqrt normB)))
  | _, _ => None
  end.

(** The sum of squares accumulated by [l2Normalize]. *)
Definition sum_squares (vector : list N) : N :=
  for_of vector (fun val norm => Num.add norm (Num.mul val val)) Num.zero.

(** [l2Normalize(vector)]: [norm = Math.sqrt(norm) || 1.0]. *)
Definition l2Normalize (vector : list N) : list N :=
  let norm := sum_squares vector in
  let norm := if Num.truthy (Num.sqrt norm) then Num.sqrt norm else Num.one in
  List.map (fun v => Num.div v norm) vector.

(** The L2 norm of a vector, as [generateEmbedding] recomputes it. *)
Definition l2norm (vector : list N) : N := Num.sqrt (sum_squares vector).
End Vectors.

#[local] Open Scope float_scope.

(** [calculateIOU(boxA, boxB)]. *)
Definition calculateIOU (boxA boxB : Box) : float :=
  let x1 := JS.Math_max (x boxA) (x boxB) in
  let y1 := JS.Math_max (y boxA) (y boxB) in
  let x2 := JS.Math_min (x boxA + width boxA) (x boxB + width boxB) in
  let y2 := JS.Math_min (y boxA + height boxA) (y boxB + height boxB) in
  let width_ := JS.Math_max 0 (x2 - x1) in
  let height_ := JS.Math_max 0 (y2 - y1) in
  let intersection := width_ * height_ in
  let areaA := width boxA * height boxA in
  let areaB := width boxB * height boxB in
  let union := areaA + areaB - intersection in
  if JS.le union 0 then 0 else intersection / union.

(** [clamp(value, min, max)]. *)
Definition clamp (value min max : float) : float :=
  JS.Math_min (JS.Math_max value min) max.

End MathUtils.

(* ===================================================================== *)
(** * [src/utils/image.js] *)
(* ===================================================================== *)

Module Image.

(** A [Float32Array] is a list of binary32 values.  The functions below
    copy entries and never compute on them, so the entry type is left
    open: [fresh] is the [0] a new typed array is filled with and [undef]
    is what storing an out-of-range read ([undefined]) leaves, NaN.  A
    store outside the array is ignored, as stdpp's list insert does. *)
Section TypedArrays.
Context {E : Type} (fresh undef : E).

Definition read (data : list E) (i : nat) : E := default undef (data !! i).

(** [flipHorizontal(nhwcData, height, width)]. *)
Definition flipHorizontal (nhwcData : list E) (height width : nat) : list E :=
  let flipped := replicate (height * width * 3) fresh in
  for_ height (fun y =>
    for_ width (fun x =>
      for_ 3 (fun c flipped =>
        let srcIdx := (y * width + x) * 3 + c in
        let dstIdx := (y * width + (width - 1 - x)) * 3 + c in
        <[dstIdx := read nhwcData srcIdx]> flipped))) flipped.

(** [convertNHWCtoNCHW(nhwcData, height, width, channelOrder)]; the
    state is the output array and the running [index]. *)
Definition convertNHWCtoNCHW (nhwcData : list E) (height width : nat)
    (channelOrder : list nat) : list E :=
  let nchwData := replicate (3 * height * width) fresh in
  fst (for_of channelOrder (fun channel =>
    for_ height (fun y =>
      for_ width (fun x '(nchwData, index) =>
        (<[index := read nhwcData ((y * width + x) * 3 + channel)]> nchwData,
         S index)))) (nchwData, 0)).
End TypedArrays.

End Image.

(* ===================================================================== *)
(** * [src/services/faceDetectionService.js] *)
(* ===================================================================== *)

(** A detection [{ ...mapped, score }]: a box with its confidence. *)
Record Detection := mkDetection {
  det_box :> Box;
  score : float;
}.

(** An anchor [{cx, cy, w, h}]. *)
Record Anchor := mkAnchor {
  cx : float;
  cy : float;
  w : float;
  h : float;
}.

Module FaceDetection.

#[local] Open Scope float_scope.

Record FeatureMap := {
  size : nat;
  stride : nat;
  anchorsPerCell : nat;
}.

Definition featureMaps : list FeatureMap :=
  [ {| size := 16; stride := 8; anchorsPerCell := 2 |};
    {| size := 8; stride := 16; anchorsPerCell := 6 |} ].

(** The anchor pushed for column [x] and row [y] of feature map [fm]. *)
Definition anchor_at (targetSize : float) (fm : FeatureMap) (y x : nat) : Anchor :=
  {| cx := ((JS.of_nat x + 0.5) * JS.of_nat (stride fm)) / targetSize;
     cy := ((JS.of_nat y + 0.5) * JS.of_nat (stride fm)) / targetSize;
     w := JS.of_nat (stride fm) / targetSize;
     h := JS.of_nat (stride fm) / targetSize |}.

(** [_generateAnchors()].  The first argument is
    [config.faceDetection.targetSize]; the second is the cache
    [this.anchors] ([None] for [null]).  The result is the returned array
    with the cache the call leaves behind. *)
Definition _generateAnchors (targetSize : float) (this_anchors : option (list Anchor))
    : list Anchor * option (list Anchor) :=
  match this_anchors with
  | Some anchors => (anchors, Some anchors)
  | None =>
      let anchors :=
        for_of featureMaps (fun fm =>
          for_ (size fm) (fun y =>
            for_ (size fm) (fun x =>
              for_ (anchorsPerCell fm) (fun a anchors =>
                anchors ++ [anchor_at targetSize fm y x])))) [] in
      (anchors, Some anchors)
  end.

(** The inner loop of [_applyNMS]: for [i] from [n - 1] down to [0],
    [sorted.splice(i, 1)] when the IoU of [current] and [sorted[i]] exceeds
    the threshold. *)
Fixpoint suppress_from (n : nat) (threshold : float) (current : Detection)
    (sorted : list Detection) : list Detection :=
  match n with
  | O => sorted
  | S i =>
      let sorted' :=
        match (sorted !! i : option Detection) with
        | Some other =>
            if JS.gt (MathUtils.calculateIOU current other) threshold
            then delete i sorted else sorted
        | None => sorted
        end in
      suppress_from i threshold current sorted'
  end.

Lemma suppress_from_length n threshold current sorted :
  (length (suppress_from n threshold current sorted) <= length sorted)%nat.
Proof.
  revert sorted; induction n as [|i IH]; intros sorted; simpl; [lia|].
  destruct (sorted !! i : option Detection) as [other|] eqn:E; [|apply IH].
  destruct (JS.gt _ _); [|apply IH].
  etransitivity; [apply IH|]. rewrite length_delete; [lia|]. eauto.
Qed.

(** The [while (sorted.length)] loop of [_applyNMS]: [sorted.shift()],
    [kept.push(current)], then the suppression loop over what is left. *)
Equations? nms_loop (threshold : float) (sorted kept : list Detection)
    : list Detection by wf (length sorted) lt :=
  nms_loop threshold [] kept := kept;
  nms_loop threshold (current :: rest) kept :=
    nms_loop threshold
      (suppress_from (length rest) threshold current rest) (kept ++ [current]).
Proof.
  pose proof (suppress_from_length (length rest) threshold current rest).
  simpl. lia.
Qed.

(** [_applyNMS(boxes, threshold)]; the default of [threshold] is
    [config.faceDetection.nmsThreshold]. *)
Definition _applyNMS (boxes : list Detection) (threshold : float) : list Detection :=
  let sorted := JS.Array_sort (fun a b => score b - score a) boxes in
  nms_loop threshold sorted [].

End FaceDetection.

(* ===================================================================== *)
(** * [src/services/faceRecognitionService.js] *)
(* ===================================================================== *)

Module FaceRecognition.

(** The preprocessed face [{ nchw, nhwc, size }]; [nhwc] is [None] when
    the property is missing. *)
Record Preprocessed (E : Type) := {
  nchw : list E;
  nhwc : option (list E);
  size : nat;
}.
Arguments nchw {E} _.
Arguments nhwc {E} _.
Arguments size {E} _.

Section Embedding.
Context {N : Type} `{Num.Arith N} {E : Type} (fresh undef : E).

(** The averaging loop of [generateEmbedding]:
    [embedding[i] = 0.5 * (embedding[i] + flippedEmbedding[i])] for every
    [i] below both lengths; later entries of [embedding] stay. *)
Fixpoint average (embedding flippedEmbedding : list N) : list N :=
  match embedding, flippedEmbedding with
  | e :: embedding', f :: flippedEmbedding' =>
      Num.mul Num.half (Num.add e f) :: average embedding' flippedEmbedding'
  | _, _ => embedding
  end.

Definition channel_indices (order : Config.ChannelOrder) : list nat :=
  match order with
  | Config.BGR => [2; 1; 0]
  | Config.RGB => [0; 1; 2]
  end.

(** The first half of [generateEmbedding(preprocessedData)]: the raw
    embedding, averaged with the raw embedding of the mirrored input when
    the flip augmentation is on.  [_runInference], the call into the
    recognizer, is the argument [runInference]: it maps the planar input
    tensor to the raw embedding. *)
Definition averaged_embedding (cfg : Config.Arcface)
    (runInference : list E -> list N) (preprocessedData : Preprocessed E) : list N :=
  let embedding := runInference (nchw preprocessedData) in
  match Config.useTTAFlip cfg, nhwc preprocessedData with
  | true, Some nhwc =>
      let size := size preprocessedData in
      let flipped := Image.flipHorizontal fresh undef nhwc size size in
      let channelOrder := channel_indices (Config.channelOrder cfg) in
      let flippedNCHW :=
        Image.convertNHWCtoNCHW fresh undef flipped size size channelOrder in
      let flippedEmbedding := runInference flippedNCHW in
      average embedding flippedEmbedding
  | _, _ => embedding
  end.

(** [generateEmbedding(preprocessedData)]: the L2-normalized embedding. *)
Definition generateEmbedding (cfg : Config.Arcface)
    (runInference : list E -> list N) (preprocessedData : Preprocessed E) : list N :=
  MathUtils.l2Normalize (averaged_embedding cfg runInference preprocessedData).
End Embedding.

End FaceRecognition.

(* ===================================================================== *)
(** * [src/utils/validation.js] *)
(* ===================================================================== *)

Module Validation.

Import Errors.
#[local] Open Scope string_scope.

(** The values [JSON.parse] produces. *)
Inductive JSON :=
| JNull
| JBool (b : bool)
| JNumber (n : float)
| JString (s : string)
| JArray (items : list JSON)
| JObject (members : list (string * JSON)).

(** What [JSON.parse(embeddingString)] does: throw a [SyntaxError] with a
    message, or return a value.  The parser is the platform's; its outcome
    on the request's string is the input of the model. *)
Inductive ParseOutcome :=
| SyntaxError (message : string)
| Parsed (value : JSON).

(** [typeof val === 'number' && !isNaN(val)]. *)
Definition valid_number (val : JSON) : bool :=
  match val with
  | JNumber n => negb (is_nan n)
  | _ => false
  end.

(** [validateEmbedding(embeddingString)], on the outcome of
    [JSON.parse(embeddingString)]. *)
Definition validateEmbedding (cfg : Config.FaceRecognition)
    (parsed : ParseOutcome) : outcome (list JSON) :=
  match parsed with
  | SyntaxError msg =>
      Thrown (mkAppError ("Invalid embedding format: " ++ msg) VALIDATION 400)
  | Parsed (JArray embedding) =>
      if negb (Nat.eqb (length embedding) (Config.embeddingDimension cfg)) then
        Thrown (mkAppError INVALID_EMBEDDING_FORMAT VALIDATION 400)
      else if negb (forallb valid_number embedding) then
        Thrown (mkAppError INVALID_EMBEDDING_VALUES VALIDATION 400)
      else Returned embedding
  | Parsed _ =>
      Thrown (mkAppError INVALID_EMBEDDING_FORMAT VALIDATION 400)
  end.

(** [validateBoundingBox(box, imageWidth, imageHeight)]; [None] is a
    missing box, and the fields of a [Box] are numbers. *)
Definition validateBoundingBox (box : option Box) (imageWidth imageHeight : float)
    : bool :=
  match box with
  | None => false
  | Some box =>
      if JS.lt (x box) 0 || JS.lt (y box) 0
         || JS.le (width box) 0 || JS.le (height box) 0
      then false
      else if JS.gt (x box + width box) imageWidth
              || JS.gt (y box + height box) imageHeight
      then false
      else true
  end.

End Validation.

(* ===================================================================== *)
(** * [src/services/faceProcessingService.js] *)
(* ===================================================================== *)

(** A box as [detectFaces] hands it over: normalized coordinates and a
    score that may be missing. *)
Record RawBox := mkRawBox {
  raw_box :> Box;
  raw_score : option float;
}.

(** A scored candidate [{ ...box, compositeScore }]. *)
Record Candidate := mkCandidate {
  cand :> Detection;
  compositeScore : float;
}.

(** The image metadata [{width, height}]. *)
Record Metadata := mkMetadata {
  meta_width : float;
  meta_height : float;
}.

(** The result [{ boxes, metadata }] of [detectionService.detectFaces];
    [boxes] is [None] when it is [null] or [undefined]. *)
Record DetectFacesResult := {
  boxes : option (list RawBox);
  metadata : Metadata;
}.

Module FaceProcessing.

Import Errors.
#[local] Open Scope float_scope.

(** The first [map] of [selectBestFace]: normalized coordinates to
    pixels, clamped to the image. *)
Definition to_pixels (imageWidth imageHeight : float) (box : RawBox) : Detection :=
  let x_ := JS.Math_max 0 (JS.Math_round (x box * imageWidth)) in
  let y_ := JS.Math_max 0 (JS.Math_round (y box * imageHeight)) in
  let width_ := JS.Math_max 1 (JS.Math_round (width box * imageWidth)) in
  let height_ := JS.Math_max 1 (JS.Math_round (height box * imageHeight)) in
  let width_ := if JS.gt (x_ + width_) imageWidth then imageWidth - x_ else width_ in
  let height_ := if JS.gt (y_ + height_) imageHeight then imageHeight - y_ else height_ in
  {| det_box := mkBox x_ y_ width_ height_;
     score := default 0.5 (raw_score box) |}.

(** The [filter] of [selectBestFace]: size, edge margin and aspect
    ratio. *)
Definition passes_filters (cfg : Config.FaceDetection)
    (imageWidth imageHeight : float) (box : Detection) : bool :=
  let minSize :=
    JS.Math_max (Config.minPixelSize cfg) (JS.Math_min imageWidth imageHeight * 0.08) in
  let maxSize := JS.Math_min imageWidth imageHeight * 0.65 in
  let edgeMargin_x := imageWidth * Config.edgeMarginRatio cfg in
  let edgeMargin_y := imageHeight * Config.edgeMarginRatio cfg in
  if JS.lt (width box) minSize || JS.lt (height box) minSize then false
  else if JS.gt (width box) maxSize || JS.gt (height box) maxSize then false
  else if JS.lt (x box) edgeMargin_x || JS.lt (y box) edgeMargin_y then false
  else if JS.gt (x box + width box) (imageWidth - edgeMargin_x) then false
  else if JS.gt (y box + height box) (imageHeight - edgeMargin_y) then false
  else
    let aspectRatio := width box / height box in
    JS.ge aspectRatio (Config.aspectRatioMin cfg)
    && JS.le aspectRatio (Config.aspectRatioMax cfg).

(** The second [map] of [selectBestFace]: the composite score. *)
Definition with_composite (weights : Config.FaceScoring)
    (imageWidth imageHeight : float) (box : Detection) : Candidate :=
  let centerX := x box + width box / 2 in
  let centerY := y box + height box / 2 in
  let dx := JS.Math_abs (centerX - imageWidth / 2) / (imageWidth / 2) in
  let dy := JS.Math_abs (centerY - imageHeight / 2) / (imageHeight / 2) in
  let centrality := 1 - JS.Math_min 1 (JS.Math_sqrt (dx * dx + dy * dy)) in
  let sizeRatio :=
    JS.Math_min 1 ((width box * height box) / (imageWidth * imageHeight)) in
  let compositeScore :=
    Config.detectionConfidence weights * score box
    + Config.centrality weights * centrality
    + Config.sizeRatio weights * sizeRatio in
  {| cand := box; compositeScore := compositeScore |}.

(** [selectBestFace(boxes, imageWidth, imageHeight)]; [None] is
    [null]. *)
Definition selectBestFace (config : Config.t) (boxes : option (list RawBox))
    (imageWidth imageHeight : float) : option Candidate :=
  match boxes with
  | None | Some [] => None
  | Some boxes =>
      let cfg := Config.faceDetection config in
      let candidates :=
        List.map (with_composite (Config.faceScoring config) imageWidth imageHeight)
          (List.filter (passes_filters cfg imageWidth imageHeight)
             (List.map (to_pixels imageWidth imageHeight) boxes)) in
      match candidates with
      | [] => None
      | _ =>
          let candidates :=
            JS.Array_sort (fun a b => compositeScore b - compositeScore a) candidates in
          List.head candidates
      end
  end.

(** [expandBoundingBox(box, imageWidth, imageHeight, expandRatio)]. *)
Definition expandBoundingBox (box : Box) (imageWidth imageHeight expandRatio : float)
    : Box :=
  let expandX := JS.Math_round (width box * expandRatio / 2) in
  let expandY := JS.Math_round (height box * expandRatio / 2) in
  {| x := MathUtils.clamp (x box - expandX) 0 imageWidth;
     y := MathUtils.clamp (y box - expandY) 0 imageHeight;
     width := JS.Math_min (imageWidth - (x box - expandX)) (width box + 2 * expandX);
     height := JS.Math_min (imageHeight - (y box - expandY)) (height box + 2 * expandY) |}.

(** [makeSquareBoundingBox(box, imageWidth, imageHeight)]. *)
Definition makeSquareBoundingBox (box : Box) (imageWidth imageHeight : float) : Box :=
  let centerX := x box + width box / 2 in
  let centerY := y box + height box / 2 in
  let side := JS.Math_round (JS.Math_max (width box) (height box)) in
  let x_ := JS.Math_round (centerX - side / 2) in
  let y_ := JS.Math_round (centerY - side / 2) in
  let x_ := MathUtils.clamp x_ 0 (imageWidth - side) in
  let y_ := MathUtils.clamp y_ 0 (imageHeight - side) in
  {| x := JS.Math_max 0 x_;
     y := JS.Math_max 0 y_;
     width := JS.Math_min side imageWidth;
     height := JS.Math_min side imageHeight |}.

(** The box [processBoundingBox] has computed when it reaches its size
    check: expanded, then squared when [useSquareCrop] is set. *)
Definition processed_box (cfg : Config.FaceRecognition) (box : Box)
    (imageWidth imageHeight : float) : Box :=
  let expandRatio :=
    JS.Math_min (Config.maxExpandRatio cfg) (Config.faceExpandRatio cfg) in
  let processedBox := expandBoundingBox box imageWidth imageHeight expandRatio in
  if Config.useSquareCrop cfg
  then makeSquareBoundingBox processedBox imageWidth imageHeight
  else processedBox.

(** [processBoundingBox(box, imageWidth, imageHeight)], with
    [cfg = config.faceRecognition].  The size check reads
    [cfg.minPixelSize]. *)
Definition processBoundingBox (config : Config.t) (box : Box)
    (imageWidth imageHeight : float) : outcome Box :=
  let cfg := Config.faceRecognition config in
  let processedBox := processed_box cfg box imageWidth imageHeight in
  if JS.lt (width processedBox) (Config.faceRecognition_minPixelSize cfg)
     || JS.lt (height processedBox) (Config.faceRecognition_minPixelSize cfg)
  then Thrown (mkAppError FACE_TOO_SMALL DETECTION 400)
  else Returned processedBox.

(** [detectAndValidateFace(buffer, detectionService)]; the detection
    service is its method [detectFaces]. *)
Definition detectAndValidateFace {Buffer : Type} (config : Config.t)
    (buffer : Buffer) (detectFaces : Buffer -> DetectFacesResult) : outcome Box :=
  let '{| boxes := boxes; metadata := metadata |} := detectFaces buffer in
  match boxes with
  | None | Some [] => Thrown (mkAppError NO_FACE_DETECTED DETECTION 400)
  | Some _ =>
      match selectBestFace config boxes (meta_width metadata) (meta_height metadata) with
      | None => Thrown (mkAppError NO_FACE_DETECTED DETECTION 400)
      | Some bestFace =>
          processBoundingBox config bestFace (meta_width metadata) (meta_height metadata)
      end
  end.

End FaceProcessing.

(* ===================================================================== *)
(** * [src/server.js] *)
(* ===================================================================== *)

Module Server.

#[local] Open Scope float_scope.

(** The size check of the stand-alone server's [detectAndValidateFace]:
    [expandedBox.width < 20 || expandedBox.height < 20] raises "Detected
    face is too small". *)
Definition too_small (expandedBox : Box) : bool :=
  JS.lt (width expandedBox) 20 || JS.lt (height expandedBox) 20.

End Server.

(* ===================================================================== *)
(** * [src/utils/math.js]: Euclidean distance *)
(* ===================================================================== *)

Module Distance.

#[local] Open Scope float_scope.

(** The body of the loop of [euclideanDistance]:
    [diff = vectorA[i] - vectorB[i]; sum += diff * diff]. *)
Definition distance_step (sum : float) (ab : float * float) : float :=
  let diff := fst ab - snd ab in
  sum + diff * diff.

(** [euclideanDistance(vectorA, vectorB)]; arguments and result as for
    [cosineSimilarity]. *)
Definition euclideanDistance (vectorA vectorB : option (list float)) : option float :=
  match vectorA, vectorB with
  | Some a, Some b =>
      if negb (Nat.eqb (length a) (length b)) then None
      else Some (JS.Math_sqrt (List.fold_left distance_step (combine a b) 0))
  | _, _ => None
  end.

End Distance.

(* ===================================================================== *)
(** * [src/utils/image.js]: pixel buffers *)
(* ===================================================================== *)

Module Pixels.

(** A [Buffer] is a list of bytes.  Reading past its end gives
    [undefined], which a store into a [Buffer] turns into [0]; a store past
    the end is ignored. *)
Definition read_byte (data : list Byte.byte) (i : nat) : Byte.byte :=
  default Byte.x00 (data !! i).

(** [convertToRGB(data, channels, width, height)].  The loop over four
    channels runs for [i = 0, 4, 8, ...] below [data.length], the loop over
    one channel for every [i] below [data.length]. *)
Definition convertToRGB (data : list Byte.byte) (channels width height : nat)
    : list Byte.byte :=
  if Nat.eqb channels 3 then data
  else
    let rgbSize := width * height * 3 in
    let rgb := replicate rgbSize Byte.x00 in
    if Nat.eqb channels 4 then
      for_ ((length data + 3) / 4) (fun k rgb =>
        let i := 4 * k in
        let j := 3 * k in
        <[j + 2 := read_byte data (i + 2)]>
          (<[j + 1 := read_byte data (i + 1)]>
             (<[j := read_byte data i]> rgb))) rgb
    else if Nat.eqb channels 1 then
      for_ (length data) (fun i rgb =>
        let j := 3 * i in
        let value := read_byte data i in
        <[j + 2 := value]> (<[j + 1 := value]> (<[j := value]> rgb))) rgb
    else rgb.

(** A store into a [Float32Array]: the number is rounded to the nearest
    binary32 value (24 bits of precision, exponents up to 128), ties to
    even. *)
Definition fround (v : float) : float :=
  match Prim2SF v with
  | S754_finite s m e => SF2Prim (binary_round 24 128 s m e)
  | _ => v
  end.

(** A byte of a [Buffer] as a number. *)
Definition byte_value (b : Byte.byte) : float := JS.of_nat (Byte.to_nat b).

(** The value [normalizePixels] stores for one pixel sample. *)
Definition normalize_sample (mode : string) (b : Byte.byte) : float :=
  if String.eqb mode "ZERO_ONE" then fround (byte_value b / 255.0)%float
  else if String.eqb mode "TORCH" then fround (2.0 * (byte_value b / 255.0) - 1.0)%float
  else fround ((byte_value b - 127.5) / 128.0)%float.

(** [normalizePixels(pixelData, mode)]; an omitted [mode] is
    ['INSIGHT'], and every mode other than ['ZERO_ONE'] and ['TORCH'] takes
    the [default] branch. *)
Definition normalizePixels (pixelData : list Byte.byte) (mode : string) : list float :=
  let floatData := replicate (length pixelData) 0%float in
  for_ (length pixelData) (fun i floatData =>
    <[i := normalize_sample mode (read_byte pixelData i)]> floatData) floatData.

End Pixels.

(* ===================================================================== *)
(** * [src/services/faceDetectionService.js]: decoding *)
(* ===================================================================== *)

Module Decoder.

#[local] Open Scope float_scope.

(** [_mapFromLetterbox(bx, by, bw, bh, targetSize, leftPad, topPad, scale,
    origWidth, origHeight)]. *)
Definition _mapFromLetterbox (bx by_ bw bh targetSize leftPad topPad scale
    origWidth origHeight : float) : Box :=
  let px := bx * targetSize in
  let py := by_ * targetSize in
  let pw := bw * targetSize in
  let ph := bh * targetSize in
  let xTop := JS.Math_max 0 (((px - pw / 2) - leftPad) / (scale * origWidth)) in
  let yTop := JS.Math_max 0 (((py - ph / 2) - topPad) / (scale * origHeight)) in
  let wNorm := JS.Math_max 0 ((pw / scale) / origWidth) in
  let hNorm := JS.Math_max 0 ((ph / scale) / origHeight) in
  {| x := JS.Math_min 1 xTop;
     y := JS.Math_min 1 yTop;
     width := JS.Math_min 1 wNorm;
     height := JS.Math_min 1 hNorm |}.

(** An entry of a plain array of numbers used in arithmetic: a read past
    the end gives [undefined], which arithmetic, [Math.max] and [Math.abs]
    turn into NaN. *)
Definition read_number (data : list float) (i : nat) : float :=
  default nan (data !! i).

Section Decode.
(** [Math.exp] is the platform's. *)
Context (Math_exp : float -> float).

(** The confidence of anchor [i]: the sigmoid of one logit, or the second
    class of a softmax over two logits. *)
Definition anchor_score (clsStride : float) (classificators : list float) (i : nat)
    : float :=
  if JS.strict_eq clsStride 1 then
    let logit := read_number classificators i in
    1 / (1 + Math_exp (- logit))
  else
    let l0 := read_number classificators (i * 2)%nat in
    let l1 := read_number classificators (i * 2 + 1)%nat in
    let m := JS.Math_max l0 l1 in
    let e0 := Math_exp (l0 - m) in
    let e1 := Math_exp (l1 - m) in
    e1 / (e0 + e1).

(** One iteration of the loop of [_decodeAnchors]; each [continue] leaves
    [detections] as it is. *)
Definition decode_step (cfg : Config.FaceDetection) (anchors : list Anchor)
    (regressors classificators : list float) (targetSize : float)
    (mapFunc : float -> float -> float -> float -> Box)
    (clsStride : float) (i : nat) (detections : list Detection) : list Detection :=
  let score := anchor_score clsStride classificators i in
  if JS.lt score (Config.confidenceThreshold cfg) then detections
  else
    let offset := (i * 16)%nat in
    if Nat.leb (length regressors) (offset + 3)%nat then detections
    else
      match anchors !! i with
      | None => detections
      | Some anchor =>
          let dx := read_number regressors offset in
          let dy := read_number regressors (offset + 1)%nat in
          let dw := read_number regressors (offset + 2)%nat in
          let dh := read_number regressors (offset + 3)%nat in
          let cx_ := cx anchor + dx / targetSize in
          let cy_ := cy anchor + dy / targetSize in
          let w_ := JS.Math_abs dw / targetSize in
          let h_ := JS.Math_abs dh / targetSize in
          let mapped := mapFunc cx_ cy_ w_ h_ in
          if JS.le (width mapped) 0 || JS.le (height mapped) 0 then detections
          else if JS.lt (width mapped) (Config.minFaceSize cfg)
                  || JS.gt (width mapped) (Config.maxFaceSize cfg) then detections
          else if JS.lt (height mapped) (Config.minFaceSize cfg)
                  || JS.gt (height mapped) (Config.maxFaceSize cfg) then detections
          else detections ++ [mkDetection mapped score]
      end.

(** [_decodeAnchors(regressors, classificators, targetSize, mapFunc)];
    [this_anchors] is the anchor cache the call starts from. *)
Definition _decodeAnchors (cfg : Config.FaceDetection)
    (this_anchors : option (list Anchor))
    (regressors classificators : list float) (targetSize : float)
    (mapFunc : float -> float -> float -> float -> Box) : list Detection :=
  let anchors := fst (FaceDetection._generateAnchors (Config.targetSize cfg) this_anchors) in
  let clsStride := JS.of_nat (length classificators) / JS.of_nat (length anchors) in
  for_ (length anchors)
    (decode_step cfg anchors regressors classificators targetSize mapFunc clsStride) [].

End Decode.

End Decoder.

(* ===================================================================== *)
(** * [src/services/faceRecognitionService.js]: the encoding pipeline *)
(* ===================================================================== *)

Module Encoder.

Import FaceRecognition.

(** What a call can throw: an [AppError], or a plain [Error] with its
    message. *)
Inductive Failure :=
| App (e : Errors.AppError)
| Plain (message : string).

Inductive result (A : Type) :=
| Ok (a : A)
| Throw (e : Failure).
Arguments Ok {A} a.
Arguments Throw {A} e.

(** The raw pixels [extractRegion] resolves to: [{ data, info }] with
    [info.channels]. *)
Record RawImage := {
  data : list Byte.byte;
  channels : nat;
}.

Section Encode.
(** [extractRegion], the call into the image codec, and [_runInference],
    the call into the recognizer; [normMode] is [config.arcface.normMode]. *)
Context {Buffer : Type}
  (extractRegion : Buffer -> Box -> nat -> nat -> RawImage)
  (runInference : list float -> list float)
  (normMode : string).

(** [preprocessFace(buffer, boundingBox)]. *)
Definition preprocessFace (cfg : Config.Arcface) (buffer : Buffer) (boundingBox : Box)
    : Preprocessed float :=
  let SIZE := Config.inputSize cfg in
  let processed := extractRegion buffer boundingBox SIZE SIZE in
  let rgbData := Pixels.convertToRGB (data processed) (channels processed) SIZE SIZE in
  let normalizedData := Pixels.normalizePixels rgbData normMode in
  let channelOrder := channel_indices (Config.channelOrder cfg) in
  let nchwData :=
    Image.convertNHWCtoNCHW 0%float nan normalizedData SIZE SIZE channelOrder in
  {| nchw := nchwData; nhwc := Some normalizedData; size := SIZE |}.

(** [encodeface(buffer, boundingBox)]. *)
Definition encodeface (config : Config.t) (buffer : Buffer) (boundingBox : Box)
    : result (list float) :=
  let preprocessed := preprocessFace (Config.arcface config) buffer boundingBox in
  let embedding :=
    generateEmbedding 0%float nan (Config.arcface config) runInference preprocessed in
  if negb (Nat.eqb (length embedding)
             (Config.embeddingDimension (Config.faceRecognition config)))
  then Throw (Plain "Failed to generate valid embedding")
  else Ok embedding.

End Encode.

End Encoder.

(* ===================================================================== *)
(** * [src/services/faceComparisonService.js] *)
(* ===================================================================== *)

Module FaceComparison.

Import Errors.

(** The comparison [{ similarity, isMatch, threshold }]. *)
Record Comparison := {
  similarity : float;
  isMatch : bool;
  threshold : float;
}.

Section Compare.
(** [parseFloat(x.toFixed(4))], the platform's rounding of a number to four
    decimals. *)
Context (toFixed4 : float -> float).

(** [compareEmbeddings(embedding1, embedding2)]. *)
Definition compareEmbeddings (cfg : Config.FaceRecognition)
    (embedding1 embedding2 : option (list float)) : outcome Comparison :=
  match MathUtils.cosineSimilarity embedding1 embedding2 with
  | None => Thrown (mkAppError SIMILARITY_CALCULATION_FAILED PROCESSING 500)
  | Some similarity =>
      let threshold := Config.similarityThreshold cfg in
      let isMatch := JS.ge similarity threshold in
      Returned {| similarity := toFixed4 similarity;
                  isMatch := isMatch;
                  threshold := threshold |}
  end.

(** [calculateMetrics(embedding1, embedding2)]:
    [{ cosineSimilarity, euclideanDistance }], each rounded or [null]. *)
Definition calculateMetrics (embedding1 embedding2 : option (list float))
    : option float * option float :=
  (option_map toFixed4 (MathUtils.cosineSimilarity embedding1 embedding2),
   option_map toFixed4 (Distance.euclideanDistance embedding1 embedding2)).

End Compare.

End FaceComparison.

(* ===================================================================== *)
(** * Facts about binary64 arithmetic *)
(* ===================================================================== *)

Module Binary64.

#[local] Open Scope float_scope.

Lemma SFcompare_antisym (u v : spec_float) :
  SFcompare v u = option_map CompOpp (SFcompare u v).
Proof.
  destruct u as [su|su| |su mu eu], v as [sv|sv| |sv mv ev]; simpl;
    try reflexivity; try (destruct su; reflexivity);
    try (destruct sv; reflexivity);
    try (destruct su, sv; reflexivity).
  destruct su, sv; simpl; try reflexivity;
    rewrite (Z.compare_antisym eu ev);
    destruct (eu ?= ev)%Z; simpl; try reflexivity;
    pose proof (Pos.compare_cont_antisym mu mv Eq) as Hp; simpl in Hp;
    rewrite <- Hp; destruct (Pos.compare_cont Eq mu mv); reflexivity.
Qed.

Lemma SFcompare_Eq (u v : spec_float) :
  SFcompare u v = Some Eq ->
  u = v \/ exists su sv, u = S754_zero su /\ v = S754_zero sv.
Proof.
  destruct u as [su|su| |su mu eu], v as [sv|sv| |sv mv ev]; simpl;
    try discriminate; try (destruct su; discriminate);
    try (destruct sv; discriminate).
  - intros _. right. eauto.
  - destruct su, sv; try discriminate; auto.
  - destruct su, sv; try discriminate;
      destruct (eu ?= ev)%Z eqn:Ee; try discriminate;
      apply Z.compare_eq in Ee; subst ev; intros Hm;
      assert (Pos.compare_cont Eq mu mv = Eq) as Hm'
        by (destruct (Pos.compare_cont Eq mu mv); simpl in Hm; congruence);
      apply Pos.compare_eq in Hm'; subst mv; auto.
Qed.

Lemma compare_antisym (a b : float) :
  (b ?= a) = match a ?= b with
             | FEq => FEq | FLt => FGt | FGt => FLt
             | FNotComparable => FNotComparable
             end.
Proof.
  rewrite !FloatAxioms.compare_spec, (SFcompare_antisym (Prim2SF a) (Prim2SF b)).
  destruct (SFcompare (Prim2SF a) (Prim2SF b)) as [[| |]|]; reflexivity.
Qed.

Lemma compare_Eq (a b : float) :
  (a ?= b) = FEq -> a = b \/ (is_zero a = true /\ is_zero b = true).
Proof.
  rewrite FloatAxioms.compare_spec.
  destruct (SFcompare (Prim2SF a) (Prim2SF b)) as [[| |]|] eqn:E;
    try discriminate.
  intros _. apply SFcompare_Eq in E as [E|(su & sv & Ea & Eb)].
  - left. now apply Prim2SF_inj.
  - right. unfold is_zero. rewrite !FloatAxioms.eqb_spec, Ea, Eb.
    split; reflexivity.
Qed.

Lemma zero_cases (a : float) :
  is_zero a = true -> a = zero \/ a = neg_zero.
Proof.
  unfold is_zero. rewrite FloatAxioms.eqb_spec. intros Hz.
  destruct (Prim2SF a) as [s|s| |s m e] eqn:E; simpl in Hz;
    try discriminate; try (destruct s; discriminate).
  rewrite <- (SF2Prim_Prim2SF a), E.
  destruct s; [right|left]; reflexivity.
Qed.

Lemma is_nan_spec (a : float) :
  is_nan a = true <-> Prim2SF a = S754_nan.
Proof.
  unfold is_nan. rewrite FloatAxioms.eqb_spec. unfold SFeqb.
  destruct (Prim2SF a) as [[]|[]| |[] m e]; simpl;
    try rewrite Z.compare_refl, Pos.compare_cont_refl; simpl;
    split; intros Hn; first [discriminate Hn | reflexivity].
Qed.

Lemma compare_nan (a b : float) :
  (a ?= b) = FNotComparable <-> is_nan a = true \/ is_nan b = true.
Proof.
  rewrite FloatAxioms.compare_spec, !is_nan_spec.
  destruct (Prim2SF a) as [sa|sa| |sa ma ea], (Prim2SF b) as [sb|sb| |sb mb eb];
    simpl; split; intros Hc; auto; try discriminate;
    try (destruct Hc; discriminate);
    try (destruct sa; discriminate); try (destruct sb; discriminate).
  - destruct sa, sb; discriminate.
  - destruct sa, sb; simpl in Hc; try discriminate;
      destruct (ea ?= eb)%Z; simpl in Hc; try discriminate;
      destruct (Pos.compare_cont Eq ma mb); discriminate.
Qed.

(** The comparison operators in terms of [compare]. *)
Lemma ltb_compare (a b : float) :
  (a <? b) = match a ?= b with FLt => true | _ => false end.
Proof.
  rewrite FloatAxioms.ltb_spec, FloatAxioms.compare_spec. unfold SFltb.
  destruct (SFcompare _ _) as [[| |]|]; reflexivity.
Qed.

Lemma leb_compare (a b : float) :
  (a <=? b) = match a ?= b with FLt | FEq => true | _ => false end.
Proof.
  rewrite FloatAxioms.leb_spec, FloatAxioms.compare_spec. unfold SFleb.
  destruct (SFcompare _ _) as [[| |]|]; reflexivity.
Qed.

(** For numbers, [not (a > b)] is [a <= b]. *)
Lemma not_gt_le (a b : float) :
  is_nan a = false -> is_nan b = false ->
  JS.gt a b = false -> JS.le a b = true.
Proof.
  unfold JS.gt, JS.le. intros Ha Hb.
  rewrite ltb_compare, leb_compare, (compare_antisym a b).
  destruct (a ?= b) eqn:E; try reflexivity; try discriminate.
  apply compare_nan in E. destruct E; congruence.
Qed.

Lemma add_comm (a b : float) : a + b = b + a.
Proof.
  apply Prim2SF_inj. rewrite !FloatAxioms.add_spec. unfold SF64add.
  destruct (Prim2SF a) as [sa|sa| |sa ma ea], (Prim2SF b) as [sb|sb| |sb mb eb];
    simpl; try reflexivity; try (destruct sa, sb; reflexivity).
  now rewrite (Z.min_comm ea eb), Z.add_comm.
Qed.

Lemma mul_comm (a b : float) : a * b = b * a.
Proof.
  apply Prim2SF_inj. rewrite !FloatAxioms.mul_spec. unfold SF64mul.
  destruct (Prim2SF a) as [sa|sa| |sa ma ea], (Prim2SF b) as [sb|sb| |sb mb eb];
    simpl; try reflexivity; try (destruct sa, sb; reflexivity).
  now rewrite (xorb_comm sa sb), (Pos.mul_comm ma mb), (Z.add_comm ea eb).
Qed.

Lemma Math_max_comm (a b : float) : JS.Math_max a b = JS.Math_max b a.
Proof.
  unfold JS.Math_max. rewrite (compare_antisym a b).
  destruct (a ?= b) eqn:E; try reflexivity.
  apply compare_Eq in E as [->|[Ha Hb]].
  - now destruct (get_sign b).
  - apply zero_cases in Ha, Hb.
    destruct Ha as [-> | ->], Hb as [-> | ->]; reflexivity.
Qed.

Lemma Math_min_comm (a b : float) : JS.Math_min a b = JS.Math_min b a.
Proof.
  unfold JS.Math_min. rewrite (compare_antisym a b).
  destruct (a ?= b) eqn:E; try reflexivity.
  apply compare_Eq in E as [->|[Ha Hb]].
  - now destruct (get_sign b).
  - apply zero_cases in Ha, Hb.
    destruct Ha as [-> | ->], Hb as [-> | ->]; reflexivity.
Qed.

(** The IoU does not depend on the order of the two boxes. *)
Lemma calculateIOU_comm (boxA boxB : Box) :
  MathUtils.calculateIOU boxA boxB = MathUtils.calculateIOU boxB boxA.
Proof.
  unfold MathUtils.calculateIOU.
  rewrite (Math_max_comm (x boxA)), (Math_max_comm (y boxA)).
  rewrite (Math_min_comm (x boxA + width boxA)).
  rewrite (Math_min_comm (y boxA + height boxA)).
  now rewrite (add_comm (width boxA * height boxA)).
Qed.

End Binary64.

(* ===================================================================== *)
(** * Non-maximum suppression *)
(* ===================================================================== *)

Module NMSFacts.

Import FaceDetection.

(** The test that keeps [other] next to [current]: their IoU does not
    exceed the threshold. *)
Definition compatible (threshold : float) (current other : Detection) : bool :=
  negb (JS.gt (MathUtils.calculateIOU current other) threshold).

Lemma suppress_from_prefix threshold current :
  forall n sorted, n <= length sorted ->
    suppress_from n threshold current sorted
    = List.filter (compatible threshold current) (take n sorted) ++ drop n sorted.
Proof.
  induction n as [|i IH]; intros sorted Hn.
  - simpl. now rewrite drop_0.
  - destruct (lookup_lt_is_Some_2 sorted i) as [other Hi]; [lia|].
    change (suppress_from (S i) threshold current sorted) with
      (suppress_from i threshold current
         match (sorted !! i : option Detection) with
         | Some other =>
             if JS.gt (MathUtils.calculateIOU current other) threshold
             then delete i sorted else sorted
         | None => sorted
         end).
    rewrite Hi, (take_S_r sorted i other Hi), List.filter_app. simpl.
    unfold compatible at 2.
    destruct (JS.gt (MathUtils.calculateIOU current other) threshold) eqn:Hgt; simpl.
    + rewrite IH by (rewrite length_delete by eauto; lia).
      rewrite delete_take_drop.
      rewrite take_app_length', drop_app_length' by (rewrite length_take; lia).
      now rewrite app_nil_r.
    + rewrite IH by lia. rewrite <- app_assoc. simpl.
      now rewrite (drop_S sorted other i Hi).
Qed.

(** The backward [splice] loop is a filter. *)
Lemma suppress_from_filter threshold current sorted :
  suppress_from (length sorted) threshold current sorted
  = List.filter (compatible threshold current) sorted.
Proof.
  rewrite suppress_from_prefix by lia.
  now rewrite firstn_all, drop_all, app_nil_r.
Qed.

Section Pairwise.
Context {A : Type} (R : A -> A -> Prop).

Lemma ForallOrdPairs_snoc (l : list A) (a : A) :
  ForallOrdPairs R l -> Forall (fun b => R b a) l ->
  ForallOrdPairs R (l ++ [a]).
Proof.
  induction 1 as [|b l Hb Hl IH]; intros Ha; simpl.
  - constructor; [constructor | constructor].
  - inversion Ha as [|? ? Hba Hla]; subst.
    constructor; [|now apply IH].
    apply Forall_app. split; [assumption | now constructor].
Qed.

Lemma ForallOrdPairs_lookup (l : list A) :
  ForallOrdPairs R l ->
  forall i j a b, i < j -> l !! i = Some a -> l !! j = Some b -> R a b.
Proof.
  induction 1 as [|c l Hc Hl IH]; intros i j a b Hij Hi Hj.
  - discriminate.
  - destruct j as [|j]; [lia|]. destruct i as [|i]; simpl in *.
    + injection Hi as ->. rewrite Forall_forall in Hc.
      apply Hc, list_elem_of_lookup. eauto.
    + apply (IH i j); [lia | assumption | assumption].
Qed.
End Pairwise.

(** The loop invariant: the boxes kept so far are pairwise compatible, and
    every box still in [sorted] is compatible with every kept box. *)
Lemma nms_loop_pairwise threshold :
  forall n sorted kept, length sorted = n ->
    ForallOrdPairs (fun a b => compatible threshold a b = true) kept ->
    Forall (fun a => Forall (fun b => compatible threshold a b = true) sorted) kept ->
    ForallOrdPairs (fun a b => compatible threshold a b = true)
      (nms_loop threshold sorted kept).
Proof.
  induction n as [n IH] using lt_wf_ind.
  intros [|current rest] kept Hn Hkept Hrest; simp nms_loop.
  rewrite suppress_from_filter.
  apply (IH (length (List.filter (compatible threshold current) rest))); [|reflexivity| |].
  - subst n. simpl. pose proof (List.filter_length_le (compatible threshold current) rest). lia.
  - apply ForallOrdPairs_snoc; [assumption|].
    eapply List.Forall_impl; [|exact Hrest].
    intros a Ha. now inversion Ha.
  - apply Forall_app. split.
    + eapply List.Forall_impl; [|exact Hrest].
      intros a Ha. inversion Ha as [|? ? _ Har]; subst.
      rewrite Forall_forall in Har |- *.
      intros b Hb. apply Har. apply list_elem_of_In in Hb.
      apply list_elem_of_In. apply List.filter_In in Hb. tauto.
    + constructor; [|constructor].
      rewrite Forall_forall. intros b Hb. apply list_elem_of_In in Hb.
      apply List.filter_In in Hb. tauto.
Qed.

(** Every kept box is one of the boxes the loop started from. *)
Lemma nms_loop_incl threshold :
  forall n sorted kept, length sorted = n ->
    forall d, In d (nms_loop threshold sorted kept) -> In d kept \/ In d sorted.
Proof.
  induction n as [n IH] using lt_wf_ind.
  intros [|current rest] kept Hn d; simp nms_loop; [auto|].
  rewrite suppress_from_filter. intros Hd.
  apply (IH (length (List.filter (compatible threshold current) rest))) in Hd;
    [| subst n; simpl;
       pose proof (List.filter_length_le (compatible threshold current) rest); lia
     | reflexivity].
  destruct Hd as [Hd|Hd].
  - apply in_app_or in Hd as [Hd|[->|[]]]; [now left | right; now left].
  - right. right. apply List.filter_In in Hd. tauto.
Qed.

Lemma sort_insert_In {A : Type} (cmp : A -> A -> float) (a : A) (l : list A) (d : A) :
  In d (JS.sort_insert cmp a l) <-> d = a \/ In d l.
Proof.
  induction l as [|b l IH]; simpl.
  - intuition.
  - destruct (JS.gt (cmp a b) 0); simpl; rewrite ?IH; intuition.
Qed.

Lemma Array_sort_In {A : Type} (cmp : A -> A -> float) (l : list A) (d : A) :
  In d (JS.Array_sort cmp l) <-> In d l.
Proof.
  induction l as [|a l IH]; simpl; [tauto|].
  rewrite sort_insert_In. fold (JS.Array_sort cmp l). rewrite IH. intuition.
Qed.

End NMSFacts.

(* ===================================================================== *)
(** * Loops that fill an array *)
(* ===================================================================== *)

Module LoopFacts.

Lemma for_S {S : Type} (n : nat) (body : nat -> S -> S) (s : S) :
  for_ (Datatypes.S n) body s = body n (for_ n body s).
Proof. unfold for_. now rewrite seq_S, fold_left_app. Qed.

Lemma for_0 {S : Type} (body : nat -> S -> S) (s : S) : for_ 0 body s = s.
Proof. reflexivity. Qed.

(** A loop whose iteration [i] appends [g i]. *)
Lemma for_push {A : Type} (n : nat) (g : nat -> list A) (acc : list A) :
  for_ n (fun i acc => acc ++ g i) acc = acc ++ flat_map g (seq 0 n).
Proof.
  induction n as [|n IH].
  - simpl. now rewrite app_nil_r.
  - rewrite for_S, IH, seq_S, flat_map_app. simpl.
    now rewrite app_nil_r, app_assoc.
Qed.

Lemma for_ext {S : Type} (n : nat) (body body' : nat -> S -> S) (s : S) :
  (forall i s, i < n -> body i s = body' i s) ->
  for_ n body s = for_ n body' s.
Proof.
  intros Hb. induction n as [|n IH]; [reflexivity|].
  rewrite !for_S, IH by (intros; apply Hb; lia). apply Hb. lia.
Qed.

Section Fill.
Context {E : Type} (v : nat -> E).

(** [f] keeps the length of the array and leaves the designated value
    [v k] at every index [k] of [D], without disturbing an index that
    already holds its designated value. *)
Definition establishes (f : list E -> list E) (D : nat -> Prop) : Prop :=
  forall l : list E,
    length (f l) = length l /\
    forall k, k < length l -> D k \/ l !! k = Some (v k) -> f l !! k = Some (v k).

Lemma establishes_insert (d : nat) (e : E) :
  e = v d -> establishes (fun l => <[d := e]> l) (fun k => k = d).
Proof.
  intros -> l. split; [apply length_insert|].
  intros k Hk [->|Hl].
  - now apply list_lookup_insert_eq.
  - destruct (decide (d = k)) as [->|Hne].
    + now apply list_lookup_insert_eq.
    + now rewrite list_lookup_insert_ne.
Qed.

Lemma establishes_for (n : nat) (body : nat -> list E -> list E)
    (D : nat -> nat -> Prop) :
  (forall i, i < n -> establishes (body i) (D i)) ->
  establishes (for_ n body) (fun k => exists i, i < n /\ D i k).
Proof.
  induction n as [|n IH]; intros Hbody l.
  - split; [reflexivity|]. intros k _ [(i & Hi & _)|Hl]; [lia | exact Hl].
  - rewrite for_S.
    destruct (IH (fun i Hi => Hbody i (Nat.lt_lt_succ_r _ _ Hi)) l) as [Hlen Hval].
    destruct (Hbody n (Nat.lt_succ_diag_r n) (for_ n body l)) as [Hlen' Hval'].
    split; [congruence|].
    intros k Hk Hd. apply Hval'; [congruence|].
    destruct Hd as [(i & Hi & Hd)|Hl].
    + destruct (decide (i = n)) as [->|Hne]; [now left|].
      right. apply Hval; [assumption|]. left. exists i. split; [lia|assumption].
    + right. apply Hval; [assumption|now right].
Qed.
End Fill.

End LoopFacts.

(* ===================================================================== *)
(** * Horizontal mirror *)
(* ===================================================================== *)

Module FlipFacts.

Import LoopFacts.

(** The channel-last index of channel [c] of the pixel at row [y] and
    column [x]. *)
Definition idx (w y x c : nat) : nat := (y * w + x) * 3 + c.

(** The index whose entry the mirror stores at index [k]. *)
Definition src_index (w k : nat) : nat :=
  idx w (k / 3 / w) (w - 1 - (k / 3) mod w) (k mod 3).

Lemma idx_decode (w y x c : nat) :
  x < w -> c < 3 ->
  idx w y x c / 3 / w = y /\ (idx w y x c / 3) mod w = x /\ idx w y x c mod 3 = c.
Proof.
  intros Hx Hc. unfold idx.
  assert (((y * w + x) * 3 + c) / 3 = y * w + x) as ->.
  { rewrite Nat.div_add_l by lia. rewrite (Nat.div_small c 3) by lia. lia. }
  repeat split.
  - rewrite Nat.div_add_l by lia. rewrite (Nat.div_small x w) by lia. lia.
  - rewrite Nat.add_comm, Nat.Div0.mod_add. now apply Nat.mod_small.
  - rewrite Nat.add_comm, Nat.Div0.mod_add. now apply Nat.mod_small.
Qed.

Lemma idx_encode (w k : nat) :
  0 < w -> idx w (k / 3 / w) ((k / 3) mod w) (k mod 3) = k.
Proof.
  intros Hw. unfold idx.
  pose proof (Nat.div_mod_eq k 3). pose proof (Nat.div_mod_eq (k / 3) w). lia.
Qed.

Lemma idx_bound (h w y x c : nat) :
  y < h -> x < w -> c < 3 -> idx w y x c < h * w * 3.
Proof. unfold idx. intros Hy Hx Hc. nia. Qed.

Lemma row_bound (h w k : nat) : k < h * w * 3 -> 0 < w /\ k / 3 / w < h.
Proof.
  intros Hk. assert (0 < w) as Hw by nia. split; [assumption|].
  apply Nat.Div0.div_lt_upper_bound, Nat.Div0.div_lt_upper_bound. lia.
Qed.

Lemma src_index_bound (h w k : nat) : k < h * w * 3 -> src_index w k < h * w * 3.
Proof.
  intros Hk. destruct (row_bound h w k Hk) as [Hw Hy].
  apply idx_bound; [assumption| |].
  - pose proof (Nat.mod_upper_bound (k / 3) w). lia.
  - apply Nat.mod_upper_bound. lia.
Qed.

Lemma src_index_involutive (w k : nat) : 0 < w -> src_index w (src_index w k) = k.
Proof.
  intros Hw. unfold src_index at 1.
  pose proof (Nat.mod_upper_bound (k / 3) w ltac:(lia)) as Hx.
  pose proof (Nat.mod_upper_bound k 3 ltac:(lia)) as Hc.
  destruct (idx_decode w (k / 3 / w) (w - 1 - (k / 3) mod w) (k mod 3))
    as (Ey & Ex & Ec); [lia | lia |].
  fold (src_index w k) in Ey, Ex, Ec.
  rewrite Ey, Ex, Ec.
  replace (w - 1 - (w - 1 - (k / 3) mod w)) with ((k / 3) mod w) by lia.
  now apply idx_encode.
Qed.

Section Flip.
Context {E : Type} (fresh undef : E).

#[local] Abbreviation flipHorizontal := (Image.flipHorizontal fresh undef).
#[local] Abbreviation read := (Image.read undef).

Lemma flipHorizontal_establishes (data : list E) (h w : nat) :
  establishes (fun k => read data (src_index w k))
    (for_ h (fun y =>
       for_ w (fun x =>
         for_ 3 (fun c flipped =>
           <[idx w y (w - 1 - x) c := read data (idx w y x c)]> flipped))))
    (fun k => exists y, y < h /\ exists x, x < w /\ exists c, c < 3 /\
              k = idx w y (w - 1 - x) c).
Proof.
  apply establishes_for. intros y Hy.
  apply establishes_for. intros x Hx.
  apply establishes_for. intros c Hc.
  apply establishes_insert.
  unfold src_index.
  destruct (idx_decode w y (w - 1 - x) c) as (-> & -> & ->); [lia | lia |].
  f_equal. f_equal. lia.
Qed.

Lemma flipHorizontal_length (data : list E) (h w : nat) :
  length (flipHorizontal data h w) = h * w * 3.
Proof.
  unfold Image.flipHorizontal.
  destruct (flipHorizontal_establishes data h w (replicate (h * w * 3) fresh))
    as [Hlen _].
  unfold idx in Hlen. rewrite Hlen. apply length_replicate.
Qed.

(** Every entry of the mirror is the entry of the source at the mirrored
    column of the same row and channel. *)
Lemma flipHorizontal_lookup (data : list E) (h w k : nat) :
  k < h * w * 3 ->
  flipHorizontal data h w !! k = Some (read data (src_index w k)).
Proof.
  intros Hk. unfold Image.flipHorizontal.
  destruct (flipHorizontal_establishes data h w (replicate (h * w * 3) fresh))
    as [_ Hval].
  unfold idx in Hval at 1 2. apply Hval.
  - now rewrite length_replicate.
  - left. destruct (row_bound h w k Hk) as [Hw Hy].
    pose proof (Nat.mod_upper_bound (k / 3) w ltac:(lia)) as Hx.
    exists (k / 3 / w). split; [assumption|].
    exists (w - 1 - (k / 3) mod w). split; [lia|].
    exists (k mod 3). split; [apply Nat.mod_upper_bound; lia|].
    replace (w - 1 - (w - 1 - (k / 3) mod w)) with ((k / 3) mod w) by lia.
    symmetry. now apply idx_encode.
Qed.
End Flip.

End FlipFacts.

(** C10. [flipHorizontal] is an involution: for every height [h], width [w]
    and channel-last pixel array of length [h * w * 3], mirroring twice
    gives back the array. *)
Theorem flipHorizontal_involutive {E : Type} (fresh undef : E)
    (nhwcData : list E) (h w : nat) :
  length nhwcData = h * w * 3 ->
  Image.flipHorizontal fresh undef
    (Image.flipHorizontal fresh undef nhwcData h w) h w = nhwcData.
Proof.
  intros Hlen. apply list_eq. intros k.
  destruct (decide (k < h * w * 3)) as [Hk|Hk].
  - rewrite FlipFacts.flipHorizontal_lookup by assumption.
    pose proof (FlipFacts.src_index_bound h w k Hk) as Hs.
    unfold Image.read at 1.
    rewrite FlipFacts.flipHorizontal_lookup by assumption. simpl.
    rewrite FlipFacts.src_index_involutive by (apply (FlipFacts.row_bound h w k Hk)).
    unfold Image.read.
    destruct (lookup_lt_is_Some_2 nhwcData k) as [e He]; [lia|].
    now rewrite He.
  - rewrite !lookup_ge_None_2; [reflexivity | lia |].
    rewrite FlipFacts.flipHorizontal_length. lia.
Qed.

Lemma flipHorizontal_involutive_witness :
  Image.flipHorizontal 0 7 (Image.flipHorizontal 0 7 [1;2;3;4;5;6;7;8;9;10;11;12] 2 2) 2 2
  = [1;2;3;4;5;6;7;8;9;10;11;12].
Proof. apply (flipHorizontal_involutive 0 7 [1;2;3;4;5;6;7;8;9;10;11;12] 2 2). reflexivity. Defined.

(** C1. Non-maximum suppression postcondition: for every list of detections
    and every threshold, any two boxes kept by [_applyNMS] at distinct
    positions are boxes of the input whose IoU (as [calculateIOU] computes
    it) does not exceed the threshold; when that IoU and the threshold are
    numbers, this is [IoU <= threshold]. *)
Theorem applyNMS_pairwise_iou (boxes : list Detection) (threshold : float)
    (i j : nat) (a b : Detection) :
  i <> j ->
  FaceDetection._applyNMS boxes threshold !! i = Some a ->
  FaceDetection._applyNMS boxes threshold !! j = Some b ->
  In a boxes /\ In b boxes /\
  JS.gt (MathUtils.calculateIOU a b) threshold = false /\
  (is_nan (MathUtils.calculateIOU a b) = false -> is_nan threshold = false ->
   JS.le (MathUtils.calculateIOU a b) threshold = true).
Proof.
  intros Hij Hi Hj.
  assert (forall k d, FaceDetection._applyNMS boxes threshold !! k = Some d -> In d boxes)
    as Hin.
  { intros k d Hk. apply list_elem_of_lookup_2, list_elem_of_In in Hk.
    apply (NMSFacts.nms_loop_incl threshold _ _ [] eq_refl) in Hk as [[]|Hk].
    now apply NMSFacts.Array_sort_In in Hk. }
  assert (JS.gt (MathUtils.calculateIOU a b) threshold = false) as Hgt.
  { pose proof (NMSFacts.nms_loop_pairwise threshold _
      (JS.Array_sort (fun a b => (score b - score a)%float) boxes) []
      eq_refl (FOP_nil _) (List.Forall_nil _)) as Hp.
    fold (FaceDetection._applyNMS boxes threshold) in Hp.
    pose proof (NMSFacts.ForallOrdPairs_lookup _ _ Hp) as Hl.
    destruct (Nat.lt_total i j) as [Hlt|[Heq|Hlt]]; [|contradiction|].
    - specialize (Hl i j a b Hlt Hi Hj).
      unfold NMSFacts.compatible in Hl. now apply negb_true_iff in Hl.
    - specialize (Hl j i b a Hlt Hj Hi).
      unfold NMSFacts.compatible in Hl. apply negb_true_iff in Hl.
      now rewrite Binary64.calculateIOU_comm. }
  split; [exact (Hin i a Hi)|]. split; [exact (Hin j b Hj)|].
  split; [exact Hgt|].
  intros Hn Ht. now apply Binary64.not_gt_le.
Qed.

Lemma applyNMS_pairwise_iou_witness :
  let boxes :=
    [ mkDetection (mkBox 0 0 0.5 0.5) 0.9;
      mkDetection (mkBox 0.1 0.1 0.5 0.5) 0.8;
      mkDetection (mkBox 0.6 0.6 0.2 0.2) 0.95;
      mkDetection (mkBox 0.01 0 0.5 0.5) 0.7 ]%float in
  let a := mkDetection (mkBox 0 0 0.5 0.5) 0.9%float in
  let b := mkDetection (mkBox 0.1 0.1 0.5 0.5) 0.8%float in
  FaceDetection._applyNMS boxes 0.5%float !! 1 = Some a /\
  FaceDetection._applyNMS boxes 0.5%float !! 2 = Some b /\
  JS.le (MathUtils.calculateIOU a b) 0.5%float = true.
Proof.
  intros boxes a b.
  assert (FaceDetection._applyNMS boxes 0.5%float !! 1 = Some a) as H1
    by (vm_compute; reflexivity).
  assert (FaceDetection._applyNMS boxes 0.5%float !! 2 = Some b) as H2
    by (vm_compute; reflexivity).
  split; [exact H1|]. split; [exact H2|].
  apply (applyNMS_pairwise_iou boxes 0.5%float 1 2 a b); [lia | exact H1 | exact H2 | | ];
    vm_compute; reflexivity.
Defined.

(* ===================================================================== *)
(** * Anchor generation *)
(* ===================================================================== *)

Module AnchorFacts.

Import LoopFacts FaceDetection.
#[local] Open Scope float_scope.

(** The anchor of the cell at column [x] and row [y] of a grid of stride
    [stride], in the words of the specification. *)
Definition spec_anchor (targetSize : float) (stride y x : nat) : Anchor :=
  {| cx := (JS.of_nat x + 0.5) * JS.of_nat stride / targetSize;
     cy := (JS.of_nat y + 0.5) * JS.of_nat stride / targetSize;
     w := JS.of_nat stride / targetSize;
     h := JS.of_nat stride / targetSize |}.

(** The anchor sequence in the words of the specification: feature map by
    feature map, iterating grid rows, then columns, then the anchor slots of
    the cell. *)
Definition spec_anchors (targetSize : float) (maps : list FeatureMap) : list Anchor :=
  flat_map (fun fm =>
    flat_map (fun y =>
      flat_map (fun x =>
        flat_map (fun _ => [spec_anchor targetSize (stride fm) y x])
          (seq 0 (anchorsPerCell fm)))
        (seq 0 (size fm)))
      (seq 0 (size fm)))
    maps.

(** Three nested loops that append. *)
Lemma for3_push {A : Type} (n1 n2 n3 : nat) (g : nat -> nat -> nat -> list A)
    (acc : list A) :
  for_ n1 (fun y => for_ n2 (fun x => for_ n3 (fun a acc => acc ++ g y x a))) acc
  = acc ++ flat_map (fun y => flat_map (fun x => flat_map (g y x) (seq 0 n3)) (seq 0 n2))
             (seq 0 n1).
Proof.
  rewrite <- for_push. apply for_ext. intros y acc1 _.
  rewrite <- for_push. apply for_ext. intros x acc2 _.
  apply for_push.
Qed.

Lemma for_of_push {A B : Type} (items : list B) (g : B -> list A) (acc : list A) :
  (for_of items (fun v acc => acc ++ g v) acc) = acc ++ flat_map g items.
Proof.
  unfold for_of. revert acc. induction items as [|v items IH]; intros acc; simpl.
  - now rewrite app_nil_r.
  - now rewrite IH, app_assoc.
Qed.

Lemma for_of_ext {S A : Type} (items : list A) (body body' : A -> S -> S) (s : S) :
  (forall v s, body v s = body' v s) -> for_of items body s = for_of items body' s.
Proof.
  intros Hb. unfold for_of. revert s.
  induction items as [|v items IH]; intros s; simpl; [reflexivity|].
  now rewrite Hb, IH.
Qed.

(** The loops of [_generateAnchors] produce the specified sequence. *)
Lemma generateAnchors_fresh (targetSize : float) :
  FaceDetection._generateAnchors targetSize None
  = (spec_anchors targetSize featureMaps, Some (spec_anchors targetSize featureMaps)).
Proof.
  unfold FaceDetection._generateAnchors.
  assert (for_of featureMaps (fun fm =>
            for_ (size fm) (fun y =>
              for_ (size fm) (fun x =>
                for_ (anchorsPerCell fm) (fun a anchors =>
                  anchors ++ [anchor_at targetSize fm y x])))) []
          = spec_anchors targetSize featureMaps) as ->; [|reflexivity].
  unfold spec_anchors.
  rewrite <- (app_nil_l (flat_map _ featureMaps)), <- for_of_push.
  apply for_of_ext. intros fm acc.
  now rewrite (for3_push (size fm) (size fm) (anchorsPerCell fm)
                 (fun y x _ => [anchor_at targetSize fm y x])).
Qed.

End AnchorFacts.

(** C6. For the feature maps
    [[{size:16,stride:8,anchorsPerCell:2},{size:8,stride:16,anchorsPerCell:6}]]
    and any target size, the anchor generator returns exactly 896 anchors,
    ordered by grid row, then column, then anchor slot, each equal to
    [{cx:(x+0.5)*stride/targetSize, cy:(y+0.5)*stride/targetSize,
      w:stride/targetSize, h:stride/targetSize}]; a later call returns the
    same sequence from the cache. *)
Theorem generateAnchors_deterministic (targetSize : float) :
  FaceDetection.featureMaps
  = [ {| FaceDetection.size := 16; FaceDetection.stride := 8;
         FaceDetection.anchorsPerCell := 2 |};
      {| FaceDetection.size := 8; FaceDetection.stride := 16;
         FaceDetection.anchorsPerCell := 6 |} ] /\
  fst (FaceDetection._generateAnchors targetSize None)
  = AnchorFacts.spec_anchors targetSize FaceDetection.featureMaps /\
  length (fst (FaceDetection._generateAnchors targetSize None)) = 896 /\
  FaceDetection._generateAnchors targetSize
    (snd (FaceDetection._generateAnchors targetSize None))
  = FaceDetection._generateAnchors targetSize None.
Proof.
  rewrite AnchorFacts.generateAnchors_fresh. simpl fst. simpl snd.
  split; [reflexivity|]. split; [reflexivity|]. split; [|reflexivity].
  vm_compute. reflexivity.
Qed.

(* ===================================================================== *)
(** * Embedding validation *)
(* ===================================================================== *)

Module ValidationFacts.

Import Errors Validation.

(** A finite number: a number that is neither NaN nor an infinity. *)
Definition finite_number (val : JSON) : bool :=
  match val with
  | JNumber n => is_finite n
  | _ => false
  end.

(** What [JSON.parse] returns for an array of 512 numbers whose first
    literal is [1e999], which overflows to [Infinity]. *)
Definition embedding_with_infinity : list JSON :=
  JNumber infinity :: repeat (JNumber 0%float) 511.

(** An array of 512 numbers whose first entry is NaN. *)
Definition embedding_with_nan : list JSON :=
  JNumber nan :: repeat (JNumber 0%float) 511.

End ValidationFacts.

(** C7, as stated, fails: an array of 512 numbers that contains [Infinity]
    is not an array of finite numbers, yet [validateEmbedding] returns it;
    and an array of 512 entries that contains NaN is rejected with the
    invalid-values message, not with the invalid-format message. *)
Lemma validateEmbedding_accepts_infinity :
  forallb ValidationFacts.finite_number ValidationFacts.embedding_with_infinity = false /\
  Validation.validateEmbedding (Config.faceRecognition Config.config)
    (Validation.Parsed (Validation.JArray ValidationFacts.embedding_with_infinity))
  = Errors.Returned ValidationFacts.embedding_with_infinity /\
  Validation.validateEmbedding (Config.faceRecognition Config.config)
    (Validation.Parsed (Validation.JArray ValidationFacts.embedding_with_nan))
  = Errors.Thrown
      (Errors.mkAppError Errors.INVALID_EMBEDDING_VALUES Errors.VALIDATION 400) /\
  Errors.INVALID_EMBEDDING_VALUES <> Errors.INVALID_EMBEDDING_FORMAT.
Proof.
  repeat split; try (vm_compute; reflexivity). discriminate.
Qed.

(** C7, amended. [validateEmbedding] returns exactly when the string parses
    to an array of [embeddingDimension] (512) entries each of which is a
    number other than NaN, and then returns that array unchanged; a value
    that is not an array, or an array of another length, is rejected with
    the invalid-format message; an array of the right length with an entry
    that is not a number or is NaN is rejected with the invalid-values
    message; a string that does not parse is rejected with the parser's
    message.  Every rejection is a validation error with status 400. *)
Theorem validateEmbedding_spec (cfg : Config.FaceRecognition)
    (parsed : Validation.ParseOutcome) :
  (forall embedding,
     Validation.validateEmbedding cfg parsed = Errors.Returned embedding <->
     parsed = Validation.Parsed (Validation.JArray embedding) /\
     length embedding = Config.embeddingDimension cfg /\
     forallb Validation.valid_number embedding = true) /\
  (forall embedding,
     parsed = Validation.Parsed (Validation.JArray embedding) ->
     length embedding <> Config.embeddingDimension cfg ->
     Validation.validateEmbedding cfg parsed
     = Errors.Thrown
         (Errors.mkAppError Errors.INVALID_EMBEDDING_FORMAT Errors.VALIDATION 400)) /\
  (forall embedding,
     parsed = Validation.Parsed (Validation.JArray embedding) ->
     length embedding = Config.embeddingDimension cfg ->
     forallb Validation.valid_number embedding = false ->
     Validation.validateEmbedding cfg parsed
     = Errors.Thrown
         (Errors.mkAppError Errors.INVALID_EMBEDDING_VALUES Errors.VALIDATION 400)) /\
  (forall value,
     parsed = Validation.Parsed value ->
     (forall embedding, value <> Validation.JArray embedding) ->
     Validation.validateEmbedding cfg parsed
     = Errors.Thrown
         (Errors.mkAppError Errors.INVALID_EMBEDDING_FORMAT Errors.VALIDATION 400)) /\
  (forall msg,
     parsed = Validation.SyntaxError msg ->
     Validation.validateEmbedding cfg parsed
     = Errors.Thrown
         (Errors.mkAppError ("Invalid embedding format: " ++ msg)%string
            Errors.VALIDATION 400)) /\
  Config.embeddingDimension (Config.faceRecognition Config.config) = 512.
Proof.
  split; [|split; [|split; [|split; [|split; [|reflexivity]]]]].
  - intros embedding. split.
    + destruct parsed as [msg|[]]; simpl; try discriminate.
      destruct (Nat.eqb_spec (length items) (Config.embeddingDimension cfg)); simpl;
        [|discriminate].
      destruct (forallb Validation.valid_number items) eqn:Hv; simpl; [|discriminate].
      intros [= <-]. auto.
    + intros (-> & Hlen & Hv). simpl.
      rewrite (proj2 (Nat.eqb_eq _ _) Hlen), Hv. reflexivity.
  - intros embedding -> Hlen. simpl.
    now rewrite (proj2 (Nat.eqb_neq _ _) Hlen).
  - intros embedding -> Hlen Hv. simpl.
    now rewrite (proj2 (Nat.eqb_eq _ _) Hlen), Hv.
  - intros value -> Hna. destruct value; try reflexivity.
    now destruct (Hna items).
  - intros msg ->. reflexivity.
Qed.

Lemma validateEmbedding_spec_witness :
  Validation.validateEmbedding (Config.faceRecognition Config.config)
    (Validation.Parsed (Validation.JArray (repeat (Validation.JNumber 0.25%float) 512)))
  = Errors.Returned (repeat (Validation.JNumber 0.25%float) 512) /\
  Validation.validateEmbedding (Config.faceRecognition Config.config)
    (Validation.Parsed (Validation.JArray (repeat (Validation.JNumber 0.25%float) 511)))
  = Errors.Thrown
      (Errors.mkAppError Errors.INVALID_EMBEDDING_FORMAT Errors.VALIDATION 400).
Proof.
  pose proof (validateEmbedding_spec (Config.faceRecognition Config.config)
    (Validation.Parsed (Validation.JArray (repeat (Validation.JNumber 0.25%float) 512))))
    as (Hret & _).
  pose proof (validateEmbedding_spec (Config.faceRecognition Config.config)
    (Validation.Parsed (Validation.JArray (repeat (Validation.JNumber 0.25%float) 511))))
    as (_ & Hlen & _).
  split.
  - apply Hret. repeat split; vm_compute; reflexivity.
  - apply (Hlen _ eq_refl). vm_compute. discriminate.
Defined.

(* ===================================================================== *)
(** * Cosine similarity and L2 normalization *)
(* ===================================================================== *)

Module VectorFacts.

Import MathUtils.

Section Generic.
Context {N : Type} `{Num.Arith N}.

(** The loop of [l2Normalize], started from an accumulator. *)
Definition sum_squares_from (acc : N) (vector : list N) : N :=
  for_of vector (fun val norm => Num.add norm (Num.mul val val)) acc.

(** The dot product accumulated by [cosineSimilarity]. *)
Definition dot_from (acc : N) (a b : list N) : N :=
  List.fold_left (fun d ab => Num.add d (Num.mul (fst ab) (snd ab))) (combine a b) acc.

Lemma sum_squares_from_nil (acc : N) : sum_squares_from acc [] = acc.
Proof. reflexivity. Qed.

Lemma sum_squares_from_cons (acc u : N) (v : list N) :
  sum_squares_from acc (u :: v) = sum_squares_from (Num.add acc (Num.mul u u)) v.
Proof. reflexivity. Qed.

Lemma sum_squares_from_zero (v : list N) : sum_squares v = sum_squares_from Num.zero v.
Proof. reflexivity. Qed.

Lemma dot_from_nil_l (acc : N) (b : list N) : dot_from acc [] b = acc.
Proof. reflexivity. Qed.

Lemma dot_from_nil_r (acc : N) (a : list N) : dot_from acc a [] = acc.
Proof. now destruct a. Qed.

Lemma dot_from_cons (acc u v : N) (a b : list N) :
  dot_from acc (u :: a) (v :: b) = dot_from (Num.add acc (Num.mul u v)) a b.
Proof. reflexivity. Qed.

(** The three accumulators of [cosineSimilarity] are the dot product and the
    two sums of squares. *)
Lemma cosine_fold (a b : list N) :
  length a = length b ->
  forall d na nb,
    List.fold_left cosine_step (combine a b) (d, na, nb)
    = (dot_from d a b, sum_squares_from na a, sum_squares_from nb b).
Proof.
  revert b. induction a as [|x a IH]; intros [|y b] Hlen d na nb;
    try discriminate; [reflexivity|].
  simpl. rewrite IH by (simpl in Hlen; lia). reflexivity.
Qed.

(** What [cosineSimilarity] returns on two arrays of equal length. *)
Lemma cosineSimilarity_equal_length (a b : list N) :
  length a = length b ->
  cosineSimilarity (Some a) (Some b)
  = if Num.is_zero (sum_squares a) || Num.is_zero (sum_squares b)
    then Some Num.zero
    else Some (Num.div (dot_from Num.zero a b)
                 (Num.mul (Num.sqrt (sum_squares a)) (Num.sqrt (sum_squares b)))).
Proof.
  intros Hlen. unfold cosineSimilarity.
  rewrite (proj2 (Nat.eqb_eq _ _) Hlen). simpl negb. cbv iota.
  rewrite cosine_fold by assumption. reflexivity.
Qed.

Lemma cosineSimilarity_null (a b : option (list N)) :
  cosineSimilarity a b = None <->
  a = None \/ b = None \/
  exists va vb, a = Some va /\ b = Some vb /\ length va <> length vb.
Proof.
  destruct a as [va|], b as [vb|]; simpl; try (split; [auto | reflexivity]).
  destruct (Nat.eqb_spec (length va) (length vb)) as [Heq|Hne]; simpl.
  - split.
    + destruct (List.fold_left _ _ _) as [[d na] nb].
      destruct (_ || _); discriminate.
    + intros [|[|(va' & vb' & [= <-] & [= <-] & Hne)]]; try discriminate.
      contradiction.
  - split; [|reflexivity]. intros _. right. right. eauto.
Qed.

Hypothesis mul_comm : forall u v : N, Num.mul u v = Num.mul v u.

Lemma dot_from_comm (a b : list N) :
  forall d, dot_from d a b = dot_from d b a.
Proof.
  revert b. induction a as [|u a IH]; intros [|v b] d; try reflexivity.
  unfold dot_from in *. simpl. rewrite (mul_comm u v). apply IH.
Qed.

Lemma cosineSimilarity_comm (a b : option (list N)) :
  cosineSimilarity a b = cosineSimilarity b a.
Proof.
  destruct a as [va|], b as [vb|]; try reflexivity.
  destruct (Nat.eq_dec (length va) (length vb)) as [Heq|Hne].
  - rewrite !cosineSimilarity_equal_length by congruence.
    rewrite (orb_comm (Num.is_zero (sum_squares vb))).
    rewrite (dot_from_comm vb va).
    now rewrite (mul_comm (Num.sqrt (sum_squares vb))).
  - unfold cosineSimilarity.
    rewrite (proj2 (Nat.eqb_neq _ _) Hne).
    rewrite (proj2 (Nat.eqb_neq (length vb) (length va))) by congruence.
    reflexivity.
Qed.

End Generic.

End VectorFacts.

(** C3 fails on the code.  [cosineSimilarity] is symmetric on all inputs,
    but its result leaves the interval [[-1, 1]] that the claim and the
    function's own documentation ("Similarity score between -1 and 1")
    promise.  The vectors [[1, 1, 1]] and [[1, 1, 1]] are finite, of equal
    length and of non-zero norm, and their similarity is computed as
    [3 / (sqrt 3 * sqrt 3)], which is [1.0000000000000002]; against
    [[-1, -1, -1]] the result is [-1.0000000000000002]; and for
    [[0x1.3p-537]] and [[1]], where the square of the first entry loses its
    low bits to underflow, the result is [1.1875]. *)
Theorem cosineSimilarity_exceeds_one :
  (forall a b : option (list float),
     MathUtils.cosineSimilarity a b = MathUtils.cosineSimilarity b a) /\
  let ones := [1; 1; 1]%float in
  let tiny := [0x1.3p-537]%float in
  Forall (fun u => is_finite u = true) ones /\
  JS.strict_eq (MathUtils.sum_squares ones) 0 = false /\
  MathUtils.cosineSimilarity (Some ones) (Some ones) = Some 1.0000000000000002%float /\
  JS.le 1.0000000000000002 1 = false /\
  MathUtils.cosineSimilarity (Some ones) (Some [-1; -1; -1]%float)
  = Some (-1.0000000000000002)%float /\
  JS.ge (-1.0000000000000002) (-1) = false /\
  Forall (fun u => is_finite u = true) tiny /\
  JS.strict_eq (MathUtils.sum_squares tiny) 0 = false /\
  MathUtils.cosineSimilarity (Some tiny) (Some [1]%float) = Some 1.1875%float /\
  JS.le 1.1875 1 = false.
Proof.
  split.
  - intros a b. apply VectorFacts.cosineSimilarity_comm. exact Binary64.mul_comm.
  - cbv zeta. split; [repeat constructor|].
    split; [vm_compute; reflexivity|]. split; [vm_compute; reflexivity|].
    split; [vm_compute; reflexivity|]. split; [vm_compute; reflexivity|].
    split; [vm_compute; reflexivity|]. split; [repeat constructor|].
    split; [vm_compute; reflexivity|]. split; vm_compute; reflexivity.
Qed.

(** C4, as stated, fails: two empty vectors are not rejected; the call
    returns [0]. *)
Lemma cosineSimilarity_empty_vectors :
  MathUtils.cosineSimilarity (Some ([] : list float)) (Some ([] : list float))
  = Some 0%float.
Proof. reflexivity. Qed.

(** C4, amended.  [cosineSimilarity] returns [null] exactly when an
    argument is missing ([null] or [undefined]) or the two lengths differ
    (so for an empty vector and a non-empty one, but not for two empty
    vectors); when the lengths match and the sum of squares of either vector
    is exactly [0], it returns [0]. *)
Theorem cosineSimilarity_null_iff {N : Type} `{Num.Arith N}
    (vectorA vectorB : option (list N)) :
  (MathUtils.cosineSimilarity vectorA vectorB = None <->
   vectorA = None \/ vectorB = None \/
   exists a b, vectorA = Some a /\ vectorB = Some b /\ length a <> length b) /\
  (forall a b,
     vectorA = Some a -> vectorB = Some b -> length a = length b ->
     Num.is_zero (MathUtils.sum_squares a) = true \/
     Num.is_zero (MathUtils.sum_squares b) = true ->
     MathUtils.cosineSimilarity vectorA vectorB = Some Num.zero).
Proof.
  split; [apply VectorFacts.cosineSimilarity_null|].
  intros a b -> -> Hlen Hz.
  rewrite VectorFacts.cosineSimilarity_equal_length by assumption.
  destruct Hz as [-> | ->]; [reflexivity|].
  now rewrite orb_true_r.
Qed.

Lemma cosineSimilarity_null_iff_witness :
  MathUtils.cosineSimilarity (Some [1]%float) (Some [1; 2]%float) = None /\
  MathUtils.cosineSimilarity (Some [0; 0]%float) (Some [1; 2]%float) = Some 0%float.
Proof.
  split.
  - apply (cosineSimilarity_null_iff (Some [1]%float) (Some [1; 2]%float)).
    right. right. exists [1]%float, [1; 2]%float.
    split; [reflexivity|]. split; [reflexivity|]. simpl. lia.
  - change (Some 0%float) with (Some (@Num.zero float Num.binary64)).
    apply (proj2 (cosineSimilarity_null_iff (Some [0; 0]%float) (Some [1; 2]%float))
             [0; 0]%float [1; 2]%float eq_refl eq_refl eq_refl).
    left. vm_compute. reflexivity.
Defined.

(* ===================================================================== *)
(** * Rounding in binary64 *)
(* ===================================================================== *)

(** The operations of binary64 round to nearest.  The lemmas below bound
    the rounding of each operation of [l2Normalize] from the specification
    of the primitive floats: for a result in the normal range, the rounded
    value is the 53-digit truncation of the exact value or its successor,
    hence within a factor [1 + 2^-52] of the exact value. *)

Module RoundFacts.

#[local] Open Scope Z_scope.

Lemma digits_spec (p : positive) :
  2 ^ (Z.pos (digits2_pos p) - 1) <= Z.pos p < 2 ^ Z.pos (digits2_pos p).
Proof.
  induction p as [p IH|p IH|]; simpl digits2_pos.
  - rewrite Pos2Z.inj_succ. replace (Z.succ (Z.pos (digits2_pos p)) - 1)
      with (Z.succ (Z.pos (digits2_pos p) - 1)) by lia.
    rewrite !Z.pow_succ_r by lia. lia.
  - rewrite Pos2Z.inj_succ. replace (Z.succ (Z.pos (digits2_pos p)) - 1)
      with (Z.succ (Z.pos (digits2_pos p) - 1)) by lia.
    rewrite !Z.pow_succ_r by lia. lia.
  - simpl. lia.
Qed.

Lemma digits_unique (p : positive) (d : Z) :
  2 ^ (d - 1) <= Z.pos p < 2 ^ d -> Z.pos (digits2_pos p) = d.
Proof.
  intros [Hlo Hhi]. pose proof (digits_spec p) as [Plo Phi].
  assert (0 < d).
  { destruct (Z.lt_ge_cases 0 d) as [|Hd]; [assumption|].
    destruct (Z.eq_dec d 0) as [->|]; [simpl in Hhi; lia|].
    rewrite (Z.pow_neg_r 2 d) in Hhi by lia. lia. }
  destruct (Z.lt_trichotomy (Z.pos (digits2_pos p)) d) as [Hlt|[Heq|Hgt]];
    [|assumption|].
  - assert (2 ^ Z.pos (digits2_pos p) <= 2 ^ (d - 1))
      by (apply Z.pow_le_mono_r; lia). lia.
  - assert (2 ^ d <= 2 ^ (Z.pos (digits2_pos p) - 1))
      by (apply Z.pow_le_mono_r; lia). lia.
Qed.

(** One step of the right shift halves the mantissa. *)
Lemma shr_1_m (r : shr_record) :
  0 <= shr_m r -> shr_m (shr_1 r) = shr_m r / 2 /\ 0 <= shr_m (shr_1 r).
Proof.
  destruct r as [m rb sb]. cbn [shr_m]. intros Hm.
  destruct m as [|[p|p|]|p]; cbn [shr_1 shr_m]; try lia;
    (split; [|lia]).
  - reflexivity.
  - apply (Z.div_unique (Z.pos p~1) 2 (Z.pos p) 1); lia.
  - apply (Z.div_unique (Z.pos p~0) 2 (Z.pos p) 0); lia.
  - reflexivity.
Qed.

Lemma pow2_xI (p : positive) : 2 ^ Z.pos p~1 = 2 * 2 ^ Z.pos p * 2 ^ Z.pos p.
Proof.
  replace (Z.pos p~1) with (1 + Z.pos p + Z.pos p) by lia.
  rewrite !Z.pow_add_r by lia. reflexivity.
Qed.

Lemma pow2_xO (p : positive) : 2 ^ Z.pos p~0 = 2 ^ Z.pos p * 2 ^ Z.pos p.
Proof.
  replace (Z.pos p~0) with (Z.pos p + Z.pos p) by lia.
  rewrite !Z.pow_add_r by lia. reflexivity.
Qed.

Lemma iter_shr_1_m (p : positive) :
  forall r, 0 <= shr_m r ->
    shr_m (SpecFloat.iter_pos shr_1 p r) = shr_m r / 2 ^ Z.pos p /\
    0 <= shr_m (SpecFloat.iter_pos shr_1 p r).
Proof.
  induction p as [p IH|p IH|]; intros r Hr; simpl SpecFloat.iter_pos.
  - destruct (shr_1_m r Hr) as [E1 P1].
    destruct (IH _ P1) as [E2 P2]. destruct (IH _ P2) as [E3 P3].
    split; [|assumption]. rewrite E3, E2, E1, pow2_xI.
    assert (0 < 2 ^ Z.pos p) by (apply Z.pow_pos_nonneg; lia).
    rewrite !Z.div_div by lia. f_equal. lia.
  - destruct (IH _ Hr) as [E2 P2]. destruct (IH _ P2) as [E3 P3].
    split; [|assumption]. rewrite E3, E2, pow2_xO.
    assert (0 < 2 ^ Z.pos p) by (apply Z.pow_pos_nonneg; lia).
    rewrite !Z.div_div by lia. reflexivity.
  - destruct (shr_1_m r Hr) as [E1 P1]. split; [|assumption].
    rewrite E1. reflexivity.
Qed.

Lemma shr_spec (r : shr_record) (e n : Z) :
  0 <= shr_m r -> 0 <= n ->
  exists r', shr r e n = (r', e + n) /\ shr_m r' = shr_m r / 2 ^ n.
Proof.
  intros Hr Hn. destruct n as [|p|p]; [| |lia].
  - exists r. simpl. rewrite Z.add_0_r, Z.div_1_r. auto.
  - exists (SpecFloat.iter_pos shr_1 p r). simpl. split; [reflexivity|].
    apply iter_shr_1_m. assumption.
Qed.

Lemma shr_record_of_loc_m (m : Z) (l : location) : shr_m (shr_record_of_loc m l) = m.
Proof. destruct l as [|[]]; reflexivity. Qed.

Lemma round_nearest_even_cases (m : Z) (l : location) :
  round_nearest_even m l = m \/ round_nearest_even m l = m + 1.
Proof. destruct l as [|[]]; simpl; auto. destruct (Z.even m); auto. Qed.

(** Rounding a mantissa of at least 53 digits whose value lies in the
    normal range: the result is the mantissa truncated to 53 digits, or its
    successor. *)
Lemma binary_round_aux_bracket (sx : bool) (m : positive) (e : Z) (l : location) :
  let d := Z.pos (digits2_pos m) in
  let k := d - 53 in
  let m1 := Z.pos m / 2 ^ k in
  53 <= d -> -1021 <= d + e -> d + e <= 1023 ->
  2 ^ 52 <= m1 < 2 ^ 53 /\
  exists m' e',
    binary_round_aux prec emax sx (Z.pos m) e l = S754_finite sx m' e' /\
    ((Z.pos m' = m1 /\ e' = e + k) \/
     (Z.pos m' = m1 + 1 /\ e' = e + k) \/
     (m1 + 1 = 2 ^ 53 /\ Z.pos m' = 2 ^ 52 /\ e' = e + k + 1)).
Proof.
  intros d k m1 Hd Hlo Hhi.
  pose proof (digits_spec m) as [Dlo Dhi]. fold d in Dlo, Dhi.
  assert (2 ^ 52 <= m1 < 2 ^ 53) as Hm1.
  { subst m1. replace d with (k + 53) in Dhi by lia.
    replace (d - 1) with (k + 52) in Dlo by lia.
    rewrite Z.pow_add_r in Dlo, Dhi by lia.
    assert (0 < 2 ^ k) by (apply Z.pow_pos_nonneg; lia).
    split.
    - apply Z.div_le_lower_bound; lia.
    - apply Z.div_lt_upper_bound; lia. }
  split; [exact Hm1|].
  unfold binary_round_aux.
  assert (fexp prec emax (Zdigits2 (Z.pos m) + e) - e = k) as Hk.
  { unfold fexp, SpecFloat.emin, prec, emax. simpl Zdigits2. fold d. lia. }
  unfold shr_fexp at 1. rewrite Hk.
  destruct (shr_spec (shr_record_of_loc (Z.pos m) l) e k) as (r1 & -> & Hr1);
    [rewrite shr_record_of_loc_m; lia | lia |].
  rewrite shr_record_of_loc_m in Hr1. fold m1 in Hr1. rewrite Hr1.
  set (m2 := round_nearest_even m1 (loc_of_shr_record r1)).
  assert (m2 = m1 \/ m2 = m1 + 1) as Hm2 by apply round_nearest_even_cases.
  clearbody m2.
  assert (m2 < 2 ^ 53 \/ m2 = 2 ^ 53) as [Hsmall|Hcarry] by lia.
  - (* no carry *)
    destruct m2 as [|q|q]; try lia.
    assert (Z.pos (digits2_pos q) = 53) as Hq by (apply digits_unique; simpl (53 - 1); lia).
    unfold shr_fexp. simpl Zdigits2. rewrite Hq.
    assert (fexp prec emax (53 + (e + k)) - (e + k) = 0) as ->
      by (unfold fexp, SpecFloat.emin, prec, emax; lia).
    simpl shr. cbn [shr_m shr_record_of_loc].
    assert ((e + k <=? emax - prec) = true) as ->
      by (apply Z.leb_le; unfold prec, emax; lia).
    exists q, (e + k). split; [reflexivity|]. destruct Hm2; [left | right; left]; auto.
  - (* the successor is 2^53: one more shift *)
    subst m2. destruct Hm2 as [Hm2|Hm2]; [lia|].
    change (2 ^ 53) with (Z.pos (Pos.iter xO xH 53)).
    unfold shr_fexp. 
    assert (Zdigits2 (Z.pos (Pos.iter xO xH 53)) = 54) as -> by reflexivity.
    assert (fexp prec emax (54 + (e + k)) - (e + k) = 1) as ->
      by (unfold fexp, SpecFloat.emin, prec, emax; lia).
    simpl shr. cbv beta iota. cbn [shr_m].
    assert ((e + k + 1 <=? emax - prec) = true) as ->
      by (apply Z.leb_le; unfold prec, emax; lia).
    eexists _, (e + k + 1). split; [reflexivity|]. right; right.
    split; [symmetry; exact Hm2|]. split; reflexivity.
Qed.

(** ** Real values *)

#[local] Open Scope R_scope.

Definition pow2 (e : Z) : R := powerRZ 2 e.

(** The magnitude of a finite number; [0] for zeros (and for infinities
    and NaN, which the lemmas below exclude). *)
Definition mag (f : spec_float) : R :=
  match f with
  | S754_finite _ m e => IZR (Z.pos m) * pow2 e
  | _ => 0
  end.

Lemma pow2_pos (e : Z) : 0 < pow2 e.
Proof. apply powerRZ_lt. lra. Qed.

Lemma pow2_add (a b : Z) : pow2 (a + b) = pow2 a * pow2 b.
Proof. apply powerRZ_add. lra. Qed.

Lemma pow2_0 : pow2 0 = 1.
Proof. reflexivity. Qed.

Lemma pow2_IZR (n : Z) : (0 <= n)%Z -> IZR (2 ^ n) = pow2 n.
Proof.
  intros Hn. destruct n as [|p|p]; [reflexivity| |lia].
  exact (Zpower_pos_powerRZ 2 p).
Qed.

Lemma pow2_le (a b : Z) : (a <= b)%Z -> pow2 a <= pow2 b.
Proof.
  intros Hab. replace b with (a + (b - a))%Z by lia.
  rewrite pow2_add, <- (pow2_IZR (b - a)) by lia.
  assert (1 <= IZR (2 ^ (b - a))).
  { apply IZR_le. assert (0 < 2 ^ (b - a))%Z by (apply Z.pow_pos_nonneg; lia). lia. }
  pose proof (pow2_pos a). nra.
Qed.

Lemma pow2_lt (a b : Z) : (a < b)%Z -> pow2 a < pow2 b.
Proof.
  intros Hab. replace b with (a + (b - a))%Z by lia.
  rewrite pow2_add, <- (pow2_IZR (b - a)) by lia.
  assert (2 <= IZR (2 ^ (b - a))).
  { apply IZR_le. replace (b - a)%Z with (Z.succ (b - a - 1)) by lia.
    rewrite Z.pow_succ_r by lia.
    assert (0 < 2 ^ (b - a - 1))%Z by (apply Z.pow_pos_nonneg; lia). lia. }
  pose proof (pow2_pos a). nra.
Qed.

Lemma pow2_lt_inv (a b : Z) : pow2 a < pow2 b -> (a < b)%Z.
Proof.
  intros H. destruct (Z.lt_ge_cases a b) as [|Hge]; [assumption|].
  apply pow2_le in Hge. lra.
Qed.

Lemma pow2_le_inv (a b : Z) : pow2 a <= pow2 b -> (a <= b)%Z.
Proof.
  intros H. destruct (Z.le_gt_cases a b) as [|Hgt]; [assumption|].
  apply pow2_lt in Hgt. lra.
Qed.

(** The magnitude of a mantissa of [d] digits. *)
Lemma mantissa_bounds (m : positive) (e : Z) :
  let d := Z.pos (digits2_pos m) in
  pow2 (d + e - 1) <= IZR (Z.pos m) * pow2 e < pow2 (d + e).
Proof.
  intros d. pose proof (digits_spec m) as [Dlo Dhi]. fold d in Dlo, Dhi.
  assert (0 < d)%Z by (subst d; lia).
  apply IZR_le in Dlo. apply IZR_lt in Dhi.
  rewrite pow2_IZR in Dlo, Dhi by lia.
  replace (d + e - 1)%Z with ((d - 1) + e)%Z by lia.
  rewrite !pow2_add. pose proof (pow2_pos e). split; nra.
Qed.

(** Two non-negative reals within a factor [1 + 2^-52] of each other. *)
Definition eta : R := / 4503599627370496.

Definition close1 (a b : R) : Prop := a <= b * (1 + eta) /\ b <= a * (1 + eta).

Lemma eta_pos : 0 < eta.
Proof. unfold eta. lra. Qed.

Lemma close1_refl (a : R) : 0 <= a -> close1 a a.
Proof. pose proof eta_pos. intros Ha. split; nra. Qed.

(** The rounded value of a real that the mantissa brackets. *)
Lemma binary_round_aux_close (sx : bool) (m : positive) (e : Z) (l : location) (x : R) :
  let d := Z.pos (digits2_pos m) in
  (53 <= d)%Z -> (-1021 <= d + e)%Z -> (d + e <= 1023)%Z ->
  IZR (Z.pos m) * pow2 e <= x <= IZR (Z.pos m + 1) * pow2 e ->
  exists m' e',
    binary_round_aux prec emax sx (Z.pos m) e l = S754_finite sx m' e' /\
    close1 (IZR (Z.pos m') * pow2 e') x.
Proof.
  intros d Hd Hlo Hhi Hx.
  destruct (binary_round_aux_bracket sx m e l Hd Hlo Hhi) as (Hm1 & m' & e' & -> & Hcases).
  fold d in Hm1, Hcases. set (k := (d - 53)%Z) in *.
  set (m1 := (Z.pos m / 2 ^ k)%Z) in *.
  exists m', e'. split; [reflexivity|].
  assert (0 < 2 ^ k)%Z as Hpk by (apply Z.pow_pos_nonneg; lia).
  assert (m1 * 2 ^ k <= Z.pos m)%Z as Hdn.
  { subst m1. rewrite Z.mul_comm. apply Z.mul_div_le. lia. }
  assert (Z.pos m + 1 <= (m1 + 1) * 2 ^ k)%Z as Hup.
  { subst m1. pose proof (Z.mod_pos_bound (Z.pos m) (2 ^ k) Hpk).
    pose proof (Z.div_mod (Z.pos m) (2 ^ k)). nia. }
  apply IZR_le in Hdn, Hup. rewrite mult_IZR, pow2_IZR in Hdn, Hup by lia.
  set (u := pow2 (e + k)).
  assert (0 < u) as Hu by apply pow2_pos.
  assert (u = pow2 e * pow2 k) as Eu by apply pow2_add.
  pose proof (pow2_pos e) as He. pose proof (pow2_pos k) as Hk.
  assert (IZR m1 * u <= x) as Hlo'.
  { rewrite Eu. destruct Hx as [Hx _]. nra. }
  assert (x <= IZR (m1 + 1) * u) as Hhi'.
  { rewrite Eu. destruct Hx as [_ Hx]. nra. }
  assert (4503599627370496 <= IZR m1) as Hbig.
  { destruct Hm1 as [Hm1 _]. apply IZR_le in Hm1. exact Hm1. }
  rewrite plus_IZR in Hhi'.
  assert (IZR (Z.pos m') * pow2 e' = IZR m1 * u \/
          IZR (Z.pos m') * pow2 e' = (IZR m1 + 1) * u) as HV.
  { destruct Hcases as [[-> ->]|[[-> ->]|(Hc & -> & ->)]].
    - left. reflexivity.
    - right. rewrite plus_IZR. reflexivity.
    - right. replace (e + k + 1)%Z with (1 + (e + k))%Z by lia.
      rewrite pow2_add. fold u. apply (f_equal IZR) in Hc.
      rewrite plus_IZR in Hc. rewrite Hc.
      assert (pow2 1 = 2) as -> by (unfold pow2; simpl; lra).
      change (2 ^ 53)%Z with 9007199254740992%Z.
      change (2 ^ 52)%Z with 4503599627370496%Z. lra. }
  unfold close1, eta.
  assert (u <= IZR m1 * u * / 4503599627370496) as Hulp by nra.
  destruct HV as [-> | ->]; split; nra.
Qed.

(** ** The operations *)

Lemma iter_xO_value (m p : positive) :
  Z.pos (Pos.iter xO m p) = (Z.pos m * 2 ^ Z.pos p)%Z.
Proof.
  induction p as [|p IH] using Pos.peano_ind.
  - simpl. lia.
  - rewrite Pos.iter_succ, Pos2Z.inj_xO, IH, Pos2Z.inj_succ. rewrite Z.pow_succ_r by lia. ring.
Qed.

Lemma shl_align_value (m : positive) (e e' : Z) :
  (e' <= e)%Z ->
  snd (shl_align m e e') = e' /\
  Z.pos (fst (shl_align m e e')) = (Z.pos m * 2 ^ (e - e'))%Z.
Proof.
  intros He. unfold shl_align.
  destruct (e' - e)%Z as [|p|p] eqn:E; try lia.
  - assert (e' = e) as -> by lia. simpl. rewrite Z.sub_diag. simpl. lia.
  - simpl. rewrite iter_xO_value. split; [reflexivity|].
    replace (e - e')%Z with (Z.pos p) by lia. reflexivity.
Qed.

(** [binary_round] on a value in the normal range. *)
Lemma binary_round_close (s : bool) (m : positive) (e : Z) :
  let d := Z.pos (digits2_pos m) in
  (-1021 <= d + e)%Z -> (d + e <= 1023)%Z ->
  exists m' e',
    binary_round prec emax s m e = S754_finite s m' e' /\
    close1 (IZR (Z.pos m') * pow2 e') (IZR (Z.pos m) * pow2 e).
Proof.
  intros d Hlo Hhi. unfold binary_round.
  assert (fexp prec emax (Z.pos (digits2_pos m) + e) = d + e - 53)%Z as ->
    by (unfold fexp, SpecFloat.emin, prec, emax; fold d; lia).
  pose proof (pow2_pos e) as Hpe.
  destruct (Z.le_gt_cases 53 d) as [Hd|Hd].
  - (* enough digits: no alignment *)
    assert (shl_align m e (d + e - 53) = (m, e)) as ->.
    { unfold shl_align. destruct (d + e - 53 - e)%Z eqn:E; try reflexivity. lia. }
    apply binary_round_aux_close; try assumption.
    rewrite plus_IZR. split; [lra | nra].
  - (* fewer digits: the mantissa is shifted to 53 digits *)
    destruct (shl_align_value m e (d + e - 53)) as [He' Hm']; [lia|].
    destruct (shl_align m e (d + e - 53)) as [mz ez]. cbn [fst snd] in He', Hm'. subst ez.
    replace (e - (d + e - 53))%Z with (53 - d)%Z in Hm' by lia.
    assert (IZR (Z.pos mz) * pow2 (d + e - 53) = IZR (Z.pos m) * pow2 e) as Hval.
    { rewrite Hm', mult_IZR, pow2_IZR by lia.
      rewrite Rmult_assoc, <- pow2_add. do 2 f_equal. lia. }
    assert (Z.pos (digits2_pos mz) = 53%Z) as Hdz.
    { apply digits_unique. rewrite Hm'.
      pose proof (digits_spec m) as [Dlo Dhi]. fold d in Dlo, Dhi.
      assert (0 < d)%Z by (subst d; lia).
      assert (2 ^ (53 - 1) = 2 ^ (d - 1) * 2 ^ (53 - d))%Z as ->
        by (rewrite <- Z.pow_add_r by lia; f_equal; lia).
      assert (2 ^ 53 = 2 ^ d * 2 ^ (53 - d))%Z as ->
        by (rewrite <- Z.pow_add_r by lia; f_equal; lia).
      assert (0 < 2 ^ (53 - d))%Z by (apply Z.pow_pos_nonneg; lia). nia. }
    rewrite <- Hval.
    apply binary_round_aux_close; rewrite ?Hdz; try lia.
    rewrite plus_IZR. pose proof (pow2_pos (d + e - 53)). split; [lra | nra].
Qed.

(** Multiplication of two normal numbers. *)
Lemma SFmul_close (sa : bool) (ma : positive) (ea : Z) (sb : bool) (mb : positive) (eb : Z) :
  let X := (IZR (Z.pos ma) * pow2 ea) * (IZR (Z.pos mb) * pow2 eb) in
  Z.pos (digits2_pos ma) = 53%Z -> Z.pos (digits2_pos mb) = 53%Z ->
  pow2 (-1021) <= X -> X <= pow2 1022 ->
  exists m' e',
    SFmul prec emax (S754_finite sa ma ea) (S754_finite sb mb eb)
    = S754_finite (xorb sa sb) m' e' /\
    close1 (IZR (Z.pos m') * pow2 e') X.
Proof.
  intros X Hda Hdb Hlo Hhi. simpl SFmul.
  assert (X = IZR (Z.pos (ma * mb)) * pow2 (ea + eb)) as HX.
  { subst X. rewrite Pos2Z.inj_mul, mult_IZR, pow2_add. ring. }
  pose proof (mantissa_bounds (ma * mb) (ea + eb)) as Hb. cbv zeta in Hb.
  rewrite <- HX in Hb.
  set (d := Z.pos (digits2_pos (ma * mb))) in *.
  assert (53 <= d)%Z.
  { pose proof (digits_spec ma) as [La _]. pose proof (digits_spec mb) as [Lb _].
    rewrite Hda in La. rewrite Hdb in Lb.
    pose proof (digits_spec (ma * mb)) as [_ U]. fold d in U.
    rewrite Pos2Z.inj_mul in U.
    assert (2 ^ 104 < 2 ^ d)%Z as Hp.
    { change (2 ^ 104)%Z with (2 ^ (53 - 1) * 2 ^ (53 - 1))%Z. nia. }
    destruct (Z.le_gt_cases 53 d); [assumption|].
    assert (2 ^ d <= 2 ^ 104)%Z by (apply Z.pow_le_mono_r; lia). lia. }
  assert (-1021 < d + (ea + eb))%Z by (apply pow2_lt_inv; lra).
  assert (d + (ea + eb) - 1 <= 1022)%Z by (apply pow2_le_inv; lra).
  rewrite HX. apply binary_round_aux_close; try lia.
  rewrite plus_IZR. pose proof (pow2_pos (ea + eb)). split; [lra | nra].
Qed.

(** Addition of two positive numbers. *)
Lemma SFadd_close (ma : positive) (ea : Z) (mb : positive) (eb : Z) :
  let X := IZR (Z.pos ma) * pow2 ea + IZR (Z.pos mb) * pow2 eb in
  pow2 (-1021) <= X -> X <= pow2 1022 ->
  exists m' e',
    SFadd prec emax (S754_finite false ma ea) (S754_finite false mb eb)
    = S754_finite false m' e' /\
    close1 (IZR (Z.pos m') * pow2 e') X.
Proof.
  intros X Hlo Hhi. cbn [SFadd cond_Zopp].
  set (ez := Z.min ea eb).
  destruct (shl_align_value ma ea ez) as [_ Ha]; [subst ez; lia|].
  destruct (shl_align_value mb eb ez) as [_ Hb]; [subst ez; lia|].
  set (ma' := fst (shl_align ma ea ez)) in *.
  set (mb' := fst (shl_align mb eb ez)) in *.
  change (Z.pos ma' + Z.pos mb')%Z with (Z.pos (ma' + mb')).
  cbn [binary_normalize].
  assert (X = IZR (Z.pos (ma' + mb')) * pow2 ez) as HX.
  { subst X. rewrite Pos2Z.inj_add, plus_IZR, Ha, Hb, !mult_IZR.
    rewrite !pow2_IZR by (subst ez; lia).
    rewrite Rmult_plus_distr_r, !Rmult_assoc, <- !pow2_add.
    do 2 f_equal; f_equal; lia. }
  pose proof (mantissa_bounds (ma' + mb') ez) as Hbd. cbv zeta in Hbd.
  rewrite <- HX in Hbd.
  rewrite HX. apply binary_round_close.
  - assert (-1021 < Z.pos (digits2_pos (ma' + mb')) + ez)%Z
      by (apply pow2_lt_inv; lra). lia.
  - assert (Z.pos (digits2_pos (ma' + mb')) + ez - 1 <= 1022)%Z
      by (apply pow2_le_inv; lra). lia.
Qed.

(** Division of two normal numbers. *)
Lemma SFdiv_close (sa : bool) (ma : positive) (ea : Z) (sb : bool) (mb : positive) (eb : Z) :
  let X := (IZR (Z.pos ma) * pow2 ea) / (IZR (Z.pos mb) * pow2 eb) in
  Z.pos (digits2_pos ma) = 53%Z -> Z.pos (digits2_pos mb) = 53%Z ->
  pow2 (-1021) <= X -> X <= pow2 1022 ->
  exists m' e',
    SFdiv prec emax (S754_finite sa ma ea) (S754_finite sb mb eb)
    = S754_finite (xorb sa sb) m' e' /\
    close1 (IZR (Z.pos m') * pow2 e') X.
Proof.
  intros X Hda Hdb Hlo Hhi.
  pose proof (digits_spec ma) as [La Ua]. pose proof (digits_spec mb) as [Lb Ub].
  rewrite Hda in La, Ua. rewrite Hdb in Lb, Ub.
  change (2 ^ (53 - 1))%Z with 4503599627370496%Z in La, Lb.
  change (2 ^ 53)%Z with 9007199254740992%Z in Ua, Ub.
  pose proof (pow2_pos ea) as Hpa. pose proof (pow2_pos eb) as Hpb.
  assert (0 < IZR (Z.pos ma)) as Pa by (apply IZR_lt; lia).
  assert (0 < IZR (Z.pos mb)) as Pb by (apply IZR_lt; lia).
  (* the quotient of the mantissas, scaled *)
  assert (X = IZR (Z.pos ma) / IZR (Z.pos mb) * pow2 (ea - eb)) as HX.
  { subst X. replace ea with ((ea - eb) + eb)%Z at 1 by lia.
    rewrite pow2_add. field. lra. }
  assert (IZR (Z.pos ma) / IZR (Z.pos mb) < 2) as Hq2.
  { apply IZR_le in Lb. apply IZR_lt in Ua.
    apply Rmult_lt_reg_r with (IZR (Z.pos mb)); [assumption|].
    unfold Rdiv. rewrite Rmult_assoc, Rinv_l by lra. lra. }
  assert (-1021 <= ea - eb)%Z as Hexp.
  { assert (pow2 (-1021) < pow2 (ea - eb + 1)) as H.
    { rewrite pow2_add. assert (pow2 1 = 2) as -> by (unfold pow2; simpl; lra).
      pose proof (pow2_pos (ea - eb)). nra. }
    apply pow2_lt_inv in H. lia. }
  simpl SFdiv. unfold SFdiv_core_binary. simpl Zdigits2. rewrite Hda, Hdb.
  assert (Z.min (fexp prec emax (53 + ea - (53 + eb))) (ea - eb) = ea - eb - 53)%Z as ->
    by (unfold fexp, SpecFloat.emin, prec, emax; lia).
  replace (ea - eb - (ea - eb - 53))%Z with 53%Z by lia.
  cbv beta iota.
  rewrite Z.shiftl_mul_pow2 by lia.
  set (m' := (Z.pos ma * 2 ^ 53)%Z).
  pose proof (Z.div_mod m' (Z.pos mb) ltac:(lia)) as Hdm.
  pose proof (Z.mod_pos_bound m' (Z.pos mb) ltac:(lia)) as Hmod.
  unfold Z.div, Z.modulo in Hdm, Hmod.
  destruct (Z.div_eucl m' (Z.pos mb)) as [q r]. cbn [fst snd] in Hdm, Hmod.
  change (2 ^ 53)%Z with 9007199254740992%Z in m'.
  assert (4503599627370496 <= q)%Z as Hqlo by (subst m'; nia).
  destruct q as [|q|q]; try lia.
  set (e' := (ea - eb - 53)%Z).
  (* the real quotient lies between q and q + 1 *)
  assert (X = IZR m' / IZR (Z.pos mb) * pow2 e') as HX'.
  { rewrite HX. subst m' e'. rewrite mult_IZR.
    replace (ea - eb)%Z with (53 + (ea - eb - 53))%Z at 1 by lia.
    rewrite pow2_add, <- (pow2_IZR 53) by lia.
    change (2 ^ 53)%Z with 9007199254740992%Z. field. lra. }
  assert (IZR (Z.pos q) <= IZR m' / IZR (Z.pos mb) <= IZR (Z.pos q + 1)) as Hbr.
  { assert (IZR m' = IZR (Z.pos mb) * IZR (Z.pos q) + IZR r) as Em
      by (rewrite <- mult_IZR, <- plus_IZR; f_equal; exact Hdm).
    assert (0 <= IZR r < IZR (Z.pos mb)) as [Hr0 Hr1]
      by (split; [apply IZR_le | apply IZR_lt]; lia).
    rewrite plus_IZR. split.
    - apply Rmult_le_reg_r with (IZR (Z.pos mb)); [assumption|].
      unfold Rdiv. rewrite Rmult_assoc, Rinv_l by lra. nra.
    - apply Rmult_le_reg_r with (IZR (Z.pos mb)); [assumption|].
      unfold Rdiv. rewrite Rmult_assoc, Rinv_l by lra. nra. }
  pose proof (pow2_pos e') as Hpe'.
  assert (IZR (Z.pos q) * pow2 e' <= X <= IZR (Z.pos q + 1) * pow2 e') as Hx.
  { rewrite HX'. destruct Hbr as [B1 B2]. split; nra. }
  pose proof (mantissa_bounds q e') as Hmb. cbv zeta in Hmb.
  pose proof (digits_spec q) as [Lq Uq].
  set (dq := Z.pos (digits2_pos q)) in *.
  assert (53 <= dq)%Z.
  { destruct (Z.le_gt_cases 53 dq); [assumption|].
    assert (2 ^ dq <= 2 ^ 52)%Z by (apply Z.pow_le_mono_r; lia).
    change (2 ^ 52)%Z with 4503599627370496%Z in *. lia. }
  assert (dq + e' - 1 <= 1022)%Z.
  { apply pow2_le_inv. destruct Hmb as [Hmb _]. destruct Hx as [Hx _]. lra. }
  apply binary_round_aux_close; try assumption; fold dq; subst e'; lia.
Qed.

(** The square root of a normal number. *)
Lemma SFsqrt_close (m : positive) (e : Z) :
  let X := R_sqrt.sqrt (IZR (Z.pos m) * pow2 e) in
  Z.pos (digits2_pos m) = 53%Z -> (-1074 <= e)%Z -> (e <= 971)%Z ->
  exists m' e',
    SFsqrt prec emax (S754_finite false m e) = S754_finite false m' e' /\
    close1 (IZR (Z.pos m') * pow2 e') X.
Proof.
  intros X Hd He1 He2.
  pose proof (digits_spec m) as [Lm Um]. rewrite Hd in Lm, Um.
  change (2 ^ (53 - 1))%Z with 4503599627370496%Z in Lm.
  change (2 ^ 53)%Z with 9007199254740992%Z in Um.
  simpl SFsqrt. unfold SFsqrt_core_binary. simpl Zdigits2. rewrite Hd.
  rewrite !Z.div2_div.
  set (h := (e / 2)%Z).
  assert ((53 + e + 1) / 2 = h + 27)%Z as ->
    by (subst h; Z.div_mod_to_equations; lia).
  assert (2 * h <= e <= 2 * h + 1)%Z as Hh by (subst h; Z.div_mod_to_equations; lia).
  clearbody h.
  assert (Z.min (fexp prec emax (h + 27)) h = h - 26)%Z as ->
    by (unfold fexp, SpecFloat.emin, prec, emax; lia).
  set (s := (e - 2 * (h - 26))%Z).
  assert (s = 52 \/ s = 53)%Z as Hs by (subst s; lia).
  assert (match s with Z.pos _ => Z.shiftl (Z.pos m) s | 0%Z => Z.pos m | Z.neg _ => 0%Z end
          = Z.pos m * 2 ^ s)%Z as ->.
  { destruct Hs as [Hs|Hs]; rewrite Hs; cbv iota;
      rewrite Z.shiftl_mul_pow2 by lia; reflexivity. }
  set (m' := (Z.pos m * 2 ^ s)%Z).
  assert (4503599627370496 * 4503599627370496 <= m'
          < 9007199254740992 * 9007199254740992)%Z as Hm'.
  { subst m'. destruct Hs as [Hs|Hs]; rewrite Hs.
    - change (2 ^ 52)%Z with 4503599627370496%Z. lia.
    - change (2 ^ 53)%Z with 9007199254740992%Z. lia. }
  pose proof (Z.sqrtrem_spec m' ltac:(lia)) as Hsq.
  destruct (Z.sqrtrem m') as [q r].
  destruct Hsq as [Eq Hr].
  assert (4503599627370496 <= q < 9007199254740992)%Z as Hq by nia.
  destruct q as [|q|q]; try lia.
  set (e' := (h - 26)%Z).
  assert (Z.pos (digits2_pos q) = 53%Z) as Hdq.
  { apply digits_unique. change (2 ^ (53 - 1))%Z with 4503599627370496%Z.
    change (2 ^ 53)%Z with 9007199254740992%Z. lia. }
  (* the real square root lies between q and q + 1 *)
  pose proof (pow2_pos e') as Hpe'.
  assert (IZR (Z.pos m) * pow2 e = IZR m' * (pow2 e' * pow2 e')) as HX.
  { subst m'. rewrite mult_IZR, pow2_IZR by lia.
    rewrite <- !pow2_add, Rmult_assoc, <- pow2_add. do 2 f_equal. subst s e'. lia. }
  assert (X = R_sqrt.sqrt (IZR m') * pow2 e') as HX'.
  { subst X. rewrite HX, sqrt_mult_alt by (apply IZR_le; lia).
    f_equal. apply sqrt_square. lra. }
  assert (IZR (Z.pos q) <= R_sqrt.sqrt (IZR m') <= IZR (Z.pos q + 1)) as Hbr.
  { split.
    - rewrite <- (sqrt_square (IZR (Z.pos q))) by (apply IZR_le; lia).
      apply sqrt_le_1_alt. rewrite <- mult_IZR. apply IZR_le. lia.
    - rewrite <- (sqrt_square (IZR (Z.pos q + 1))) by (apply IZR_le; lia).
      apply sqrt_le_1_alt. rewrite <- mult_IZR. apply IZR_le. lia. }
  cbv beta iota.
  apply binary_round_aux_close; rewrite ?Hdq; try (subst e'; lia).
  rewrite HX'. destruct Hbr. split; nra.
Qed.

(** Addition of two numbers of any signs whose exponents are at least
    [-201]: the result is a zero or lies in a normal range. *)
Lemma SFadd_range (sa : bool) (ma : positive) (ea : Z) (sb : bool) (mb : positive) (eb : Z) :
  (-201 <= ea)%Z -> (-201 <= eb)%Z ->
  IZR (Z.pos ma) * pow2 ea + IZR (Z.pos mb) * pow2 eb <= pow2 129 ->
  match SFadd prec emax (S754_finite sa ma ea) (S754_finite sb mb eb) with
  | S754_zero _ => True
  | S754_finite _ m' e' => pow2 (-202) <= IZR (Z.pos m') * pow2 e' <= pow2 130
  | _ => False
  end.
Proof.
  intros Ha Hb Hsum. cbn [SFadd].
  set (ez := Z.min ea eb).
  destruct (shl_align_value ma ea ez) as [_ Ea]; [subst ez; lia|].
  destruct (shl_align_value mb eb ez) as [_ Eb]; [subst ez; lia|].
  set (ma' := fst (shl_align ma ea ez)) in *.
  set (mb' := fst (shl_align mb eb ez)) in *.
  assert (IZR (Z.pos ma' + Z.pos mb') * pow2 ez
          = IZR (Z.pos ma) * pow2 ea + IZR (Z.pos mb) * pow2 eb) as HX.
  { rewrite plus_IZR, Ea, Eb, !mult_IZR.
    rewrite !pow2_IZR by (subst ez; lia).
    rewrite Rmult_plus_distr_r, !Rmult_assoc, <- !pow2_add.
    do 2 f_equal; f_equal; lia. }
  set (M := (cond_Zopp sa (Z.pos ma') + cond_Zopp sb (Z.pos mb'))%Z).
  assert (Z.abs M <= Z.pos ma' + Z.pos mb')%Z as HM
    by (subst M; destruct sa, sb; simpl cond_Zopp; lia).
  pose proof (pow2_pos ez) as Hpz.
  assert (forall (s : bool) (p : positive), Z.pos p = Z.abs M ->
            match binary_round prec emax s p ez with
            | S754_zero _ => True
            | S754_finite _ m' e' => pow2 (-202) <= IZR (Z.pos m') * pow2 e' <= pow2 130
            | _ => False
            end) as Hround.
  { intros s p Hp.
    assert (pow2 (-201) <= IZR (Z.pos p) * pow2 ez) as Hlo.
    { apply Rle_trans with (1 * pow2 ez).
      - rewrite Rmult_1_l. apply pow2_le. subst ez. lia.
      - apply Rmult_le_compat_r; [lra|]. apply IZR_le. lia. }
    assert (IZR (Z.pos p) * pow2 ez <= pow2 129) as Hhi.
    { rewrite Hp. apply Rle_trans with (IZR (Z.pos ma' + Z.pos mb') * pow2 ez); [|lra].
      apply Rmult_le_compat_r; [lra|]. apply IZR_le. exact HM. }
    pose proof (mantissa_bounds p ez) as Hmb. cbv zeta in Hmb.
    destruct (binary_round_close s p ez) as (m' & e' & -> & [C1 C2]).
    - assert (-201 < Z.pos (digits2_pos p) + ez)%Z by (apply pow2_lt_inv; lra). lia.
    - assert (Z.pos (digits2_pos p) + ez - 1 <= 129)%Z by (apply pow2_le_inv; lra). lia.
    - assert (pow2 (-201) = 2 * pow2 (-202)) as E1.
      { replace (-201)%Z with (1 + -202)%Z by lia. rewrite pow2_add.
        f_equal. unfold pow2; simpl; lra. }
      assert (pow2 130 = 2 * pow2 129) as E2.
      { replace 130%Z with (1 + 129)%Z by lia. rewrite pow2_add.
        f_equal. unfold pow2; simpl; lra. }
      pose proof eta_pos. assert (eta <= 1) by (unfold eta; lra).
      pose proof (pow2_pos (-202)). pose proof (pow2_pos 129).
      pose proof (pow2_pos e').
      assert (0 < IZR (Z.pos m')) by (apply IZR_lt; lia).
      split; nra. }
  destruct M as [|p|p] eqn:EM; cbn [binary_normalize].
  - exact I.
  - apply Hround. reflexivity.
  - apply Hround. reflexivity.
Qed.

End RoundFacts.

(* ===================================================================== *)
(** * The real values of binary64 numbers *)
(* ===================================================================== *)

Module Real64.

Import RoundFacts.
#[local] Open Scope R_scope.

(** The real number a binary64 value stands for; [0] for the zeros (and
    for the infinities and NaN, which have no real value). *)
Definition value (x : float) : R :=
  match Prim2SF x with
  | S754_finite s m e => (if s then -1 else 1) * (IZR (Z.pos m) * pow2 e)
  | _ => 0
  end.

(** Its magnitude. *)
Definition V (x : float) : R := mag (Prim2SF x).

(** A zero or a finite number. *)
Definition Finite (x : float) : Prop :=
  match Prim2SF x with
  | S754_zero _ | S754_finite _ _ _ => True
  | _ => False
  end.

(** A zero or a positive finite number. *)
Definition NonNeg (x : float) : Prop :=
  match Prim2SF x with
  | S754_zero _ | S754_finite false _ _ => True
  | _ => False
  end.

(** The exact sum of the squares of the entries of a vector, and its
    exact Euclidean norm. *)
Definition sum_squares_exact (v : list float) : R :=
  List.fold_right (fun x acc => value x * value x + acc) 0 v.

Definition norm_exact (v : list float) : R := R_sqrt.sqrt (sum_squares_exact v).

(** The range of the finite binary32 numbers, which the recognizer's
    float32 output tensor holds: a zero, or a finite number of magnitude at
    least [2^-149] and below [2^128]. *)
Definition float32_range (x : float) : bool :=
  match Prim2SF x with
  | S754_zero _ => true
  | S754_finite _ m e =>
      (-148 <=? Z.pos (digits2_pos m) + e)%Z && (Z.pos (digits2_pos m) + e <=? 128)%Z
  | _ => false
  end.

Lemma V_nonneg (x : float) : 0 <= V x.
Proof.
  unfold V, mag. destruct (Prim2SF x) as [| | |s m e]; try lra.
  pose proof (pow2_pos e). assert (0 < IZR (Z.pos m)) by (apply IZR_lt; lia). nra.
Qed.

Lemma value_sqr (x : float) : value x * value x = V x * V x.
Proof.
  unfold value, V, mag. destruct (Prim2SF x) as [| | |[] m e]; ring.
Qed.

Lemma value_nonneg (x : float) : NonNeg x -> value x = V x.
Proof.
  unfold NonNeg, value, V, mag. destruct (Prim2SF x) as [| | |[] m e]; intros H;
    try contradiction; ring.
Qed.

Lemma NonNeg_Finite (x : float) : NonNeg x -> Finite x.
Proof. unfold NonNeg, Finite. destruct (Prim2SF x) as [| | |[] m e]; auto. Qed.

Lemma V_pos_finite (x : float) :
  0 < V x -> exists s m e, Prim2SF x = S754_finite s m e.
Proof.
  unfold V, mag. destruct (Prim2SF x) as [| | |s m e]; try lra. eauto.
Qed.

Lemma Finite_zero (x : float) : Finite x -> V x = 0 -> exists s, Prim2SF x = S754_zero s.
Proof.
  unfold Finite, V, mag. destruct (Prim2SF x) as [s| | |s m e]; try contradiction; eauto.
  intros _ H. pose proof (pow2_pos e).
  assert (0 < IZR (Z.pos m)) by (apply IZR_lt; lia). nra.
Qed.

(** A number of magnitude at least [2^-1022] is normal: its mantissa has
    53 digits. *)
Lemma normal_digits (x : float) (s : bool) (m : positive) (e : Z) :
  Prim2SF x = S754_finite s m e ->
  (-1074 <= e <= 971)%Z /\
  (pow2 (-1022) <= IZR (Z.pos m) * pow2 e -> Z.pos (digits2_pos m) = 53%Z).
Proof.
  intros Hx. pose proof (FloatAxioms.Prim2SF_valid x) as Hv. rewrite Hx in Hv.
  unfold valid_binary, bounded, canonical_mantissa in Hv.
  apply andb_prop in Hv as [Hc Hb]. apply Z.eqb_eq in Hc. apply Z.leb_le in Hb.
  unfold fexp, SpecFloat.emin, prec, emax in Hc, Hb.
  split; [lia|]. intros Hn.
  pose proof (mantissa_bounds m e) as [_ Hm]. cbv zeta in Hm.
  assert (-1022 < Z.pos (digits2_pos m) + e)%Z by (apply pow2_lt_inv; lra).
  lia.
Qed.

(** The product of two normal numbers. *)
Lemma mul_close (a b : float) :
  pow2 (-1022) <= V a -> pow2 (-1022) <= V b ->
  pow2 (-1021) <= V a * V b -> V a * V b <= pow2 1022 ->
  close1 (V (a * b)) (V a * V b) /\
  (NonNeg a -> NonNeg b -> NonNeg (a * b)) /\
  (a = b -> NonNeg (a * b)).
Proof.
  intros Ha Hb Hlo Hhi. pose proof (pow2_pos (-1022)) as Hp.
  destruct (V_pos_finite a ltac:(lra)) as (sa & ma & ea & Ea).
  destruct (V_pos_finite b ltac:(lra)) as (sb & mb & eb & Eb).
  unfold V in *. unfold NonNeg.
  rewrite FloatAxioms.mul_spec. unfold SF64mul. rewrite Ea, Eb in *. 
  cbn [mag] in *.
  destruct (normal_digits a sa ma ea Ea) as [_ Da].
  destruct (normal_digits b sb mb eb Eb) as [_ Db].
  destruct (SFmul_close sa ma ea sb mb eb (Da Ha) (Db Hb) Hlo Hhi)
    as (m' & e' & -> & Hc).
  split; [exact Hc|]. split.
  - destruct sa, sb; simpl; tauto.
  - intros ->. rewrite Ea in Eb. injection Eb as -> _ _. destruct sb; exact I.
Qed.

(** A product with a zero factor. *)
Lemma mul_zero (a b : float) :
  Finite a -> Finite b -> V a = 0 \/ V b = 0 ->
  Finite (a * b) /\ V (a * b) = 0.
Proof.
  intros Fa Fb Hz. unfold Finite, V in *.
  rewrite FloatAxioms.mul_spec. unfold SF64mul.
  destruct (Prim2SF a) as [sa|sa| |sa ma ea], (Prim2SF b) as [sb|sb| |sb mb eb];
    try contradiction; cbn [SFmul mag]; auto.
  exfalso. cbn [mag] in Hz. pose proof (pow2_pos ea). pose proof (pow2_pos eb).
  assert (0 < IZR (Z.pos ma)) by (apply IZR_lt; lia).
  assert (0 < IZR (Z.pos mb)) by (apply IZR_lt; lia).
  destruct Hz; nra.
Qed.

Lemma mul_zero_nonneg (a : float) : Finite a -> V a = 0 -> NonNeg (a * a).
Proof.
  intros Fa Hz. destruct (Finite_zero a Fa Hz) as [s Es].
  unfold NonNeg. rewrite FloatAxioms.mul_spec. unfold SF64mul. rewrite Es.
  exact I.
Qed.

(** The sum of two numbers that are not negative. *)
Lemma add_close (a b : float) :
  NonNeg a -> NonNeg b ->
  V a + V b = 0 \/ pow2 (-1021) <= V a + V b ->
  V a + V b <= pow2 1022 ->
  NonNeg (a + b) /\ close1 (V (a + b)) (V a + V b).
Proof.
  intros Na Nb Hlo Hhi. unfold NonNeg, V in *.
  rewrite FloatAxioms.add_spec. unfold SF64add.
  destruct (Prim2SF a) as [sa|sa| |[] ma ea], (Prim2SF b) as [sb|sb| |[] mb eb];
    try contradiction; cbn [mag] in *.
  - destruct sa, sb; cbn [SFadd mag]; (split; [exact I|]);
      rewrite Rplus_0_r; apply close1_refl; lra.
  - cbn [SFadd mag]. split; [exact I|]. rewrite Rplus_0_l. apply close1_refl.
    pose proof (pow2_pos eb). assert (0 < IZR (Z.pos mb)) by (apply IZR_lt; lia). nra.
  - cbn [SFadd mag]. split; [exact I|]. rewrite Rplus_0_r. apply close1_refl.
    pose proof (pow2_pos ea). assert (0 < IZR (Z.pos ma)) by (apply IZR_lt; lia). nra.
  - destruct Hlo as [Hz|Hlo].
    { exfalso. pose proof (pow2_pos ea). pose proof (pow2_pos eb).
      assert (0 < IZR (Z.pos ma)) by (apply IZR_lt; lia).
      assert (0 < IZR (Z.pos mb)) by (apply IZR_lt; lia). nra. }
    destruct (SFadd_close ma ea mb eb Hlo Hhi) as (m' & e' & -> & Hc).
    split; [exact I | exact Hc].
Qed.

(** The quotient of two normal numbers, and of a zero by a number. *)
Lemma div_close (a b : float) :
  pow2 (-1022) <= V a -> pow2 (-1022) <= V b ->
  pow2 (-1021) <= V a / V b -> V a / V b <= pow2 1022 ->
  close1 (V (a / b)) (V a / V b).
Proof.
  intros Ha Hb Hlo Hhi. pose proof (pow2_pos (-1022)) as Hp.
  destruct (V_pos_finite a ltac:(lra)) as (sa & ma & ea & Ea).
  destruct (V_pos_finite b ltac:(lra)) as (sb & mb & eb & Eb).
  unfold V in *. rewrite FloatAxioms.div_spec. unfold SF64div.
  rewrite Ea, Eb in *. cbn [mag] in *.
  destruct (normal_digits a sa ma ea Ea) as [_ Da].
  destruct (normal_digits b sb mb eb Eb) as [_ Db].
  destruct (SFdiv_close sa ma ea sb mb eb (Da Ha) (Db Hb) Hlo Hhi)
    as (m' & e' & -> & Hc).
  exact Hc.
Qed.

Lemma div_zero (a b : float) :
  Finite a -> V a = 0 -> 0 < V b -> Finite (a / b) /\ V (a / b) = 0.
Proof.
  intros Fa Hz Hb. destruct (Finite_zero a Fa Hz) as [s Es].
  destruct (V_pos_finite b Hb) as (sb & mb & eb & Eb).
  unfold Finite, V. rewrite FloatAxioms.div_spec. unfold SF64div. rewrite Es, Eb.
  cbn [SFdiv mag]. auto.
Qed.

(** The square root of a normal number. *)
Lemma sqrt_close (a : float) :
  NonNeg a -> pow2 (-1022) <= V a ->
  NonNeg (PrimFloat.sqrt a) /\ close1 (V (PrimFloat.sqrt a)) (R_sqrt.sqrt (V a)).
Proof.
  intros Na Ha. pose proof (pow2_pos (-1022)) as Hp.
  destruct (V_pos_finite a ltac:(lra)) as (sa & ma & ea & Ea).
  unfold NonNeg, V in *. rewrite FloatAxioms.sqrt_spec. unfold SF64sqrt.
  rewrite Ea in *. destruct sa; [contradiction|]. cbn [mag] in *.
  destruct (normal_digits a false ma ea Ea) as [He Da].
  destruct (SFsqrt_close ma ea (Da Ha) (proj1 He) (proj2 He)) as (m' & e' & -> & Hc).
  split; [exact I | exact Hc].
Qed.

End Real64.

(* ===================================================================== *)
(** * Rounding errors of the normalization *)
(* ===================================================================== *)

Module NormFacts.

Import RoundFacts Real64.
#[local] Open Scope R_scope.

(** ** Accumulated rounding errors *)

Definition G : R := 1 + eta.

(** Two non-negative reals within a factor [(1 + 2^-52)^j] of each other. *)
Definition closeN (j : nat) (a b : R) : Prop := a <= b * G ^ j /\ b <= a * G ^ j.

Lemma G_gt_1 : 1 < G.
Proof. unfold G. pose proof eta_pos. lra. Qed.

Lemma G_pow_ge_1 (j : nat) : 1 <= G ^ j.
Proof. apply pow_R1_Rle. pose proof G_gt_1. lra. Qed.

Lemma G_pow_mono (i j : nat) : (i <= j)%nat -> G ^ i <= G ^ j.
Proof. intros Hij. apply Rle_pow; [pose proof G_gt_1; lra | exact Hij]. Qed.

Lemma close1_closeN (a b : R) : close1 a b <-> closeN 1 a b.
Proof. unfold close1, closeN, G. rewrite pow_1. tauto. Qed.

Lemma closeN_refl (j : nat) (a : R) : 0 <= a -> closeN j a a.
Proof. intros Ha. pose proof (G_pow_ge_1 j). split; nra. Qed.

Lemma closeN_mono (i j : nat) (a b : R) :
  (i <= j)%nat -> 0 <= a -> 0 <= b -> closeN i a b -> closeN j a b.
Proof.
  intros Hij Ha Hb [H1 H2]. pose proof (G_pow_mono i j Hij).
  pose proof (G_pow_ge_1 i). split; nra.
Qed.

Lemma closeN_trans (i j : nat) (a b c : R) :
  0 <= a -> 0 <= b -> 0 <= c ->
  closeN i a b -> closeN j b c -> closeN (i + j) a c.
Proof.
  intros Ha Hb Hc [H1 H2] [H3 H4]. unfold closeN. rewrite pow_add.
  pose proof (G_pow_ge_1 i). pose proof (G_pow_ge_1 j). split; nra.
Qed.

Lemma closeN_add (j : nat) (a b c d : R) :
  closeN j a b -> closeN j c d -> closeN j (a + c) (b + d).
Proof. intros [H1 H2] [H3 H4]. split; nra. Qed.

Lemma closeN_mul (i j : nat) (a b c d : R) :
  0 <= a -> 0 <= b -> 0 <= c -> 0 <= d ->
  closeN i a b -> closeN j c d -> closeN (i + j) (a * c) (b * d).
Proof.
  intros Ha Hb Hc Hd [H1 H2] [H3 H4]. unfold closeN. rewrite pow_add.
  pose proof (G_pow_ge_1 i). pose proof (G_pow_ge_1 j). split.
  - apply Rle_trans with ((b * G ^ i) * (d * G ^ j)); [|nra].
    apply Rmult_le_compat; assumption.
  - apply Rle_trans with ((a * G ^ i) * (c * G ^ j)); [|nra].
    apply Rmult_le_compat; assumption.
Qed.

Lemma closeN_div (i j : nat) (a b c d : R) :
  0 <= a -> 0 <= b -> 0 < c -> 0 < d ->
  closeN i a b -> closeN j c d -> closeN (i + j) (a / c) (b / d).
Proof.
  intros Ha Hb Hc Hd [H1 H2] [H3 H4]. unfold closeN. rewrite pow_add.
  pose proof (G_pow_ge_1 i) as Gi. pose proof (G_pow_ge_1 j) as Gj. split.
  - apply Rmult_le_reg_r with (c * d); [nra|].
    replace (a / c * (c * d)) with (a * d) by (field; lra).
    replace (b / d * (G ^ i * G ^ j) * (c * d)) with ((b * G ^ i) * (c * G ^ j))
      by (field; lra).
    apply Rmult_le_compat; try assumption; lra.
  - apply Rmult_le_reg_r with (c * d); [nra|].
    replace (b / d * (c * d)) with (b * c) by (field; lra).
    replace (a / c * (G ^ i * G ^ j) * (c * d)) with ((a * G ^ i) * (d * G ^ j))
      by (field; lra).
    apply Rmult_le_compat; try assumption; lra.
Qed.

Lemma closeN_sqrt (j : nat) (a b : R) :
  0 <= a -> 0 <= b -> closeN j a b -> closeN j (R_sqrt.sqrt a) (R_sqrt.sqrt b).
Proof.
  intros Ha Hb [H1 H2]. pose proof (G_pow_ge_1 j) as Gj.
  assert (forall x y, 0 <= x -> 0 <= y -> x <= y * G ^ j ->
            R_sqrt.sqrt x <= R_sqrt.sqrt y * G ^ j) as Hs.
  { intros x y Hx Hy Hxy.
    apply Rle_trans with (R_sqrt.sqrt (y * (G ^ j * G ^ j))).
    - apply sqrt_le_1_alt. nra.
    - rewrite sqrt_mult_alt by assumption. rewrite sqrt_square by lra. lra. }
  split; apply Hs; assumption.
Qed.

(** [(1 + eta)^j] stays below [1 / (1 - j * eta)]. *)
Lemma G_pow_bound (j : nat) : INR j * eta < 1 -> G ^ j * (1 - INR j * eta) <= 1.
Proof.
  induction j as [|j IH]; intros Hj.
  - simpl. lra.
  - rewrite S_INR in *. pose proof eta_pos as He. pose proof (pos_INR j) as Hp.
    assert (INR j * eta < 1) as Hj' by nra.
    specialize (IH Hj'). pose proof (G_pow_ge_1 j) as Gj.
    simpl pow. unfold G at 1.
    apply Rle_trans with (G ^ j * (1 - INR j * eta)); [|exact IH].
    rewrite (Rmult_comm (1 + eta)), Rmult_assoc.
    apply Rmult_le_compat_l; [lra|]. nra.
Qed.

(** Up to [2^34] roundings the accumulated factor stays within [5e-6]
    of [1]. *)
Lemma G_pow_small (j : nat) :
  (Z.of_nat j <= 17179869184)%Z -> G ^ j <= 1 + / 200000.
Proof.
  intros Hj. apply IZR_le in Hj. rewrite <- INR_IZR_INZ in Hj.
  assert (INR j * eta <= / 262144) as Hb.
  { unfold eta. pose proof (pos_INR j). lra. }
  pose proof (G_pow_bound j ltac:(lra)) as H.
  pose proof (G_pow_ge_1 j) as Gj. nra.
Qed.

(** ** The sum of squares *)

Lemma pow2_double (z : Z) : pow2 (z + 1) = 2 * pow2 z.
Proof.
  rewrite pow2_add, Rmult_comm. f_equal. unfold pow2. simpl. lra.
Qed.

Lemma sum_squares_exact_nonneg (v : list float) : 0 <= sum_squares_exact v.
Proof.
  induction v as [|u v IH]; simpl; [lra|].
  rewrite value_sqr. pose proof (V_nonneg u). nra.
Qed.

(** An entry the sum of squares handles without underflow or overflow: a
    zero, or a number of magnitude between [2^-510] and [2^490]. *)
Definition entry_ok (x : float) : Prop :=
  Finite x /\ (V x = 0 \/ (pow2 (-510) <= V x /\ V x <= pow2 490)).

(** The square of an entry. *)
Lemma square_close (u : float) :
  entry_ok u ->
  NonNeg (u * u) /\ close1 (V (u * u)) (V u * V u) /\
  (V u * V u = 0 \/ pow2 (-1020) <= V u * V u).
Proof.
  intros [Fu [Hz|[Hlo Hhi]]].
  - destruct (mul_zero u u Fu Fu (or_introl Hz)) as [_ Hp].
    split; [now apply mul_zero_nonneg|]. rewrite Hp, Hz, Rmult_0_l.
    split; [apply close1_refl; lra | now left].
  - assert (pow2 (-1020) <= V u * V u) as Hsq.
    { replace (-1020)%Z with (-510 + -510)%Z by lia. rewrite pow2_add.
      pose proof (pow2_pos (-510)). nra. }
    assert (V u * V u <= pow2 980) as Hsq'.
    { replace 980%Z with (490 + 490)%Z by lia. rewrite pow2_add.
      pose proof (pow2_pos (-510)). nra. }
    pose proof (pow2_le (-1022) (-510) ltac:(lia)).
    pose proof (pow2_le (-1021) (-1020) ltac:(lia)).
    pose proof (pow2_le 980 1022 ltac:(lia)).
    destruct (mul_close u u) as (Hc & _ & Hn); try lra.
    split; [now apply Hn|]. split; [exact Hc | now right].
Qed.

(** The loop of [l2Normalize] and of the norm check, started from an
    accumulator [acc] that approximates [A]. *)
Lemma sum_squares_from_close (v : list float) :
  forall (acc : float) (A : R) (j : nat),
    (1 <= j)%nat -> NonNeg acc -> closeN j (V acc) A ->
    A = 0 \/ pow2 (-1020) <= A ->
    Forall entry_ok v ->
    A + sum_squares_exact v <= pow2 1012 ->
    G ^ (j + length v) <= 2 ->
    NonNeg (VectorFacts.sum_squares_from acc v) /\
    closeN (j + length v) (V (VectorFacts.sum_squares_from acc v)) (A + sum_squares_exact v).
Proof.
  induction v as [|u v IH]; intros acc A j Hj Nacc Hc HA Hv Hsum HG.
  - rewrite VectorFacts.sum_squares_from_nil. simpl length. simpl sum_squares_exact.
    rewrite Nat.add_0_r, Rplus_0_r. auto.
  - rewrite VectorFacts.sum_squares_from_cons.
    cbn [Num.add Num.mul Num.binary64].
    apply Forall_cons_1 in Hv as [Hu Hv].
    destruct (square_close u Hu) as (Np & Cp & Hp).
    simpl sum_squares_exact in Hsum. rewrite value_sqr in Hsum. simpl length in HG.
    pose proof (sum_squares_exact_nonneg v) as Hss.
    pose proof (V_nonneg acc) as Vacc. pose proof (V_nonneg (u * u)) as Vp.
    pose proof (V_nonneg u) as Vu.
    assert (0 <= A) as HA0.
    { destruct HA as [->|HA]; [lra|]. pose proof (pow2_pos (-1020)). lra. }
    set (A' := A + V u * V u).
    assert (closeN j (V acc + V (u * u)) A') as Hc'.
    { apply closeN_add; [exact Hc|].
      apply (closeN_mono 1 j); try assumption; [nra|].
      now apply close1_closeN. }
    assert (A' = 0 \/ pow2 (-1020) <= A') as HA'.
    { subst A'. destruct HA as [->|HA], Hp as [Hp|Hp]; try (right; nra).
      left. lra. }
    assert (G ^ j <= 2) as HGj.
    { apply Rle_trans with (G ^ (j + S (length v))); [|exact HG].
      apply G_pow_mono. lia. }
    pose proof (G_pow_ge_1 j) as HG1.
    destruct (add_close acc (u * u) Nacc Np) as [Nacc' Cacc'].
    { destruct Hc' as [C1 C2]. destruct HA' as [HA'|HA'].
      - left. rewrite HA' in C1. nra.
      - right. replace (-1020)%Z with (-1021 + 1)%Z in HA' by lia.
        rewrite pow2_double in HA'. pose proof (pow2_pos (-1021)). nra. }
    { destruct Hc' as [C1 C2].
      apply Rle_trans with (2 * pow2 1012).
      - subst A'. nra.
      - rewrite <- pow2_double. apply pow2_le. lia. }
    assert (closeN (j + 1) (V (acc + u * u)) A') as Hinv.
    { rewrite Nat.add_comm.
      apply (closeN_trans 1 j _ (V acc + V (u * u)) A');
        [apply V_nonneg | lra | subst A'; nra | now apply close1_closeN | exact Hc']. }
    destruct (IH (acc + u * u)%float A' (j + 1)%nat) as [Nres Cres];
      try assumption; try lia.
    + subst A'. lra.
    + replace (j + 1 + length v)%nat with (j + S (length v))%nat by lia. exact HG.
    + split; [exact Nres|]. simpl sum_squares_exact. rewrite value_sqr. simpl length.
      replace (j + S (length v))%nat with (j + 1 + length v)%nat by lia.
      replace (A + (V u * V u + sum_squares_exact v)) with (A' + sum_squares_exact v) by (subst A'; lra).
      exact Cres.
Qed.

(** ** Normalization *)

(** An entry of an averaged raw embedding: a zero, or a number of
    magnitude between [2^-205] and [2^131]. *)
Definition wide (x : float) : Prop :=
  Finite x /\ (V x = 0 \/ (pow2 (-205) <= V x /\ V x <= pow2 131)).

Lemma wide_entry_ok (x : float) : wide x -> entry_ok x.
Proof.
  intros [Fx [Hz|[Hlo Hhi]]]; (split; [exact Fx|]); [now left|right].
  pose proof (pow2_le (-510) (-205) ltac:(lia)).
  pose proof (pow2_le 131 490 ltac:(lia)). lra.
Qed.

Lemma sum_squares_exact_upper (B : R) (v : list float) :
  Forall (fun x => V x <= B) v -> sum_squares_exact v <= INR (length v) * (B * B).
Proof.
  induction 1 as [|x v Hx _ IH]; [simpl; lra|].
  cbn [sum_squares_exact List.fold_right]. fold (sum_squares_exact v). rewrite value_sqr.
  change (length (x :: v)) with (S (length v)). rewrite S_INR.
  pose proof (V_nonneg x). nra.
Qed.

Lemma sum_squares_exact_lower (x : float) (v : list float) : In x v -> V x * V x <= sum_squares_exact v.
Proof.
  induction v as [|u v IH]; [contradiction|].
  cbn [sum_squares_exact List.fold_right]. fold (sum_squares_exact v). rewrite value_sqr.
  pose proof (sum_squares_exact_nonneg v). pose proof (V_nonneg u).
  intros [->|Hin]; [nra|]. specialize (IH Hin). nra.
Qed.

Lemma zero_NonNeg : NonNeg 0%float.
Proof. exact I. Qed.

Lemma V_zero : V 0%float = 0.
Proof. reflexivity. Qed.

(** A finite number other than zero is truthy. *)
Lemma V_pos_truthy (x : float) : 0 < V x -> JS.truthy x = true.
Proof.
  intros Hx. destruct (V_pos_finite x Hx) as (s & m & e & E).
  unfold JS.truthy, is_zero, is_nan.
  rewrite !FloatAxioms.eqb_spec, E. cbn.
  rewrite Z.compare_refl, Pos.compare_cont_refl. now destruct s.
Qed.

Lemma sqrt_pow2 (z : Z) : R_sqrt.sqrt (pow2 (z + z)) = pow2 z.
Proof. rewrite pow2_add. apply sqrt_square. pose proof (pow2_pos z). lra. Qed.

(** The sum of squares of a transformed vector whose entries are close to
    the entries of the original divided by [c]. *)
Lemma sum_squares_exact_map_close (k : nat) (c : R) (f : float -> float) (v : list float) :
  0 < c ->
  (forall x, In x v -> closeN k (V (f x)) (V x / c)) ->
  closeN (k + k) (sum_squares_exact (List.map f v)) (sum_squares_exact v / (c * c)).
Proof.
  intros Hc. induction v as [|u v IH]; intros Hf.
  - simpl. unfold Rdiv. rewrite Rmult_0_l. apply closeN_refl. lra.
  - cbn [List.map sum_squares_exact List.fold_right]. fold (sum_squares_exact v). fold (sum_squares_exact (List.map f v)).
    rewrite !value_sqr.
    replace ((V u * V u + sum_squares_exact v) / (c * c))
      with ((V u / c) * (V u / c) + sum_squares_exact v / (c * c)) by (field; lra).
    pose proof (V_nonneg u). pose proof (V_nonneg (f u)).
    assert (0 <= V u / c) by (apply Rmult_le_pos; [lra | left; now apply Rinv_0_lt_compat]).
    apply closeN_add.
    + apply closeN_mul; try assumption; apply Hf; now left.
    + apply IH. intros x Hx. apply Hf. now right.
Qed.

(** An entry of a normalized vector. *)
Definition unit_entry (y : float) : Prop :=
  Finite y /\ (V y = 0 \/ (pow2 (-354) <= V y /\ V y <= pow2 2)).

(** [l2Normalize] in binary64, on a vector that is not the zero vector:
    the exact sum of the squares of the result is [1] up to the
    accumulated rounding. *)
Lemma l2Normalize_close (v : list float) :
  Forall wide v -> Exists (fun x => 0 < V x) v ->
  (Z.of_nat (length v) < 4294967296)%Z ->
  Forall unit_entry (MathUtils.l2Normalize v) /\
  closeN ((length v + 3) + (length v + 3)) (sum_squares_exact (MathUtils.l2Normalize v)) 1.
Proof.
  intros Hw Hex Hlen. set (n := length v) in *.
  pose proof (sum_squares_exact_nonneg v) as HS0. set (S := sum_squares_exact v) in *.
  (* the exact sum of squares is in range *)
  assert (pow2 (-410) <= S) as HSlo.
  { apply List.Exists_exists in Hex as (x & Hin & Hx).
    rewrite List.Forall_forall in Hw. destruct (Hw x Hin) as [_ [Hz|[Hlo _]]]; [lra|].
    apply Rle_trans with (V x * V x); [|now apply sum_squares_exact_lower].
    replace (-410)%Z with (-205 + -205)%Z by lia. rewrite pow2_add.
    pose proof (pow2_pos (-205)). nra. }
  assert (S <= pow2 294) as HShi.
  { apply Rle_trans with (INR n * (pow2 131 * pow2 131)).
    - apply sum_squares_exact_upper. eapply List.Forall_impl; [|exact Hw].
      intros x [_ [Hz|[_ Hhi]]]; [|exact Hhi].
      rewrite Hz. left. apply pow2_pos.
    - rewrite <- pow2_add. replace 294%Z with (32 + (131 + 131))%Z by lia.
      rewrite (pow2_add 32). apply Rmult_le_compat_r; [left; apply pow2_pos|].
      rewrite INR_IZR_INZ, <- (pow2_IZR 32) by lia. apply IZR_le.
      change (2 ^ 32)%Z with 4294967296%Z. lia. }
  assert (forall j : nat, (j <= 3 * n + 8)%nat -> G ^ j <= 1 + / 200000) as HG.
  { intros j Hj. apply G_pow_small. lia. }
  (* the computed sum of squares *)
  destruct (sum_squares_from_close v 0%float 0 1) as [Ns Cs]; try lia.
  { exact zero_NonNeg. }
  { rewrite V_zero. apply closeN_refl. lra. }
  { now left. }
  { eapply List.Forall_impl; [|exact Hw]. exact wide_entry_ok. }
  { rewrite Rplus_0_l. fold S. pose proof (pow2_le 294 1012 ltac:(lia)). lra. }
  { pose proof (HG (1 + n)%nat ltac:(lia)). fold n. lra. }
  fold n in Cs. rewrite Rplus_0_l in Cs. fold S in Cs.
  change (VectorFacts.sum_squares_from 0%float v) with (MathUtils.sum_squares v) in Ns, Cs.
  set (s := MathUtils.sum_squares v) in *.
  pose proof (HG (1 + n)%nat ltac:(lia)) as HG1.
  pose proof (G_pow_ge_1 (1 + n)) as HG1'.
  pose proof (V_nonneg s) as Vs.
  assert (pow2 (-411) <= V s) as Hslo.
  { destruct Cs as [_ C2]. replace (-410)%Z with (-411 + 1)%Z in HSlo by lia.
    rewrite pow2_double in HSlo. pose proof (pow2_pos (-411)). nra. }
  (* its square root *)
  destruct (sqrt_close s Ns) as [Nr Cr].
  { pose proof (pow2_le (-1022) (-411) ltac:(lia)). lra. }
  set (r := PrimFloat.sqrt s) in *.
  assert (closeN (n + 2) (V r) (R_sqrt.sqrt S)) as Crs.
  { replace (n + 2)%nat with (1 + (1 + n))%nat by lia.
    apply (closeN_trans 1 (1 + n) _ (R_sqrt.sqrt (V s)));
      [apply V_nonneg | apply sqrt_pos | apply sqrt_pos | now apply close1_closeN |].
    apply closeN_sqrt; assumption. }
  assert (pow2 (-205) <= R_sqrt.sqrt S) as Hqlo.
  { rewrite <- (sqrt_pow2 (-205)). apply sqrt_le_1_alt. exact HSlo. }
  assert (R_sqrt.sqrt S <= pow2 147) as Hqhi.
  { rewrite <- (sqrt_pow2 147). apply sqrt_le_1_alt. exact HShi. }
  pose proof (HG (n + 2)%nat ltac:(lia)) as HG2.
  pose proof (G_pow_ge_1 (n + 2)) as HG2'.
  pose proof (pow2_pos (-205)) as P205. pose proof (pow2_pos 147) as P147.
  pose proof (V_nonneg r) as Vr.
  assert (pow2 (-206) <= V r) as Hrlo.
  { destruct Crs as [_ C2]. replace (-205)%Z with (-206 + 1)%Z in Hqlo, P205 by lia.
    rewrite pow2_double in Hqlo, P205. nra. }
  assert (V r <= pow2 148) as Hrhi.
  { destruct Crs as [C1 _]. replace 148%Z with (147 + 1)%Z by lia.
    rewrite pow2_double. nra. }
  pose proof (pow2_pos (-206)) as P206.
  assert (0 < V r) as Hrpos by lra.
  (* the norm is truthy: the entries are divided by it *)
  unfold MathUtils.l2Normalize. fold s.
  cbn [Num.truthy Num.sqrt Num.div Num.one Num.binary64].
  unfold JS.Math_sqrt. fold r. rewrite (V_pos_truthy r Hrpos).
  (* every entry of the result *)
  assert (forall x, In x v ->
            unit_entry (x / r) /\ closeN (n + 3) (V (x / r)) (V x / R_sqrt.sqrt S)) as Hent.
  { intros x Hin. rewrite List.Forall_forall in Hw.
    destruct (Hw x Hin) as [Fx [Hz|[Hlo Hhi]]].
    - destruct (div_zero x r Fx Hz Hrpos) as [Fq Vq].
      split; [split; [exact Fq | now left]|].
      rewrite Vq, Hz. unfold Rdiv. rewrite Rmult_0_l. apply closeN_refl. lra.
    - pose proof (V_nonneg x) as Vx.
      assert (V x <= R_sqrt.sqrt S) as HxS.
      { rewrite <- (sqrt_square (V x)) by assumption.
        apply sqrt_le_1_alt. now apply sum_squares_exact_lower. }
      assert (pow2 (-353) <= V x / V r) as Hqlo'.
      { apply Rmult_le_reg_r with (V r); [assumption|].
        unfold Rdiv. rewrite Rmult_assoc, Rinv_l, Rmult_1_r by lra.
        apply Rle_trans with (pow2 (-353) * pow2 148);
          [apply Rmult_le_compat_l; [left; apply pow2_pos | exact Hrhi]|].
        rewrite <- pow2_add. simpl Z.add. exact Hlo. }
      assert (V x / V r <= 2) as Hqhi'.
      { apply Rmult_le_reg_r with (V r); [assumption|].
        unfold Rdiv. rewrite Rmult_assoc, Rinv_l, Rmult_1_r by lra.
        destruct Crs as [_ C2]. nra. }
      destruct (div_close x r) as [C1 C2].
      { pose proof (pow2_le (-1022) (-205) ltac:(lia)). lra. }
      { pose proof (pow2_le (-1022) (-206) ltac:(lia)). lra. }
      { pose proof (pow2_le (-1021) (-353) ltac:(lia)). lra. }
      { apply Rle_trans with 2; [exact Hqhi'|].
        assert (pow2 1 = 2) as <- by (unfold pow2; simpl; lra).
        apply pow2_le. lia. }
      pose proof eta_pos as He. assert (eta <= 1) as He1 by (unfold eta; lra).
      pose proof (pow2_pos (-353)) as P353.
      split.
      + split.
        * unfold Finite. assert (0 < V (x / r)) as Hp by nra.
          destruct (V_pos_finite _ Hp) as (s0 & m0 & e0 & ->). exact I.
        * right. split.
          -- replace (-353)%Z with (-354 + 1)%Z in Hqlo', P353 by lia.
             rewrite pow2_double in Hqlo', P353. nra.
          -- assert (pow2 2 = 4) as -> by (unfold pow2; simpl; lra). nra.
      + replace (n + 3)%nat with (1 + (0 + (n + 2)))%nat by lia.
        apply (closeN_trans 1 (0 + (n + 2)) _ (V x / V r));
          [apply V_nonneg | lra | | apply close1_closeN; split; assumption |].
        * apply Rmult_le_pos; [assumption|]. left. apply Rinv_0_lt_compat. lra.
        * apply closeN_div; try assumption; try lra.
          apply closeN_refl. assumption. }
  split.
  - apply List.Forall_map, List.Forall_forall. intros x Hin. apply (Hent x Hin).
  - assert (0 < R_sqrt.sqrt S) as Hq by lra.
    pose proof (sum_squares_exact_map_close (n + 3) (R_sqrt.sqrt S) (fun x => (x / r)%float) v Hq
                  (fun x Hin => proj2 (Hent x Hin))) as Hc.
    fold S in Hc. rewrite sqrt_sqrt in Hc by assumption.
    unfold Rdiv in Hc. rewrite Rinv_r in Hc by (pose proof (pow2_pos (-410)); lra).
    exact Hc.
Qed.

(** ** The two norms of a normalized vector *)

(** A real within a factor [(1 + 2^-52)^j] of [1], for [j] up to [2^34],
    is within [1e-4] of [1]. *)
Lemma closeN_one (j : nat) (a : R) :
  (Z.of_nat j <= 17179869184)%Z -> closeN j a 1 -> Rabs (a - 1) <= / 10000.
Proof.
  intros Hj [H1 H2]. pose proof (G_pow_small j Hj) as HG.
  pose proof (G_pow_ge_1 j) as HG'.
  apply Rabs_le. split; nra.
Qed.

Lemma l2Normalize_norms (v : list float) :
  Forall wide v -> Exists (fun x => 0 < V x) v ->
  (Z.of_nat (length v) < 4294967296)%Z ->
  Rabs (value (MathUtils.l2norm (MathUtils.l2Normalize v)) - 1) <= / 10000 /\
  Rabs (norm_exact (MathUtils.l2Normalize v) - 1) <= / 10000.
Proof.
  intros Hw Hex Hlen. unfold norm_exact.
  destruct (l2Normalize_close v Hw Hex Hlen) as [Hent Hc].
  set (n := length v) in *. set (w := MathUtils.l2Normalize v) in *.
  assert (length w = n) as Hlw by (subst w n; unfold MathUtils.l2Normalize; apply length_map).
  pose proof (sum_squares_exact_nonneg w) as Hs0.
  assert (forall j : nat, (j <= 3 * n + 8)%nat -> G ^ j <= 1 + / 200000) as HG.
  { intros j Hj. apply G_pow_small. lia. }
  pose proof (HG (n + 3 + (n + 3))%nat ltac:(lia)) as HGc.
  pose proof (G_pow_ge_1 (n + 3 + (n + 3))) as HGc'.
  assert (/ 2 <= sum_squares_exact w <= 2) as Hsw by (destruct Hc as [C1 C2]; split; nra).
  split.
  - (* the norm as the code computes it *)
    destruct (sum_squares_from_close w 0%float 0 1) as [Ns Cs]; try lia.
    { exact zero_NonNeg. }
    { rewrite V_zero. apply closeN_refl. lra. }
    { now left. }
    { eapply List.Forall_impl; [|exact Hent].
      intros y [Fy [Hz|[Hlo Hhi]]]; (split; [exact Fy|]); [now left|right].
      pose proof (pow2_le (-510) (-354) ltac:(lia)).
      pose proof (pow2_le 2 490 ltac:(lia)). lra. }
    { rewrite Rplus_0_l. apply Rle_trans with 2; [apply Hsw|].
      assert (pow2 1 = 2) as <- by (unfold pow2; simpl; lra). apply pow2_le. lia. }
    { rewrite Hlw. pose proof (HG (1 + n)%nat ltac:(lia)). lra. }
    rewrite Hlw, Rplus_0_l in Cs.
    change (VectorFacts.sum_squares_from 0%float w) with (MathUtils.sum_squares w) in Ns, Cs.
    set (s := MathUtils.sum_squares w) in *.
    pose proof (V_nonneg s) as Vs.
    assert (closeN ((1 + n) + (n + 3 + (n + 3))) (V s) 1) as Cs1
      by (apply (closeN_trans _ _ _ (sum_squares_exact w)); try assumption; lra).
    pose proof (HG (1 + n)%nat ltac:(lia)) as HG1.
    pose proof (G_pow_ge_1 (1 + n)) as HG1'.
    destruct (sqrt_close s Ns) as [Nr Cr].
    { apply Rle_trans with (/ 4).
      - assert (pow2 (-2) = / 4) as <- by (unfold pow2; simpl; lra). apply pow2_le. lia.
      - destruct Cs as [_ C2]. nra. }
    unfold MathUtils.l2norm. cbn [Num.sqrt Num.binary64]. unfold JS.Math_sqrt.
    fold s. rewrite (value_nonneg _ Nr).
    apply (closeN_one (1 + ((1 + n) + (n + 3 + (n + 3))))); [lia|].
    apply (closeN_trans 1 _ _ (R_sqrt.sqrt (V s)));
      [apply V_nonneg | apply sqrt_pos | lra | now apply close1_closeN |].
    pose proof (closeN_sqrt _ (V s) 1 Vs ltac:(lra) Cs1) as Hq.
    rewrite sqrt_1 in Hq. exact Hq.
  - (* the exact norm *)
    apply (closeN_one (n + 3 + (n + 3))); [lia|].
    pose proof (closeN_sqrt _ (sum_squares_exact w) 1 Hs0 ltac:(lra) Hc) as Hq.
    rewrite sqrt_1 in Hq. exact Hq.
Qed.

(** ** Raw embeddings *)

Lemma float32_range_cases (x : float) :
  float32_range x = true ->
  (exists s, Prim2SF x = S754_zero s) \/
  (exists s m e, Prim2SF x = S754_finite s m e /\ (-201 <= e)%Z /\
     pow2 (-149) <= IZR (Z.pos m) * pow2 e /\ IZR (Z.pos m) * pow2 e <= pow2 128).
Proof.
  unfold float32_range. destruct (Prim2SF x) as [s|s| |s m e] eqn:E; try discriminate.
  - intros _. left. eauto.
  - intros H. apply andb_prop in H as [H1 H2]. apply Z.leb_le in H1, H2.
    right. exists s, m, e. split; [reflexivity|].
    pose proof (mantissa_bounds m e) as [Hlo Hhi]. cbv zeta in Hlo, Hhi.
    assert (pow2 (-149) <= IZR (Z.pos m) * pow2 e) as Hv.
    { apply Rle_trans with (pow2 (Z.pos (digits2_pos m) + e - 1)); [|exact Hlo].
      apply pow2_le. lia. }
    assert (IZR (Z.pos m) * pow2 e <= pow2 128) as Hv'.
    { left. apply Rlt_le_trans with (pow2 (Z.pos (digits2_pos m) + e)); [exact Hhi|].
      apply pow2_le. lia. }
    destruct (normal_digits x s m e E) as [_ Hd].
    rewrite Hd in H1 by (pose proof (pow2_le (-1022) (-149) ltac:(lia)); lra).
    repeat split; [lia | exact Hv | exact Hv'].
Qed.

Lemma float32_range_wide (x : float) : float32_range x = true -> wide x.
Proof.
  intros H. destruct (float32_range_cases x H) as [[s E]|(s & m & e & E & _ & Hlo & Hhi)];
    unfold wide, Finite, V; rewrite E; cbn [mag]; (split; [exact I|]); [now left|right].
  pose proof (pow2_le (-205) (-149) ltac:(lia)).
  pose proof (pow2_le 128 131 ltac:(lia)). lra.
Qed.

(** The sum of two numbers of the binary32 range. *)
Lemma add_range (a b : float) :
  float32_range a = true -> float32_range b = true ->
  Finite (a + b) /\
  (V (a + b) = 0 \/ (pow2 (-202) <= V (a + b) /\ V (a + b) <= pow2 130)).
Proof.
  intros Ha Hb. unfold Finite, V. rewrite FloatAxioms.add_spec. unfold SF64add.
  pose proof (pow2_le (-202) (-149) ltac:(lia)) as P1.
  pose proof (pow2_le 128 130 ltac:(lia)) as P2.
  destruct (float32_range_cases a Ha) as [[sa ->]|(sa & ma & ea & -> & Hea & Alo & Ahi)];
    destruct (float32_range_cases b Hb) as [[sb ->]|(sb & mb & eb & -> & Heb & Blo & Bhi)].
  - destruct sa, sb; cbn [SFadd mag]; auto.
  - cbn [SFadd mag]. split; [exact I|]. right. lra.
  - cbn [SFadd mag]. split; [exact I|]. right. lra.
  - pose proof (SFadd_range sa ma ea sb mb eb Hea Heb) as H.
    assert (pow2 129 = 2 * pow2 128) as E
      by (replace 129%Z with (128 + 1)%Z by lia; apply pow2_double).
    specialize (H ltac:(lra)).
    destruct (SFadd prec emax (S754_finite sa ma ea) (S754_finite sb mb eb))
      as [s|s| |s m e]; try contradiction; cbn [mag]; auto.
Qed.

Lemma V_half : V 0.5%float = / 2.
Proof.
  unfold V. change (Prim2SF 0.5) with (S754_finite false 4503599627370496 (-53)).
  cbn [mag]. change 4503599627370496%Z with (2 ^ 52)%Z.
  rewrite pow2_IZR, <- pow2_add by lia. unfold pow2. simpl. lra.
Qed.

(** An entry of the averaged embedding. *)
Lemma half_sum_wide (a b : float) :
  float32_range a = true -> float32_range b = true -> wide (0.5 * (a + b))%float.
Proof.
  intros Ha Hb. destruct (add_range a b Ha Hb) as [Fs [Hz|[Hlo Hhi]]].
  - destruct (mul_zero 0.5%float (a + b)%float) as [Fp Vp];
      [exact I | exact Fs | now right |].
    split; [exact Fp | now left].
  - pose proof (pow2_pos (-202)) as P202.
    assert (pow2 (-202) = 2 * pow2 (-203)) as E1
      by (replace (-202)%Z with (-203 + 1)%Z by lia; apply pow2_double).
    assert (pow2 (-203) = 2 * pow2 (-204)) as E2
      by (replace (-203)%Z with (-204 + 1)%Z by lia; apply pow2_double).
    assert (pow2 (-204) = 2 * pow2 (-205)) as E3
      by (replace (-204)%Z with (-205 + 1)%Z by lia; apply pow2_double).
    assert (pow2 131 = 2 * pow2 130) as E4
      by (replace 131%Z with (130 + 1)%Z by lia; apply pow2_double).
    pose proof (pow2_le (-1022) (-202) ltac:(lia)).
    pose proof (pow2_le (-1021) (-203) ltac:(lia)).
    pose proof (pow2_le 130 1022 ltac:(lia)).
    pose proof (pow2_le (-1022) (-1) ltac:(lia)) as Ph.
    assert (pow2 (-1) = / 2) as Eh by (unfold pow2; simpl; lra).
    destruct (mul_close 0.5%float (a + b)%float) as ([C1 C2] & _); rewrite ?V_half; try lra.
    rewrite V_half in C1, C2.
    pose proof eta_pos. assert (eta <= 1) by (unfold eta; lra).
    pose proof (pow2_pos (-205)).
    assert (0 < V (0.5 * (a + b))%float) as Hp by nra.
    split.
    + unfold Finite. destruct (V_pos_finite _ Hp) as (s0 & m0 & e0 & ->). exact I.
    + right. split; nra.
Qed.

Lemma average_wide (e f : list float) :
  Forall (fun u => float32_range u = true) e ->
  Forall (fun u => float32_range u = true) f ->
  Forall wide (FaceRecognition.average e f).
Proof.
  intros He. revert f. induction He as [|u e Hu He IH]; intros f Hf.
  - destruct f; constructor.
  - destruct Hf as [|w f Hw Hf].
    + simpl. constructor; [now apply float32_range_wide|].
      eapply List.Forall_impl; [|exact He]. exact float32_range_wide.
    + simpl. constructor; [|now apply IH].
      cbn [Num.mul Num.add Num.half Num.binary64]. now apply half_sum_wide.
Qed.

Lemma average_same_length (e f : list float) :
  length (FaceRecognition.average e f) = length e.
Proof.
  revert f. induction e as [|u e IH]; intros [|w f]; simpl; try reflexivity.
  now rewrite IH.
Qed.

(** A finite number that is not [=== 0] has a positive magnitude. *)
Lemma nonzero_V (x : float) : Finite x -> JS.strict_eq x 0 = false -> 0 < V x.
Proof.
  unfold Finite, JS.strict_eq, V. rewrite FloatAxioms.eqb_spec.
  destruct (Prim2SF x) as [s|s| |s m e]; try contradiction; intros _.
  - destruct s; discriminate.
  - intros _. cbn [mag]. pose proof (pow2_pos e).
    assert (0 < IZR (Z.pos m)) by (apply IZR_lt; lia). nra.
Qed.

(** ** The zero vector *)

Lemma sum_squares_zeros (v : list float) :
  Forall (fun u => JS.strict_eq u 0 = true) v ->
  VectorFacts.sum_squares_from 0%float v = 0%float.
Proof.
  induction 1 as [|u v Hu _ IH]; [reflexivity|].
  rewrite VectorFacts.sum_squares_from_cons. cbn [Num.add Num.mul Num.binary64].
  destruct (Binary64.zero_cases u Hu) as [-> | ->]; exact IH.
Qed.

Lemma l2Normalize_zeros (v : list float) :
  Forall (fun u => JS.strict_eq u 0 = true) v -> MathUtils.l2Normalize v = v.
Proof.
  intros Hv. unfold MathUtils.l2Normalize.
  change (MathUtils.sum_squares v) with (VectorFacts.sum_squares_from 0%float v).
  rewrite (sum_squares_zeros v Hv).
  cbn [Num.truthy Num.sqrt Num.div Num.one Num.binary64].
  change (JS.truthy (JS.Math_sqrt 0)) with false. cbv iota.
  induction Hv as [|u v Hu _ IH]; [reflexivity|].
  simpl List.map. rewrite IH. f_equal.
  destruct (Binary64.zero_cases u Hu) as [-> | ->]; reflexivity.
Qed.

End NormFacts.

(* ===================================================================== *)
(** * Embedding post-processing *)
(* ===================================================================== *)

Module EmbeddingFacts.

Import FaceRecognition.
#[local] Open Scope float_scope.

(** The unit vector [[1, 0, ..., 0]] of dimension 512. *)
Definition e1 : list float := 1 :: repeat 0 511.

(** A 2 x 2 face whose left column is black and right column is white. *)
Definition two_columns : Preprocessed float := {|
  nchw := [0; 1; 0; 1; 0; 1; 0; 1; 0; 1; 0; 1];
  nhwc := Some [0; 0; 0; 1; 1; 1; 0; 0; 0; 1; 1; 1];
  size := 2;
|}.

(** A recognizer whose raw embedding is [e1] when the top-left pixel is
    black and [-e1] otherwise: mirroring [two_columns] negates it. *)
Definition column_recognizer (tensor : list float) : list float :=
  match tensor with
  | p :: _ => if p =? 0 then e1 else List.map PrimFloat.opp e1
  | [] => e1
  end.

(** The averaged raw embedding of a recognizer whose outputs are in the
    binary32 range: every entry is a zero or lies between [2^-205] and
    [2^131], and there are as many entries as in the raw embedding. *)
Lemma averaged_wide {E : Type} (fresh undef : E) (cfg : Config.Arcface)
    (runInference : list E -> list float) (preprocessedData : Preprocessed E) :
  (forall tensor, Forall (fun u => Real64.float32_range u = true) (runInference tensor)) ->
  Forall NormFacts.wide (averaged_embedding fresh undef cfg runInference preprocessedData) /\
  length (averaged_embedding fresh undef cfg runInference preprocessedData)
  = length (runInference (nchw preprocessedData)).
Proof.
  intros Hrange. unfold averaged_embedding.
  assert (Forall NormFacts.wide (runInference (nchw preprocessedData))) as Hraw.
  { eapply List.Forall_impl; [|apply Hrange]. exact NormFacts.float32_range_wide. }
  destruct (Config.useTTAFlip cfg); [|auto].
  destruct (nhwc preprocessedData); [|auto].
  split; [apply NormFacts.average_wide; apply Hrange|].
  apply NormFacts.average_same_length.
Qed.

(** The range of the entries matters: a finite non-zero entry below the
    binary32 range has a square that underflows to [0], and one above it a
    square that overflows; either way the vector comes back with norm
    [0]. *)
Lemma outside_binary32_range :
  Real64.float32_range 1e-200 = false /\
  MathUtils.l2norm (MathUtils.l2Normalize [1e-200; 0]) = 0 /\
  Real64.float32_range 1e200 = false /\
  MathUtils.l2norm (MathUtils.l2Normalize [1e200; 0]) = 0.
Proof. repeat split; vm_compute; reflexivity. Qed.

End EmbeddingFacts.

(** C5, as stated, fails.  With the flip augmentation on, the raw
    embeddings [e1] and [-e1] of a face and its mirror are finite, non-zero
    and in the binary32 range, and their average is the zero vector, which is
    returned with norm [0]. *)
Lemma generateEmbedding_not_unit :
  Forall (fun u => Real64.float32_range u = true /\ is_finite u = true)
    (EmbeddingFacts.column_recognizer (FaceRecognition.nchw EmbeddingFacts.two_columns)) /\
  Exists (fun u => JS.strict_eq u 0 = false)
    (EmbeddingFacts.column_recognizer (FaceRecognition.nchw EmbeddingFacts.two_columns)) /\
  MathUtils.l2norm
    (FaceRecognition.generateEmbedding 0%float nan (Config.arcface Config.config)
       EmbeddingFacts.column_recognizer EmbeddingFacts.two_columns) = 0%float /\
  JS.le (JS.Math_abs (0 - 1)) 1e-4 = false.
Proof.
  split; [|split; [|split]].
  - apply List.Forall_forall. intros u Hu. vm_compute in Hu.
    repeat (destruct Hu as [<-|Hu]; [split; vm_compute; reflexivity|]). contradiction.
  - apply Exists_cons_hd. vm_compute. reflexivity.
  - vm_compute. reflexivity.
  - vm_compute. reflexivity.
Qed.

(** C5, amended.  Let the recognizer return raw embeddings of fewer than
    [2^32] entries, each in the range of the finite binary32 numbers.
    Whenever the raw embedding (averaged with the raw embedding of the
    mirrored input when the flip augmentation is on) is not the zero
    vector, the vector [generateEmbedding] returns has an L2 norm within
    [1e-4] of [1] in the arithmetic of the program: both the norm the code
    recomputes in binary64 and the exact Euclidean norm of the returned
    numbers.  An average that is the zero vector is returned unchanged. *)
Theorem generateEmbedding_unit_norm {E : Type} (fresh undef : E)
    (cfg : Config.Arcface) (runInference : list E -> list float)
    (preprocessedData : FaceRecognition.Preprocessed E) :
  (forall tensor,
     Forall (fun u => Real64.float32_range u = true) (runInference tensor)) ->
  (forall tensor, (Z.of_nat (length (runInference tensor)) < 2 ^ 32)%Z) ->
  let averaged :=
    FaceRecognition.averaged_embedding fresh undef cfg runInference preprocessedData in
  let embedding :=
    FaceRecognition.generateEmbedding fresh undef cfg runInference preprocessedData in
  (Exists (fun u => JS.strict_eq u 0 = false) averaged ->
   (Rabs (Real64.value (MathUtils.l2norm embedding) - 1) <= / 10000)%R /\
   (Rabs (Real64.norm_exact embedding - 1) <= / 10000)%R) /\
  (Forall (fun u => JS.strict_eq u 0 = true) averaged -> embedding = averaged).
Proof.
  intros Hrange Hlen. cbv zeta.
  destruct (EmbeddingFacts.averaged_wide fresh undef cfg runInference preprocessedData
              Hrange) as [Hwide Hl].
  unfold FaceRecognition.generateEmbedding. split.
  - intros Hnz. apply NormFacts.l2Normalize_norms.
    + exact Hwide.
    + apply List.Exists_exists in Hnz as (u & Hin & Hu).
      apply List.Exists_exists. exists u. split; [exact Hin|].
      apply NormFacts.nonzero_V; [|exact Hu].
      rewrite List.Forall_forall in Hwide. apply (Hwide u Hin).
    + rewrite Hl. apply Hlen.
  - apply NormFacts.l2Normalize_zeros.
Qed.

Lemma generateEmbedding_unit_norm_witness :
  let embedding :=
    FaceRecognition.generateEmbedding 0 0 (Config.arcface Config.config)
      (fun _ : list nat => [3; 4]%float)
      {| FaceRecognition.nchw := [10; 20; 30];
         FaceRecognition.nhwc := Some [10; 20; 30];
         FaceRecognition.size := 1 |} in
  (Rabs (Real64.value (MathUtils.l2norm embedding) - 1) <= / 10000)%R /\
  (Rabs (Real64.norm_exact embedding - 1) <= / 10000)%R.
Proof.
  cbv zeta.
  apply (generateEmbedding_unit_norm 0 0 (Config.arcface Config.config)
           (fun _ : list nat => [3; 4]%float)).
  - intros _. repeat constructor.
  - intros _. simpl. lia.
  - apply Exists_cons_hd. reflexivity.
Defined.

(* ===================================================================== *)
(** * Face selection and box processing *)
(* ===================================================================== *)

Module ProcessingFacts.

Import Errors FaceProcessing.

(** No number is below NaN. *)
Lemma lt_nan (a : float) : JS.lt a nan = false.
Proof.
  unfold JS.lt. rewrite Binary64.ltb_compare.
  assert ((a ?= nan)%float = FNotComparable) as ->; [|reflexivity].
  apply Binary64.compare_nan. right. reflexivity.
Qed.

Lemma filter_none {A : Type} (f : A -> bool) (l : list A) :
  (forall a, In a l -> f a = false) -> List.filter f l = [].
Proof.
  induction l as [|a l IH]; intros Hf; simpl; [reflexivity|].
  rewrite (Hf a (or_introl eq_refl)). apply IH. intros b Hb. apply Hf. now right.
Qed.

(** When no candidate passes the filters, nothing is selected. *)
Lemma selectBestFace_all_filtered (config : Config.t) (boxes : list RawBox)
    (imageWidth imageHeight : float) :
  (forall box, In box boxes ->
     passes_filters (Config.faceDetection config) imageWidth imageHeight
       (to_pixels imageWidth imageHeight box) = false) ->
  selectBestFace config (Some boxes) imageWidth imageHeight = None.
Proof.
  intros Hf. unfold selectBestFace. destruct boxes as [|box boxes]; [reflexivity|].
  rewrite filter_none; [reflexivity|].
  intros d Hd. apply in_map_iff in Hd as (b & <- & Hb). now apply Hf.
Qed.

(** The candidate of the specification's example: a box of 10 x 10 pixels
    at (400, 400) of an image of 1000 x 1000 pixels. *)
Definition small_face : RawBox :=
  mkRawBox (mkBox 0.4 0.4 0.01 0.01) (Some 0.9%float).

End ProcessingFacts.

(** C2 fails on the code.  The box [{x:0, y:0, width:100, height:100}]
    lies inside an image of 100 x 100 pixels and the ratio [0.1] is not
    negative, yet [expandBoundingBox] returns
    [{x:0, y:0, width:105, height:105}], which is wider and taller than the
    image: [x] is clamped at [0] while [width] is computed from the
    unclamped [x].  [validateBoundingBox] accepts the input box and rejects
    the returned one. *)
Theorem expandBoundingBox_leaves_image :
  let box := mkBox 0 0 100 100 in
  let expanded := FaceProcessing.expandBoundingBox box 100 100 0.1 in
  (JS.le 0 (x box) && JS.le 0 (y box)
   && JS.le (x box + width box) 100 && JS.le (y box + height box) 100
   && JS.gt (width box) 0 && JS.gt (height box) 0 && JS.ge 0.1 0 = true)%float /\
  expanded = mkBox 0 0 105 105 /\
  JS.le (x expanded + width expanded) 100 = false /\
  JS.le (y expanded + height expanded) 100 = false /\
  Validation.validateBoundingBox (Some box) 100 100 = true /\
  Validation.validateBoundingBox (Some expanded) 100 100 = false.
Proof. repeat split; vm_compute; reflexivity. Qed.

(** C8. When every candidate fails the filters of the selector,
    [selectBestFace] returns [null], and [detectAndValidateFace] throws the
    detection error "no face detected". *)
Theorem selectBestFace_none_surfaces (config : Config.t) (candidates : list RawBox)
    (imageWidth imageHeight : float) :
  (forall box, In box candidates ->
     FaceProcessing.passes_filters (Config.faceDetection config) imageWidth imageHeight
       (FaceProcessing.to_pixels imageWidth imageHeight box) = false) ->
  FaceProcessing.selectBestFace config (Some candidates) imageWidth imageHeight = None /\
  forall (Buffer : Type) (buffer : Buffer) (detectFaces : Buffer -> DetectFacesResult),
    detectFaces buffer
    = {| boxes := Some candidates; metadata := mkMetadata imageWidth imageHeight |} ->
    FaceProcessing.detectAndValidateFace config buffer detectFaces
    = Errors.Thrown (Errors.mkAppError Errors.NO_FACE_DETECTED Errors.DETECTION 400).
Proof.
  intros Hf.
  pose proof (ProcessingFacts.selectBestFace_all_filtered config candidates _ _ Hf) as Hn.
  split; [exact Hn|].
  intros Buffer buffer detectFaces Hd. unfold FaceProcessing.detectAndValidateFace.
  rewrite Hd. destruct candidates as [|box rest]; [reflexivity|].
  simpl meta_width. simpl meta_height. now rewrite Hn.
Qed.

(** The example of C8: the only candidate is a 10 x 10 pixel box in an image
    of 1000 x 1000 pixels; with [minPixelSize = 20] the minimum size is
    [max(20, 0.08 * 1000) = 80]. *)
Lemma selectBestFace_none_surfaces_witness :
  Config.minPixelSize (Config.faceDetection Config.config) = 20%float /\
  JS.Math_max 20 (JS.Math_min 1000 1000 * 0.08)%float = 80%float /\
  det_box (FaceProcessing.to_pixels 1000 1000 ProcessingFacts.small_face)
  = mkBox 400 400 10 10 /\
  JS.lt 10 80 = true /\
  FaceProcessing.selectBestFace Config.config (Some [ProcessingFacts.small_face])
    1000 1000 = None /\
  FaceProcessing.detectAndValidateFace Config.config tt
    (fun _ => {| boxes := Some [ProcessingFacts.small_face];
                 metadata := mkMetadata 1000 1000 |})
  = Errors.Thrown (Errors.mkAppError Errors.NO_FACE_DETECTED Errors.DETECTION 400).
Proof.
  assert (forall box, In box [ProcessingFacts.small_face] ->
            FaceProcessing.passes_filters (Config.faceDetection Config.config) 1000 1000
              (FaceProcessing.to_pixels 1000 1000 box) = false) as Hf.
  { intros box [<-|[]]. vm_compute. reflexivity. }
  destruct (selectBestFace_none_surfaces Config.config [ProcessingFacts.small_face]
              1000 1000 Hf) as [Hnone Hthrow].
  split; [reflexivity|]. split; [vm_compute; reflexivity|].
  split; [vm_compute; reflexivity|]. split; [vm_compute; reflexivity|].
  split; [exact Hnone|].
  now apply Hthrow.
Defined.

(** C9 fails on the code.  [processBoundingBox] applies the fixed order
    (expand with ratio [min(maxExpandRatio, faceExpandRatio)], then square
    when [useSquareCrop] is set), but its size check compares against
    [config.faceRecognition.minPixelSize], a key that does not exist, so the
    check never fires: every call returns the processed box.  A face of
    5 x 5 pixels, below the minimum of 20 pixels, is returned instead of
    raising "face too small"; the size check of [src/server.js], which
    compares against [20], rejects the same box. *)
Theorem processBoundingBox_never_too_small :
  (forall (config : Config.t) (box : Box) (imageWidth imageHeight : float),
     FaceProcessing.processBoundingBox config box imageWidth imageHeight
     = Errors.Returned
         (let cfg := Config.faceRecognition config in
          let expanded :=
            FaceProcessing.expandBoundingBox box imageWidth imageHeight
              (JS.Math_min (Config.maxExpandRatio cfg) (Config.faceExpandRatio cfg)) in
          if Config.useSquareCrop cfg
          then FaceProcessing.makeSquareBoundingBox expanded imageWidth imageHeight
          else expanded)) /\
  FaceProcessing.processBoundingBox Config.config (mkBox 100 100 5 5) 1000 1000
  = Errors.Returned (mkBox 100 100 5 5) /\
  JS.lt 5 (Config.minPixelSize (Config.faceDetection Config.config)) = true /\
  Server.too_small (mkBox 100 100 5 5) = true.
Proof.
  split; [|repeat split; vm_compute; reflexivity].
  intros config box imageWidth imageHeight.
  unfold FaceProcessing.processBoundingBox.
  now rewrite !ProcessingFacts.lt_nan.
Qed.

(* ===================================================================== *)
(** * Order facts about binary64 *)
(* ===================================================================== *)

Module OrderFacts.

#[local] Open Scope float_scope.

Lemma compare_refl (a : float) : is_nan a = false -> (a ?= a) = FEq.
Proof.
  intros Ha. destruct (a ?= a) eqn:E; try reflexivity.
  - pose proof (Binary64.compare_antisym a a) as H. rewrite E in H. discriminate.
  - pose proof (Binary64.compare_antisym a a) as H. rewrite E in H. discriminate.
  - apply Binary64.compare_nan in E. destruct E; congruence.
Qed.

Lemma le_refl (a : float) : is_nan a = false -> JS.le a a = true.
Proof.
  intros Ha. unfold JS.le. now rewrite Binary64.leb_compare, compare_refl.
Qed.

Lemma compare_not_nan (a b : float) :
  is_nan a = false -> is_nan b = false -> (a ?= b) <> FNotComparable.
Proof.
  intros Ha Hb E. apply Binary64.compare_nan in E. destruct E; congruence.
Qed.

(** [Math.max] of two numbers is one of them and bounds both. *)
Lemma Math_max_spec (a b : float) :
  is_nan a = false -> is_nan b = false ->
  (JS.Math_max a b = a \/ JS.Math_max a b = b) /\
  JS.le a (JS.Math_max a b) = true /\ JS.le b (JS.Math_max a b) = true.
Proof.
  intros Ha Hb. pose proof (compare_not_nan a b Ha Hb) as Hc.
  pose proof (Binary64.compare_antisym a b) as Hs.
  unfold JS.Math_max, JS.le. rewrite !Binary64.leb_compare.
  destruct (a ?= b) eqn:E; try contradiction.
  - destruct (get_sign a).
    + rewrite E, (compare_refl b Hb). auto.
    + rewrite Hs, (compare_refl a Ha). auto.
  - rewrite E, (compare_refl b Hb). auto.
  - rewrite Hs, (compare_refl a Ha). auto.
Qed.

(** [Math.min] of two numbers is one of them and is below both. *)
Lemma Math_min_spec (a b : float) :
  is_nan a = false -> is_nan b = false ->
  (JS.Math_min a b = a \/ JS.Math_min a b = b) /\
  JS.le (JS.Math_min a b) a = true /\ JS.le (JS.Math_min a b) b = true.
Proof.
  intros Ha Hb. pose proof (compare_not_nan a b Ha Hb) as Hc.
  pose proof (Binary64.compare_antisym a b) as Hs.
  unfold JS.Math_min, JS.le. rewrite !Binary64.leb_compare.
  destruct (a ?= b) eqn:E; try contradiction.
  - destruct (get_sign a).
    + rewrite E, (compare_refl a Ha). auto.
    + rewrite Hs, (compare_refl b Hb). auto.
  - rewrite E, (compare_refl a Ha). auto.
  - rewrite Hs, (compare_refl b Hb). auto.
Qed.

Lemma Math_max_not_nan (a b : float) :
  is_nan a = false -> is_nan b = false -> is_nan (JS.Math_max a b) = false.
Proof.
  intros Ha Hb. destruct (Math_max_spec a b Ha Hb) as [[-> | ->] _]; assumption.
Qed.

Lemma Math_min_not_nan (a b : float) :
  is_nan a = false -> is_nan b = false -> is_nan (JS.Math_min a b) = false.
Proof.
  intros Ha Hb. destruct (Math_min_spec a b Ha Hb) as [[-> | ->] _]; assumption.
Qed.

(** [Math.max] and [Math.min] return NaN as soon as an argument is NaN. *)
Lemma Math_max_nan (a b : float) :
  is_nan a = true \/ is_nan b = true -> JS.Math_max a b = nan.
Proof.
  intros Hn. apply Binary64.compare_nan in Hn. unfold JS.Math_max. now rewrite Hn.
Qed.

Lemma Math_min_nan (a b : float) :
  is_nan a = true \/ is_nan b = true -> JS.Math_min a b = nan.
Proof.
  intros Hn. apply Binary64.compare_nan in Hn. unfold JS.Math_min. now rewrite Hn.
Qed.

(** [clamp] keeps a number between its bounds. *)
Lemma clamp_between (value lo hi : float) :
  is_nan value = false -> is_nan lo = false -> is_nan hi = false ->
  JS.le lo hi = true ->
  JS.le lo (MathUtils.clamp value lo hi) = true /\
  JS.le (MathUtils.clamp value lo hi) hi = true.
Proof.
  intros Hv Hl Hh Hlh. unfold MathUtils.clamp.
  destruct (Math_max_spec value lo Hv Hl) as (_ & _ & Hlm).
  pose proof (Math_max_not_nan value lo Hv Hl) as Hm.
  destruct (Math_min_spec (JS.Math_max value lo) hi Hm Hh) as ([E | E] & _ & Hrh).
  - split; [now rewrite E | assumption].
  - split; [now rewrite E | assumption].
Qed.

(** [Math.min(1, Math.max(0, v))] is NaN or lies in [[0, 1]]. *)
Lemma unit_interval (v : float) :
  let r := JS.Math_min 1 (JS.Math_max 0 v) in
  is_nan r = true \/ (JS.le 0 r = true /\ JS.le r 1 = true).
Proof.
  intros r. subst r. destruct (is_nan v) eqn:Hv.
  - left. rewrite (Math_max_nan 0 v) by auto. reflexivity.
  - right. rewrite Binary64.Math_min_comm, Binary64.Math_max_comm.
    apply (clamp_between v 0 1); reflexivity || assumption.
Qed.

(** [Math.max(0, v)] is never negative. *)
Lemma Math_max_zero_not_negative (v : float) : JS.lt (JS.Math_max 0 v) 0 = false.
Proof.
  destruct (is_nan v) eqn:Hv.
  - rewrite (Math_max_nan 0 v) by auto. reflexivity.
  - destruct (Math_max_spec 0 v eq_refl Hv) as (_ & Hz & _).
    unfold JS.lt, JS.le in *. rewrite Binary64.ltb_compare.
    rewrite Binary64.leb_compare in Hz.
    rewrite (Binary64.compare_antisym 0 (JS.Math_max 0 v)).
    destruct (0 ?= JS.Math_max 0 v); congruence.
Qed.

End OrderFacts.

(* ===================================================================== *)
(** * Sign facts about binary64 *)
(* ===================================================================== *)

Module SignFacts.

#[local] Open Scope float_scope.

(** A value that is not below zero: NaN, a zero, or a positive number. *)
Definition not_negative (u : spec_float) : bool :=
  match u with
  | S754_zero _ | S754_nan => true
  | S754_infinity s | S754_finite s _ _ => negb s
  end.

(** NaN or a number above zero. *)
Definition positive_or_nan (u : spec_float) : bool :=
  match u with
  | S754_zero _ => false
  | S754_nan => true
  | S754_infinity s | S754_finite s _ _ => negb s
  end.

Lemma Prim2SF_zero : Prim2SF 0 = S754_zero false.
Proof. reflexivity. Qed.

Lemma lt_zero_iff (a : float) :
  JS.lt a 0 = false <-> not_negative (Prim2SF a) = true.
Proof.
  unfold JS.lt. rewrite FloatAxioms.ltb_spec, Prim2SF_zero. unfold SFltb.
  destruct (Prim2SF a) as [s|s| |s m e]; simpl; try tauto;
    destruct s; simpl; split; congruence.
Qed.

Lemma le_zero_iff (a : float) :
  JS.le a 0 = false <-> positive_or_nan (Prim2SF a) = true.
Proof.
  unfold JS.le. rewrite FloatAxioms.leb_spec, Prim2SF_zero. unfold SFleb.
  destruct (Prim2SF a) as [s|s| |s m e]; simpl; try tauto;
    try (split; congruence); destruct s; simpl; split; congruence.
Qed.

Lemma binary_round_aux_sign (p emax_ : Z) (s : bool) (mx ex : Z) (lx : location) :
  not_negative (binary_round_aux p emax_ s mx ex lx) = negb s \/
  not_negative (binary_round_aux p emax_ s mx ex lx) = true.
Proof.
  unfold binary_round_aux.
  destruct (shr_fexp p emax_ mx ex lx) as [mrs e'].
  destruct (shr_fexp p emax_ _ e' loc_Exact) as [mrs' e''].
  destruct (shr_m mrs'); simpl; auto.
  destruct (e'' <=? emax_ - p)%Z; simpl; auto.
Qed.

Lemma binary_round_aux_not_negative (p emax_ : Z) (mx ex : Z) (lx : location) :
  not_negative (binary_round_aux p emax_ false mx ex lx) = true.
Proof. destruct (binary_round_aux_sign p emax_ false mx ex lx); assumption. Qed.

Lemma SFmul_not_negative (u v : spec_float) :
  not_negative u = true -> not_negative v = true ->
  not_negative (SF64mul u v) = true.
Proof.
  unfold SF64mul.
  destruct u as [su|su| |su mu eu], v as [sv|sv| |sv mv ev]; simpl;
    try reflexivity; try (destruct su, sv; simpl; congruence).
  destruct su, sv; simpl; try discriminate. intros _ _.
  apply binary_round_aux_not_negative.
Qed.

Lemma SFsquare_not_negative (u : spec_float) : not_negative (SF64mul u u) = true.
Proof.
  unfold SF64mul. destruct u as [su|su| |su mu eu]; simpl; try reflexivity.
  - now destruct su.
  - rewrite xorb_nilpotent. apply binary_round_aux_not_negative.
Qed.

Lemma SFadd_not_negative (u v : spec_float) :
  not_negative u = true -> not_negative v = true ->
  not_negative (SF64add u v) = true.
Proof.
  unfold SF64add.
  destruct u as [su|su| |su mu eu], v as [sv|sv| |sv mv ev]; simpl;
    try reflexivity; try (destruct su, sv; simpl; congruence);
    try (destruct su; simpl; congruence); try (destruct sv; simpl; congruence).
  destruct su, sv; simpl; try discriminate. intros _ _.
  unfold binary_round.
  destruct (shl_align _ _ _) as [mz ez].
  apply binary_round_aux_not_negative.
Qed.

Lemma SFdiv_not_negative (u v : spec_float) :
  not_negative u = true -> positive_or_nan v = true ->
  not_negative (SF64div u v) = true.
Proof.
  unfold SF64div.
  destruct u as [su|su| |su mu eu], v as [sv|sv| |sv mv ev]; simpl;
    try reflexivity; try discriminate; try (destruct su, sv; simpl; congruence).
  destruct su, sv; simpl; try discriminate. intros _ _.
  unfold SFdiv.
  destruct (SFdiv_core_binary prec emax (Z.pos mu) eu (Z.pos mv) ev) as [[mz ez] lz].
  apply binary_round_aux_not_negative.
Qed.

Lemma SFsqrt_not_negative (u : spec_float) : not_negative (SF64sqrt u) = true.
Proof.
  unfold SF64sqrt. destruct u as [su|su| |su mu eu]; simpl; try reflexivity.
  - now destruct su.
  - destruct su; [reflexivity|].
    destruct (SFsqrt_core_binary prec emax (Z.pos mu) eu) as [[mz ez] lz].
    apply binary_round_aux_not_negative.
Qed.

(** A product of two values that are not negative is not negative. *)
Lemma mul_not_negative (a b : float) :
  JS.lt a 0 = false -> JS.lt b 0 = false -> JS.lt (a * b) 0 = false.
Proof.
  rewrite !lt_zero_iff, FloatAxioms.mul_spec. apply SFmul_not_negative.
Qed.

Lemma square_not_negative (a : float) : JS.lt (a * a) 0 = false.
Proof. rewrite lt_zero_iff, FloatAxioms.mul_spec. apply SFsquare_not_negative. Qed.

Lemma add_not_negative (a b : float) :
  JS.lt a 0 = false -> JS.lt b 0 = false -> JS.lt (a + b) 0 = false.
Proof.
  rewrite !lt_zero_iff, FloatAxioms.add_spec. apply SFadd_not_negative.
Qed.

Lemma div_not_negative (a b : float) :
  JS.lt a 0 = false -> JS.le b 0 = false -> JS.lt (a / b) 0 = false.
Proof.
  rewrite !lt_zero_iff, le_zero_iff, FloatAxioms.div_spec. apply SFdiv_not_negative.
Qed.

Lemma sqrt_not_negative (a : float) : JS.lt (JS.Math_sqrt a) 0 = false.
Proof.
  unfold JS.Math_sqrt. rewrite lt_zero_iff, FloatAxioms.sqrt_spec.
  apply SFsqrt_not_negative.
Qed.

End SignFacts.

(* ===================================================================== *)
(** * Intersection over union, clamping and Euclidean distance *)
(* ===================================================================== *)

Module DistanceFacts.

Import Distance.
#[local] Open Scope float_scope.

Lemma binary_round_aux_abs (p emax_ : Z) (s s' : bool) (mx ex : Z) (lx : location) :
  SFabs (binary_round_aux p emax_ s mx ex lx)
  = SFabs (binary_round_aux p emax_ s' mx ex lx).
Proof.
  unfold binary_round_aux.
  destruct (shr_fexp p emax_ mx ex lx) as [mrs e'].
  destruct (shr_fexp p emax_ _ e' loc_Exact) as [mrs' e''].
  destruct (shr_m mrs'); simpl; try reflexivity.
  destruct (e'' <=? emax_ - p)%Z; reflexivity.
Qed.

Lemma binary_normalize_opp_abs (p emax_ : Z) (z e : Z) :
  SFabs (binary_normalize p emax_ (- z) e false)
  = SFabs (binary_normalize p emax_ z e false).
Proof.
  destruct z as [|q|q]; simpl; try reflexivity;
    unfold binary_round; destruct (shl_align _ _ _) as [mz ez];
    apply binary_round_aux_abs.
Qed.

(** Swapping the operands of a subtraction changes at most the sign. *)
Lemma SFsub_swap_abs (u v : spec_float) :
  SFabs (SF64sub u v) = SFabs (SF64sub v u).
Proof.
  unfold SF64sub.
  destruct u as [su|su| |su mu eu], v as [sv|sv| |sv mv ev]; simpl;
    try reflexivity; try (destruct su, sv; reflexivity).
  rewrite (Z.min_comm ev eu).
  rewrite <- binary_normalize_opp_abs. f_equal. f_equal. lia.
Qed.

(** A square depends on the magnitude only. *)
Lemma SFsquare_abs (u v : spec_float) :
  SFabs u = SFabs v -> SF64mul u u = SF64mul v v.
Proof.
  unfold SF64mul.
  destruct u as [su|su| |su mu eu], v as [sv|sv| |sv mv ev]; simpl;
    try discriminate; try reflexivity.
  - now rewrite !xorb_nilpotent.
  - now rewrite !xorb_nilpotent.
  - intros [= -> ->]. now rewrite !xorb_nilpotent.
Qed.

Lemma sub_square_comm (a b : float) : (a - b) * (a - b) = (b - a) * (b - a).
Proof.
  apply Prim2SF_inj. rewrite !FloatAxioms.mul_spec, !FloatAxioms.sub_spec.
  apply SFsquare_abs, SFsub_swap_abs.
Qed.

Lemma distance_fold_comm (a b : list float) :
  forall sum,
    List.fold_left distance_step (combine a b) sum
    = List.fold_left distance_step (combine b a) sum.
Proof.
  revert b. induction a as [|u a IH]; intros [|v b] sum; try reflexivity.
  simpl. unfold distance_step at 2 4. simpl. rewrite (sub_square_comm u v). apply IH.
Qed.

Lemma distance_fold_not_negative (ab : list (float * float)) :
  forall sum, JS.lt sum 0 = false ->
    JS.lt (List.fold_left distance_step ab sum) 0 = false.
Proof.
  induction ab as [|[u v] ab IH]; intros sum Hs; simpl; [assumption|].
  apply IH. unfold distance_step. simpl.
  apply SignFacts.add_not_negative; [assumption | apply SignFacts.square_not_negative].
Qed.

(** A finite number is a zero or a finite non-zero value. *)
Lemma finite_cases (a : float) :
  is_finite a = true ->
  (exists s, Prim2SF a = S754_zero s) \/ (exists s m e, Prim2SF a = S754_finite s m e).
Proof.
  unfold is_finite, is_nan, is_infinity.
  rewrite !FloatAxioms.eqb_spec, FloatAxioms.abs_spec.
  replace (Prim2SF infinity) with (S754_infinity false) by reflexivity.
  destruct (Prim2SF a) as [s|s| |s m e]; simpl; try discriminate; eauto.
  destruct s; discriminate.
Qed.

(** A finite number minus itself is [0]. *)
Lemma sub_self (a : float) : is_finite a = true -> a - a = 0.
Proof.
  intros Ha. apply Prim2SF_inj. rewrite FloatAxioms.sub_spec, SignFacts.Prim2SF_zero.
  unfold SF64sub.
  destruct (finite_cases a Ha) as [[s ->] | (s & m & e & ->)]; simpl.
  - now destruct s.
  - now rewrite Z.sub_diag.
Qed.

Lemma distance_fold_self (a : list float) :
  Forall (fun v => is_finite v = true) a ->
  List.fold_left distance_step (combine a a) 0 = 0.
Proof.
  induction 1 as [|u a Hu _ IH]; [reflexivity|].
  simpl. unfold distance_step at 2. simpl. rewrite (sub_self u Hu).
  exact IH.
Qed.

End DistanceFacts.

(** X1. [calculateIOU] does not depend on the order of its two boxes. *)
Theorem calculateIOU_symmetric (boxA boxB : Box) :
  MathUtils.calculateIOU boxA boxB = MathUtils.calculateIOU boxB boxA.
Proof. apply Binary64.calculateIOU_comm. Qed.

(** X2. [calculateIOU] never returns a negative number, whatever the
    boxes: the result is NaN or at least [0]. *)
Theorem calculateIOU_not_negative (boxA boxB : Box) :
  JS.lt (MathUtils.calculateIOU boxA boxB) 0 = false.
Proof.
  unfold MathUtils.calculateIOU.
  destruct (JS.le _ 0) eqn:Hu; [reflexivity|].
  apply SignFacts.div_not_negative; [|exact Hu].
  apply SignFacts.mul_not_negative; apply OrderFacts.Math_max_zero_not_negative.
Qed.

(** X3. For numbers [value], [min <= max], [clamp(value, min, max)] lies
    between [min] and [max]; a NaN [value] is returned as NaN. *)
Theorem clamp_within_bounds (value lo hi : float) :
  is_nan lo = false -> is_nan hi = false -> JS.le lo hi = true ->
  (is_nan value = false ->
   JS.le lo (MathUtils.clamp value lo hi) = true /\
   JS.le (MathUtils.clamp value lo hi) hi = true) /\
  (is_nan value = true -> is_nan (MathUtils.clamp value lo hi) = true).
Proof.
  intros Hl Hh Hlh. split.
  - intros Hv. now apply OrderFacts.clamp_between.
  - intros Hv. unfold MathUtils.clamp.
    rewrite (OrderFacts.Math_max_nan value lo) by auto.
    now rewrite (OrderFacts.Math_min_nan nan hi) by auto.
Qed.

Lemma clamp_within_bounds_witness :
  JS.le 0 (MathUtils.clamp (-5) 0 100) = true /\
  JS.le (MathUtils.clamp (-5) 0 100) 100 = true.
Proof.
  apply (clamp_within_bounds (-5) 0 100); reflexivity.
Defined.

(** X4. [euclideanDistance] is symmetric, returns [null] exactly when an
    argument is missing or the lengths differ, and never returns a negative
    number. *)
Theorem euclideanDistance_symmetric (vectorA vectorB : option (list float)) :
  Distance.euclideanDistance vectorA vectorB
  = Distance.euclideanDistance vectorB vectorA /\
  (Distance.euclideanDistance vectorA vectorB = None <->
   vectorA = None \/ vectorB = None \/
   exists a b, vectorA = Some a /\ vectorB = Some b /\ length a <> length b) /\
  (forall d, Distance.euclideanDistance vectorA vectorB = Some d -> JS.lt d 0 = false).
Proof.
  destruct vectorA as [a|], vectorB as [b|]; simpl;
    try (split; [reflexivity|]; split; [split; auto|]; discriminate).
  destruct (Nat.eqb_spec (length a) (length b)) as [Heq|Hne]; simpl.
  - rewrite (proj2 (Nat.eqb_eq (length b) (length a))) by congruence. simpl.
    split; [now rewrite DistanceFacts.distance_fold_comm|].
    split.
    + split; [discriminate|].
      intros [|[|(a' & b' & [= <-] & [= <-] & Hne)]]; try discriminate. contradiction.
    + intros d [= <-]. apply SignFacts.sqrt_not_negative.
  - rewrite (proj2 (Nat.eqb_neq (length b) (length a))) by congruence. simpl.
    split; [reflexivity|]. split; [|discriminate].
    split; [|reflexivity]. intros _. right. right. eauto.
Qed.

(** X5. The Euclidean distance of a vector of finite numbers to itself is
    [0]. *)
Theorem euclideanDistance_self (a : list float) :
  Forall (fun v => is_finite v = true) a ->
  Distance.euclideanDistance (Some a) (Some a) = Some 0%float.
Proof.
  intros Ha. unfold Distance.euclideanDistance.
  rewrite Nat.eqb_refl. simpl.
  now rewrite (DistanceFacts.distance_fold_self a Ha).
Qed.

Lemma euclideanDistance_self_witness :
  Distance.euclideanDistance (Some [0.25; -3; 1e300]%float) (Some [0.25; -3; 1e300]%float)
  = Some 0%float.
Proof.
  apply (euclideanDistance_self [0.25; -3; 1e300]%float).
  repeat constructor.
Defined.

(* ===================================================================== *)
(** * Non-maximum suppression: what is kept and what is dropped *)
(* ===================================================================== *)

Module NMSMoreFacts.

Import FaceDetection NMSFacts.

Lemma filter_sublist {A : Type} (f : A -> bool) (l : list A) :
  List.filter f l `sublist_of` l.
Proof.
  induction l as [|a l IH]; simpl; [constructor|].
  destruct (f a); [now apply sublist_skip | now apply sublist_cons].
Qed.

(** The loop appends to [kept] a sublist of [sorted] that starts with the
    first box of [sorted]. *)
Lemma nms_loop_sublist threshold :
  forall n sorted kept, length sorted = n ->
    exists l, nms_loop threshold sorted kept = kept ++ l /\
              l `sublist_of` sorted /\ head l = head sorted.
Proof.
  induction n as [n IH] using lt_wf_ind.
  intros [|current rest] kept Hn; simp nms_loop.
  - exists []. rewrite app_nil_r. repeat split. constructor.
  - rewrite suppress_from_filter.
    destruct (IH (length (List.filter (compatible threshold current) rest))
                ltac:(subst n; simpl;
                      pose proof (List.filter_length_le (compatible threshold current) rest);
                      lia)
                _ (kept ++ [current]) eq_refl) as (l & -> & Hl & _).
    exists (current :: l). rewrite <- app_assoc. repeat split.
    apply sublist_skip. etransitivity; [exact Hl | apply filter_sublist].
Qed.

(** Every box of [kept] and every box of [sorted] is either in the result
    or overlaps a box of the result by more than the threshold. *)
Lemma nms_loop_covers threshold :
  forall n sorted kept, length sorted = n ->
    forall b, In b kept \/ In b sorted ->
      In b (nms_loop threshold sorted kept) \/
      exists k, In k (nms_loop threshold sorted kept) /\
                JS.gt (MathUtils.calculateIOU k b) threshold = true.
Proof.
  induction n as [n IH] using lt_wf_ind.
  intros [|current rest] kept Hn b Hb; simp nms_loop.
  - left. destruct Hb as [Hb|[]]. exact Hb.
  - rewrite suppress_from_filter.
    assert (length (List.filter (compatible threshold current) rest) < n) as Hlt.
    { subst n. simpl.
      pose proof (List.filter_length_le (compatible threshold current) rest). lia. }
    pose proof (IH _ Hlt _ (kept ++ [current]) eq_refl) as IH'.
    destruct Hb as [Hb|[<-|Hb]].
    + apply IH'. left. apply in_or_app. now left.
    + apply IH'. left. apply in_or_app. right. now left.
    + destruct (compatible threshold current b) eqn:Hc.
      * apply IH'. right. apply List.filter_In. now split.
      * right. exists current. split.
        -- destruct (nms_loop_sublist threshold _
                       (List.filter (compatible threshold current) rest)
                       (kept ++ [current]) eq_refl) as (l & -> & _).
           apply in_or_app. left. apply in_or_app. right. now left.
        -- unfold compatible in Hc. now apply negb_false_iff in Hc.
Qed.

End NMSMoreFacts.

(** X6. Non-maximum suppression drops a box only for a reason: every box
    of the input is kept, or overlaps some kept box with an IoU above the
    threshold. *)
Theorem applyNMS_covers_input (boxes : list Detection) (threshold : float)
    (b : Detection) :
  In b boxes ->
  In b (FaceDetection._applyNMS boxes threshold) \/
  exists k, In k (FaceDetection._applyNMS boxes threshold) /\
            JS.gt (MathUtils.calculateIOU k b) threshold = true.
Proof.
  intros Hb. unfold FaceDetection._applyNMS.
  apply (NMSMoreFacts.nms_loop_covers threshold _ _ [] eq_refl).
  right. now apply NMSFacts.Array_sort_In.
Qed.

Lemma applyNMS_covers_input_witness :
  let boxes :=
    [ mkDetection (mkBox 0 0 0.5 0.5) 0.9;
      mkDetection (mkBox 0.01 0 0.5 0.5) 0.7 ]%float in
  In (mkDetection (mkBox 0.01 0 0.5 0.5) 0.7%float)
     (FaceDetection._applyNMS boxes 0.5%float) \/
  exists k, In k (FaceDetection._applyNMS boxes 0.5%float) /\
            JS.gt (MathUtils.calculateIOU k (mkDetection (mkBox 0.01 0 0.5 0.5) 0.7%float))
              0.5%float = true.
Proof.
  intros boxes.
  apply (applyNMS_covers_input boxes 0.5%float). right. now left.
Defined.

(** X7. The boxes kept by [_applyNMS] are a sublist of the candidates as
    sorted by the comparator [b.score - a.score]: their relative order is
    that of the sorted list, and the first sorted candidate is always the
    first kept box; in particular the result is empty only for an empty
    input. *)
Theorem applyNMS_keeps_sorted_order (boxes : list Detection) (threshold : float) :
  let sorted := JS.Array_sort (fun a b => (score b - score a)%float) boxes in
  FaceDetection._applyNMS boxes threshold `sublist_of` sorted /\
  head (FaceDetection._applyNMS boxes threshold) = head sorted /\
  (FaceDetection._applyNMS boxes threshold = [] <-> boxes = []).
Proof.
  intros sorted. unfold FaceDetection._applyNMS. fold sorted.
  destruct (NMSMoreFacts.nms_loop_sublist threshold _ sorted [] eq_refl)
    as (l & -> & Hl & Hh).
  simpl. split; [exact Hl|]. split; [exact Hh|].
  split.
  - intros ->. destruct boxes as [|b boxes]; [reflexivity|].
    assert (In b sorted) as Hb by (apply NMSFacts.Array_sort_In; now left).
    destruct sorted; [destruct Hb | discriminate].
  - intros ->. subst sorted. simpl in Hl. now apply sublist_nil_r in Hl.
Qed.

(* ===================================================================== *)
(** * Pixel buffers and layouts *)
(* ===================================================================== *)

Module PixelFacts.

Import LoopFacts.

Section Fill.
Context {E : Type} (v : nat -> E).

Lemma establishes_compose (f g : list E -> list E) (D1 D2 : nat -> Prop) :
  establishes v f D1 -> establishes v g D2 ->
  establishes v (fun l => g (f l)) (fun k => D1 k \/ D2 k).
Proof.
  intros Hf Hg l. destruct (Hf l) as [Hlf Hvf]. destruct (Hg (f l)) as [Hlg Hvg].
  split; [congruence|].
  intros k Hk Hd. apply Hvg; [congruence|].
  destruct Hd as [[Hd|Hd]|Hd]; [right|now left|right]; apply Hvf; auto.
Qed.

(** A loop that stores [v i] at every index [i] below [n] of an array of
    length [n] leaves the array [v 0, ..., v (n - 1)]. *)
Lemma for_store_all (n : nat) (l : list E) :
  length l = n ->
  for_ n (fun i l => <[i := v i]> l) l = List.map v (seq 0 n).
Proof.
  intros Hl.
  destruct (establishes_for v n (fun i l => <[i := v i]> l) (fun i k => k = i)
              (fun i _ => establishes_insert v i (v i) eq_refl) l) as [Hlen Hval].
  apply list_eq. intros k. destruct (decide (k < n)) as [Hk|Hk].
  - rewrite Hval by (try lia; left; eauto).
    change (List.map v (seq 0 n)) with (v <$> seq 0 n).
    rewrite list_lookup_fmap, lookup_seq_lt by assumption. reflexivity.
  - rewrite !lookup_ge_None_2; [reflexivity | rewrite length_map, length_seq; lia | lia].
Qed.
End Fill.

(** Storing a list of values at consecutive indices. *)
Fixpoint write_at {E : Type} (arr : list E) (idx : nat) (vals : list E) : list E :=
  match vals with
  | [] => arr
  | val :: vals => write_at (<[idx := val]> arr) (S idx) vals
  end.

Lemma write_at_app {E : Type} (vals1 vals2 : list E) :
  forall arr idx,
    write_at arr idx (vals1 ++ vals2)
    = write_at (write_at arr idx vals1) (idx + length vals1) vals2.
Proof.
  induction vals1 as [|val vals1 IH]; intros arr idx; simpl.
  - now rewrite Nat.add_0_r.
  - rewrite IH. f_equal. lia.
Qed.

Lemma write_at_spec {E : Type} (vals : list E) :
  forall arr idx, idx + length vals <= length arr ->
    write_at arr idx vals = take idx arr ++ vals ++ drop (idx + length vals) arr.
Proof.
  induction vals as [|val vals IH]; intros arr idx Hlen; simpl in *.
  - now rewrite Nat.add_0_r, take_drop.
  - rewrite IH by (rewrite length_insert; lia).
    rewrite (take_S_r (<[idx := val]> arr) idx val)
      by (apply list_lookup_insert_eq; lia).
    rewrite (take_insert_ge arr idx idx val (Nat.le_refl idx)).
    rewrite (drop_insert_lt arr (S idx + length vals) idx val)
      by (apply Nat.lt_lt_add_r, Nat.lt_succ_diag_r).
    rewrite <- app_assoc.
    replace (idx + S (length vals)) with (S idx + length vals) by lia.
    reflexivity.
Qed.

(** A loop that stores one value per iteration at a running index. *)
Lemma for_running_index {E : Type} (n : nat) (g : nat -> E) :
  forall st : list E * nat,
    for_ n (fun i '(arr, index) => (<[index := g i]> arr, S index)) st
    = (write_at (fst st) (snd st) (List.map g (seq 0 n)), snd st + n).
Proof.
  induction n as [|n IH]; intros [arr idx].
  - simpl. now rewrite Nat.add_0_r.
  - rewrite for_S, IH, seq_S, map_app, write_at_app. simpl.
    rewrite length_map, length_seq. f_equal. lia.
Qed.

(** A loop whose iteration stores a block of values at a running index. *)
Lemma for_running_blocks {E : Type} (n : nat) (G : nat -> list E) :
  forall st : list E * nat,
    for_ n (fun i st => (write_at (fst st) (snd st) (G i), snd st + length (G i))) st
    = (write_at (fst st) (snd st) (flat_map G (seq 0 n)),
       snd st + length (flat_map G (seq 0 n))).
Proof.
  induction n as [|n IH]; intros [arr idx].
  - simpl. now rewrite Nat.add_0_r.
  - rewrite for_S, IH, seq_S, flat_map_app, write_at_app. simpl.
    rewrite app_nil_r, length_app. f_equal. lia.
Qed.

Lemma for_of_running_blocks {E A : Type} (items : list A) (G : A -> list E) :
  forall st : list E * nat,
    for_of items (fun a st => (write_at (fst st) (snd st) (G a), snd st + length (G a))) st
    = (write_at (fst st) (snd st) (flat_map G items),
       snd st + length (flat_map G items)).
Proof.
  unfold for_of. induction items as [|a items IH]; intros [arr idx]; simpl.
  - now rewrite Nat.add_0_r.
  - rewrite IH, write_at_app, length_app. simpl. f_equal. lia.
Qed.

Lemma flat_map_length_const {A B : Type} (f : A -> list B) (l : list A) (m : nat) :
  (forall a, length (f a) = m) -> length (flat_map f l) = length l * m.
Proof.
  intros Hf. induction l as [|a l IH]; simpl; [reflexivity|].
  rewrite length_app, Hf, IH. reflexivity.
Qed.

Section Planar.
Context {E : Type} (fresh undef : E).

(** The planar listing of a channel-last array: channel by channel in the
    given order, each channel row by row. *)
Definition planar (nhwcData : list E) (height width : nat) (channelOrder : list nat)
    : list E :=
  flat_map (fun channel =>
    flat_map (fun y =>
      List.map (fun x => Image.read undef nhwcData ((y * width + x) * 3 + channel))
        (seq 0 width))
      (seq 0 height))
    channelOrder.

Lemma planar_length (nhwcData : list E) (height width : nat) (channelOrder : list nat) :
  length (planar nhwcData height width channelOrder)
  = length channelOrder * (height * width).
Proof.
  unfold planar. apply flat_map_length_const. intros channel.
  rewrite (flat_map_length_const _ _ width) by (intros; now rewrite length_map, length_seq).
  now rewrite length_seq.
Qed.

Lemma convertNHWCtoNCHW_state (nhwcData : list E) (height width : nat)
    (channelOrder : list nat) (st : list E * nat) :
  for_of channelOrder (fun channel =>
    for_ height (fun y =>
      for_ width (fun x '(nchwData, index) =>
        (<[index := Image.read undef nhwcData ((y * width + x) * 3 + channel)]> nchwData,
         S index)))) st
  = (write_at (fst st) (snd st) (planar nhwcData height width channelOrder),
     snd st + length (planar nhwcData height width channelOrder)).
Proof.
  unfold planar. rewrite <- for_of_running_blocks.
  apply AnchorFacts.for_of_ext. intros channel st1.
  rewrite <- for_running_blocks. apply for_ext. intros y st2 _.
  rewrite for_running_index. now rewrite length_map, length_seq.
Qed.
End Planar.

(** The samples of one pixel after alpha stripping, and after grey-scale
    expansion. *)
Definition rgb_of_rgba (data : list Byte.byte) (k : nat) : Byte.byte :=
  Pixels.read_byte data (4 * (k / 3) + k mod 3).

Definition rgb_of_grey (data : list Byte.byte) (k : nat) : Byte.byte :=
  Pixels.read_byte data (k / 3).

Lemma three_decode (p c : nat) : c < 3 -> (3 * p + c) / 3 = p /\ (3 * p + c) mod 3 = c.
Proof.
  intros Hc. split.
  - rewrite Nat.mul_comm, Nat.div_add_l by lia. rewrite (Nat.div_small c 3) by lia. lia.
  - rewrite Nat.add_comm, Nat.mul_comm, Nat.Div0.mod_add. now apply Nat.mod_small.
Qed.

Lemma store_pixel_establishes (v : nat -> Byte.byte) (j : nat) (b0 b1 b2 : Byte.byte) :
  b0 = v j -> b1 = v (j + 1) -> b2 = v (j + 2) ->
  establishes v (fun rgb => <[j + 2 := b2]> (<[j + 1 := b1]> (<[j := b0]> rgb)))
    (fun k => k = j \/ k = j + 1 \/ k = j + 2).
Proof.
  intros H0 H1 H2 l.
  destruct (establishes_compose v _ _ _ _
              (establishes_compose v _ _ _ _
                 (establishes_insert v j b0 H0)
                 (establishes_insert v (j + 1) b1 H1))
              (establishes_insert v (j + 2) b2 H2) l) as [Hlen Hval].
  split; [exact Hlen|]. intros k Hk Hd. apply Hval; [exact Hk|]. tauto.
Qed.

(** The loop of [convertToRGB] over four channels. *)
Lemma strip_alpha_establishes (data : list Byte.byte) (n : nat) :
  establishes (rgb_of_rgba data)
    (for_ n (fun k rgb =>
       let i := 4 * k in
       let j := 3 * k in
       <[j + 2 := Pixels.read_byte data (i + 2)]>
         (<[j + 1 := Pixels.read_byte data (i + 1)]>
            (<[j := Pixels.read_byte data i]> rgb))))
    (fun idx => exists k, k < n /\ (idx = 3 * k \/ idx = 3 * k + 1 \/ idx = 3 * k + 2)).
Proof.
  apply (establishes_for (rgb_of_rgba data) n _
           (fun k idx => idx = 3 * k \/ idx = 3 * k + 1 \/ idx = 3 * k + 2)).
  intros k _. cbv zeta.
  apply store_pixel_establishes; unfold rgb_of_rgba.
  - destruct (three_decode k 0 ltac:(lia)) as [E1 E2].
    rewrite Nat.add_0_r in E1, E2. rewrite E1, E2. f_equal. lia.
  - destruct (three_decode k 1 ltac:(lia)) as [-> ->]. reflexivity.
  - destruct (three_decode k 2 ltac:(lia)) as [-> ->]. reflexivity.
Qed.

(** The loop of [convertToRGB] over one channel. *)
Lemma expand_grey_establishes (data : list Byte.byte) (n : nat) :
  establishes (rgb_of_grey data)
    (for_ n (fun i rgb =>
       let j := 3 * i in
       let value := Pixels.read_byte data i in
       <[j + 2 := value]> (<[j + 1 := value]> (<[j := value]> rgb))))
    (fun idx => exists k, k < n /\ (idx = 3 * k \/ idx = 3 * k + 1 \/ idx = 3 * k + 2)).
Proof.
  apply (establishes_for (rgb_of_grey data) n _
           (fun k idx => idx = 3 * k \/ idx = 3 * k + 1 \/ idx = 3 * k + 2)).
  intros k _. cbv zeta.
  apply store_pixel_establishes; unfold rgb_of_grey.
  - destruct (three_decode k 0 ltac:(lia)) as [E1 _].
    rewrite Nat.add_0_r in E1. now rewrite E1.
  - destruct (three_decode k 1 ltac:(lia)) as [-> _]. reflexivity.
  - destruct (three_decode k 2 ltac:(lia)) as [-> _]. reflexivity.
Qed.

(** A lookup in a concatenation of blocks of one length. *)
Lemma lookup_flat_map_const {A B : Type} (G : A -> list B) (m : nat) (l : list A)
    (i j : nat) (a : A) :
  (forall a, length (G a) = m) -> j < m -> l !! i = Some a ->
  flat_map G l !! (i * m + j) = G a !! j.
Proof.
  intros HG Hj. revert i. induction l as [|a0 l IH]; intros i Hi; [discriminate|].
  simpl flat_map. destruct i as [|i].
  - injection Hi as ->. simpl. apply lookup_app_l. rewrite HG. exact Hj.
  - simpl in Hi. rewrite lookup_app_r by (rewrite HG; simpl; lia).
    rewrite HG. replace (S i * m + j - m) with (i * m + j) by (simpl; lia).
    now apply IH.
Qed.

(** The entry of the planar listing for a channel, a row and a column. *)
Lemma planar_lookup {E : Type} (undef : E) (nhwcData : list E) (height width : nat)
    (channelOrder : list nat) (ci channel y x : nat) :
  channelOrder !! ci = Some channel -> y < height -> x < width ->
  planar undef nhwcData height width channelOrder !! (ci * (height * width) + (y * width + x))
  = Some (Image.read undef nhwcData ((y * width + x) * 3 + channel)).
Proof.
  intros Hci Hy Hx. unfold planar.
  rewrite (lookup_flat_map_const _ (height * width) channelOrder ci (y * width + x) channel);
    [| | nia | exact Hci].
  - rewrite (lookup_flat_map_const _ width (seq 0 height) y x y);
      [| intros; now rewrite length_map, length_seq | exact Hx
       | now apply lookup_seq_lt].
    change (List.map ?f ?l) with (f <$> l).
    rewrite list_lookup_fmap, lookup_seq_lt by exact Hx. reflexivity.
  - intros c. rewrite (flat_map_length_const _ _ width)
      by (intros; now rewrite length_map, length_seq).
    now rewrite length_seq.
Qed.

(** With three channels the loops of [convertNHWCtoNCHW] fill the whole
    output with the planar listing. *)
Lemma convertNHWCtoNCHW_is_planar {E : Type} (fresh undef : E)
    (nhwcData : list E) (height width : nat) (channelOrder : list nat) :
  length channelOrder = 3 ->
  Image.convertNHWCtoNCHW fresh undef nhwcData height width channelOrder
  = planar undef nhwcData height width channelOrder.
Proof.
  intros Hc. unfold Image.convertNHWCtoNCHW.
  rewrite convertNHWCtoNCHW_state. simpl fst. simpl snd.
  pose proof (planar_length undef nhwcData height width channelOrder) as Hl.
  rewrite Hc in Hl.
  rewrite write_at_spec by (rewrite length_replicate; lia).
  rewrite take_0. simpl app.
  rewrite drop_ge by (rewrite length_replicate; lia).
  apply app_nil_r.
Qed.

End PixelFacts.

(** X8. [flipHorizontal] returns an array of [height * width * 3] entries
    in which the entry of channel [c] at row [y] and column [x] is the
    entry of the source at row [y] and column [width - 1 - x]: rows and
    channels stay, columns are mirrored. *)
Theorem flipHorizontal_mirrors {E : Type} (fresh undef : E)
    (nhwcData : list E) (h w y x c : nat) :
  y < h -> x < w -> c < 3 ->
  length (Image.flipHorizontal fresh undef nhwcData h w) = h * w * 3 /\
  Image.flipHorizontal fresh undef nhwcData h w !! ((y * w + x) * 3 + c)
  = Some (Image.read undef nhwcData ((y * w + (w - 1 - x)) * 3 + c)).
Proof.
  intros Hy Hx Hc. split; [apply FlipFacts.flipHorizontal_length|].
  change ((y * w + x) * 3 + c) with (FlipFacts.idx w y x c).
  rewrite FlipFacts.flipHorizontal_lookup by (now apply FlipFacts.idx_bound).
  unfold FlipFacts.src_index.
  destruct (FlipFacts.idx_decode w y x c Hx Hc) as (-> & -> & ->). reflexivity.
Qed.

Lemma flipHorizontal_mirrors_witness :
  length (Image.flipHorizontal 0 7 [1;2;3;4;5;6;7;8;9;10;11;12] 2 2) = 2 * 2 * 3 /\
  Image.flipHorizontal 0 7 [1;2;3;4;5;6;7;8;9;10;11;12] 2 2 !! ((1 * 2 + 0) * 3 + 2)
  = Some (Image.read 7 [1;2;3;4;5;6;7;8;9;10;11;12] ((1 * 2 + (2 - 1 - 0)) * 3 + 2)).
Proof.
  apply (flipHorizontal_mirrors 0 7 [1;2;3;4;5;6;7;8;9;10;11;12] 2 2 1 0 2); lia.
Defined.

(** X9. For four channels and a buffer of [width * height * 4] bytes,
    [convertToRGB] returns [width * height * 3] bytes in which pixel [p]
    keeps its first three samples and loses the fourth (alpha); for three
    channels the buffer is returned as it is. *)
Theorem convertToRGB_strips_alpha (data : list Byte.byte) (width height : nat) :
  length data = width * height * 4 ->
  length (Pixels.convertToRGB data 4 width height) = width * height * 3 /\
  (forall p c, p < width * height -> c < 3 ->
     Pixels.convertToRGB data 4 width height !! (3 * p + c) = data !! (4 * p + c)) /\
  Pixels.convertToRGB data 3 width height = data.
Proof.
  intros Hlen. unfold Pixels.convertToRGB. simpl Nat.eqb. cbv iota.
  set (n := width * height) in *.
  assert ((length data + 3) / 4 = n) as ->.
  { rewrite Hlen. symmetry. apply (Nat.div_unique _ 4 n 3); lia. }
  destruct (PixelFacts.strip_alpha_establishes data n (replicate (n * 3) Byte.x00))
    as [Hl Hv].
  rewrite length_replicate in Hl, Hv.
  split; [exact Hl|]. split; [|reflexivity].
  intros p c Hp Hc. rewrite Hv.
  - unfold PixelFacts.rgb_of_rgba.
    destruct (PixelFacts.three_decode p c Hc) as [-> ->].
    unfold Pixels.read_byte.
    destruct (lookup_lt_is_Some_2 data (4 * p + c)) as [b ->]; [lia | reflexivity].
  - lia.
  - left. exists p. split; [assumption | lia].
Qed.

Lemma convertToRGB_strips_alpha_witness :
  Pixels.convertToRGB [Byte.x01; Byte.x02; Byte.x03; Byte.xff;
                       Byte.x04; Byte.x05; Byte.x06; Byte.xff] 4 2 1 !! (3 * 1 + 2)
  = Some Byte.x06.
Proof.
  destruct (convertToRGB_strips_alpha
              [Byte.x01; Byte.x02; Byte.x03; Byte.xff;
               Byte.x04; Byte.x05; Byte.x06; Byte.xff] 2 1 eq_refl) as (_ & Hpix & _).
  rewrite (Hpix 1 2) by lia. reflexivity.
Defined.

(** X10. For one channel and a buffer of [width * height] bytes,
    [convertToRGB] returns [width * height * 3] bytes in which the three
    samples of pixel [p] all equal the grey sample [p]. *)
Theorem convertToRGB_expands_grey (data : list Byte.byte) (width height : nat) :
  length data = width * height ->
  length (Pixels.convertToRGB data 1 width height) = width * height * 3 /\
  (forall p c, p < width * height -> c < 3 ->
     Pixels.convertToRGB data 1 width height !! (3 * p + c) = data !! p).
Proof.
  intros Hlen. unfold Pixels.convertToRGB. simpl Nat.eqb. cbv iota.
  rewrite Hlen. set (n := width * height) in *.
  destruct (PixelFacts.expand_grey_establishes data n (replicate (n * 3) Byte.x00))
    as [Hl Hv].
  rewrite length_replicate in Hl, Hv.
  split; [exact Hl|].
  intros p c Hp Hc. rewrite Hv.
  - unfold PixelFacts.rgb_of_grey.
    destruct (PixelFacts.three_decode p c Hc) as [-> _].
    unfold Pixels.read_byte.
    destruct (lookup_lt_is_Some_2 data p) as [b ->]; [lia | reflexivity].
  - lia.
  - left. exists p. split; [assumption | lia].
Qed.

Lemma convertToRGB_expands_grey_witness :
  Pixels.convertToRGB [Byte.x01; Byte.x02] 1 2 1 !! (3 * 1 + 0) = Some Byte.x02.
Proof.
  destruct (convertToRGB_expands_grey [Byte.x01; Byte.x02] 2 1 eq_refl) as (_ & Hpix).
  rewrite (Hpix 1 0) by lia. reflexivity.
Defined.

(* ===================================================================== *)
(** * Pixel normalization *)
(* ===================================================================== *)

Module NormalizeFacts.

Import Pixels.

(** The interval each mode maps the samples [0 .. 255] into. *)
Definition mode_range (mode : string) : float * float :=
  if String.eqb mode "ZERO_ONE" then (0, 1)%float
  else if String.eqb mode "TORCH" then (-1, 1)%float
  else (-0.99609375, 0.99609375)%float.

Definition in_range (r : float * float) (v : float) : bool :=
  JS.le (fst r) v && JS.le v (snd r).

Lemma normalize_sample_in_range (mode : string) (b : Byte.byte) :
  in_range (mode_range mode) (normalize_sample mode b) = true.
Proof.
  unfold mode_range, normalize_sample.
  destruct (String.eqb mode "ZERO_ONE"); [destruct b; vm_compute; reflexivity|].
  destruct (String.eqb mode "TORCH"); destruct b; vm_compute; reflexivity.
Qed.

(** The loop of [normalizePixels] maps every sample. *)
Lemma normalizePixels_map (pixelData : list Byte.byte) (mode : string) :
  normalizePixels pixelData mode = List.map (normalize_sample mode) pixelData.
Proof.
  unfold normalizePixels.
  rewrite (PixelFacts.for_store_all
             (fun i => normalize_sample mode (read_byte pixelData i)))
    by apply length_replicate.
  apply list_eq. intros k.
  change (List.map ?f ?l) with (f <$> l).
  rewrite !list_lookup_fmap.
  destruct (decide (k < length pixelData)) as [Hk|Hk].
  - rewrite lookup_seq_lt by assumption. simpl.
    destruct (lookup_lt_is_Some_2 pixelData k Hk) as [b Hb].
    unfold read_byte. now rewrite Hb.
  - rewrite lookup_seq_ge by lia. now rewrite lookup_ge_None_2 by lia.
Qed.

End NormalizeFacts.

(** X11. [normalizePixels] returns one value per sample, and every value
    lies in the interval of its mode: [[0, 1]] for ['ZERO_ONE'],
    [[-1, 1]] for ['TORCH'] and [[-0.99609375, 0.99609375]] otherwise; a
    mode other than ['ZERO_ONE'] and ['TORCH'] is treated as ['INSIGHT']. *)
Theorem normalizePixels_range (pixelData : list Byte.byte) (mode : string) :
  length (Pixels.normalizePixels pixelData mode) = length pixelData /\
  Forall (fun v => NormalizeFacts.in_range (NormalizeFacts.mode_range mode) v = true)
    (Pixels.normalizePixels pixelData mode) /\
  (String.eqb mode "ZERO_ONE" = false -> String.eqb mode "TORCH" = false ->
   Pixels.normalizePixels pixelData mode = Pixels.normalizePixels pixelData "INSIGHT").
Proof.
  rewrite !NormalizeFacts.normalizePixels_map.
  split; [apply length_map|]. split.
  - apply List.Forall_map, List.Forall_forall. intros b _.
    apply NormalizeFacts.normalize_sample_in_range.
  - intros Hz Ht. apply map_ext. intros b.
    unfold Pixels.normalize_sample. now rewrite Hz, Ht.
Qed.

(** X12. For a channel order of three entries, [convertNHWCtoNCHW] returns
    an array of [3 * height * width] entries holding the planar listing of
    the channel-last array: the entry at
    [ci * height * width + y * width + x] is
    [nhwcData[(y * width + x) * 3 + channelOrder[ci]]]. *)
Theorem convertNHWCtoNCHW_planar {E : Type} (fresh undef : E)
    (nhwcData : list E) (height width : nat) (channelOrder : list nat) :
  length channelOrder = 3 ->
  let nchwData :=
    Image.convertNHWCtoNCHW fresh undef nhwcData height width channelOrder in
  nchwData = PixelFacts.planar undef nhwcData height width channelOrder /\
  length nchwData = 3 * height * width /\
  forall ci channel y x,
    channelOrder !! ci = Some channel -> y < height -> x < width ->
    nchwData !! (ci * (height * width) + (y * width + x))
    = Some (Image.read undef nhwcData ((y * width + x) * 3 + channel)).
Proof.
  intros Hc. cbv zeta.
  rewrite PixelFacts.convertNHWCtoNCHW_is_planar by exact Hc.
  split; [reflexivity|]. split.
  - rewrite PixelFacts.planar_length, Hc. lia.
  - intros ci channel y x. apply PixelFacts.planar_lookup.
Qed.

Lemma convertNHWCtoNCHW_planar_witness :
  let nchwData :=
    Image.convertNHWCtoNCHW 0 99 [1;2;3;4;5;6;7;8;9;10;11;12] 2 2 [2; 1; 0] in
  nchwData = [3; 6; 9; 12; 2; 5; 8; 11; 1; 4; 7; 10] /\
  length nchwData = 12 /\
  nchwData !! 6 = Some 8.
Proof.
  cbv zeta.
  destruct (convertNHWCtoNCHW_planar 0 99 [1;2;3;4;5;6;7;8;9;10;11;12] 2 2 [2; 1; 0]
              eq_refl) as (Heq & Hlen & Hat).
  split; [rewrite Heq; reflexivity|]. split; [exact Hlen|].
  exact (Hat 1 1 1 0 eq_refl (Nat.lt_succ_diag_r 1) Nat.lt_0_2).
Defined.

(* ===================================================================== *)
(** * Decoding the detector's output *)
(* ===================================================================== *)

Module DecodeFacts.

#[local] Open Scope float_scope.

(** A number that is NaN or lies in [[0, 1]]. *)
Definition unit_or_nan (r : float) : Prop :=
  is_nan r = true \/ (JS.le 0 r = true /\ JS.le r 1 = true).

(** An invariant of a counting loop that may depend on the counter. *)
Lemma for_invariant {S : Type} (P : nat -> S -> Prop) (n : nat)
    (body : nat -> S -> S) (s : S) :
  P 0%nat s ->
  (forall i st, (i < n)%nat -> P i st -> P (Datatypes.S i) (body i st)) ->
  P n (for_ n body s).
Proof.
  intros H0 Hstep. induction n as [|n IH].
  - now rewrite LoopFacts.for_0.
  - rewrite LoopFacts.for_S. apply Hstep; [lia|].
    apply IH. intros i st Hi. apply Hstep. lia.
Qed.

(** What the filters of [_decodeAnchors] let through. *)
Definition plausible (cfg : Config.FaceDetection) (d : Detection) : Prop :=
  JS.lt (score d) (Config.confidenceThreshold cfg) = false /\
  JS.le (width d) 0 = false /\ JS.le (height d) 0 = false /\
  JS.lt (width d) (Config.minFaceSize cfg) = false /\
  JS.gt (width d) (Config.maxFaceSize cfg) = false /\
  JS.lt (height d) (Config.minFaceSize cfg) = false /\
  JS.gt (height d) (Config.maxFaceSize cfg) = false.

Lemma decode_step_plausible (Math_exp : float -> float)
    (cfg : Config.FaceDetection) (anchors : list Anchor)
    (regressors classificators : list float) (targetSize : float)
    (mapFunc : float -> float -> float -> float -> Box) (clsStride : float)
    (i : nat) (detections : list Detection) :
  (Forall (plausible cfg) detections /\ (length detections <= i)%nat) ->
  Forall (plausible cfg)
    (Decoder.decode_step Math_exp cfg anchors regressors classificators
       targetSize mapFunc clsStride i detections) /\
  (length (Decoder.decode_step Math_exp cfg anchors regressors classificators
       targetSize mapFunc clsStride i detections) <= Datatypes.S i)%nat.
Proof.
  intros [Hall Hlen]. unfold Decoder.decode_step.
  destruct (JS.lt _ (Config.confidenceThreshold cfg)) eqn:Hs; [split; [assumption|lia]|].
  destruct (Nat.leb _ _); [split; [assumption|lia]|].
  destruct (anchors !! i) as [anchor|]; [|split; [assumption|lia]].
  cbv zeta.
  destruct (JS.le (width _) 0) eqn:Hw0; cbn [orb]; [split; [assumption|lia]|].
  destruct (JS.le (height _) 0) eqn:Hh0; cbn [orb]; [split; [assumption|lia]|].
  destruct (JS.lt (width _) (Config.minFaceSize cfg)) eqn:Hw1; cbn [orb];
    [split; [assumption|lia]|].
  destruct (JS.gt (width _) (Config.maxFaceSize cfg)) eqn:Hw2; cbn [orb];
    [split; [assumption|lia]|].
  destruct (JS.lt (height _) (Config.minFaceSize cfg)) eqn:Hh1; cbn [orb];
    [split; [assumption|lia]|].
  destruct (JS.gt (height _) (Config.maxFaceSize cfg)) eqn:Hh2; cbn [orb];
    [split; [assumption|lia]|].
  cbn [orb]. split.
  - apply Forall_app. split; [assumption|].
    apply List.Forall_cons; [|apply List.Forall_nil].
    unfold plausible. cbn [score det_box]. auto 10.
  - rewrite length_app. simpl. lia.
Qed.

End DecodeFacts.

(** X13. Every coordinate of the box [_mapFromLetterbox] returns is NaN or
    lies in [[0, 1]], whatever the arguments. *)
Theorem mapFromLetterbox_unit_box
    (bx by_ bw bh targetSize leftPad topPad scale origWidth origHeight : float) :
  let b := Decoder._mapFromLetterbox bx by_ bw bh targetSize leftPad topPad scale
             origWidth origHeight in
  DecodeFacts.unit_or_nan (x b) /\ DecodeFacts.unit_or_nan (y b) /\
  DecodeFacts.unit_or_nan (width b) /\ DecodeFacts.unit_or_nan (height b).
Proof.
  cbv zeta. unfold Decoder._mapFromLetterbox, DecodeFacts.unit_or_nan.
  cbn [x y width height].
  split; [apply OrderFacts.unit_interval|].
  split; [apply OrderFacts.unit_interval|].
  split; apply OrderFacts.unit_interval.
Qed.

(** X14. Every detection [_decodeAnchors] returns passed its filters: the
    score is not below the confidence threshold, width and height are not
    [<= 0], not below the minimal and not above the maximal face size; and
    there is at most one detection per anchor. *)
Theorem decodeAnchors_plausible (Math_exp : float -> float)
    (cfg : Config.FaceDetection) (this_anchors : option (list Anchor))
    (regressors classificators : list float) (targetSize : float)
    (mapFunc : float -> float -> float -> float -> Box) :
  let detections :=
    Decoder._decodeAnchors Math_exp cfg this_anchors regressors classificators
      targetSize mapFunc in
  Forall (DecodeFacts.plausible cfg) detections /\
  length detections
  <= length (fst (FaceDetection._generateAnchors (Config.targetSize cfg) this_anchors)).
Proof.
  cbv zeta. unfold Decoder._decodeAnchors.
  apply (DecodeFacts.for_invariant
           (fun i st => Forall (DecodeFacts.plausible cfg) st /\ length st <= i)).
  - split; [apply List.Forall_nil | simpl; lia].
  - intros i st _ H. now apply DecodeFacts.decode_step_plausible.
Qed.

(* ===================================================================== *)
(** * Selecting and shaping the face box *)
(* ===================================================================== *)

Module BoxFacts.

Import FaceProcessing.
#[local] Open Scope float_scope.

(** NaN is below no number. *)
Lemma nan_lt (c : float) : JS.lt nan c = false.
Proof.
  unfold JS.lt. rewrite Binary64.ltb_compare.
  assert ((nan ?= c) = FNotComparable) as ->; [|reflexivity].
  apply Binary64.compare_nan. left. reflexivity.
Qed.

Lemma le_not_lt (a b : float) : JS.le a b = true -> JS.lt b a = false.
Proof.
  unfold JS.le, JS.lt.
  rewrite Binary64.leb_compare, Binary64.ltb_compare, (Binary64.compare_antisym a b).
  destruct (a ?= b); congruence.
Qed.

(** [Math.min] is above neither argument. *)
Lemma Math_min_not_above (a b : float) :
  JS.gt (JS.Math_min a b) a = false /\ JS.gt (JS.Math_min a b) b = false.
Proof.
  unfold JS.gt. destruct (is_nan a) eqn:Ha; [|destruct (is_nan b) eqn:Hb].
  - rewrite (OrderFacts.Math_min_nan a b) by auto.
    split; apply ProcessingFacts.lt_nan.
  - rewrite (OrderFacts.Math_min_nan a b) by auto.
    split; apply ProcessingFacts.lt_nan.
  - destruct (OrderFacts.Math_min_spec a b Ha Hb) as (_ & Hl & Hr).
    split; now apply le_not_lt.
Qed.

(** [Math.min] is not below a number that neither argument is below. *)
Lemma Math_min_not_below (a b c : float) :
  JS.lt a c = false -> JS.lt b c = false -> JS.lt (JS.Math_min a b) c = false.
Proof.
  intros Hac Hbc. destruct (is_nan a) eqn:Ha; [|destruct (is_nan b) eqn:Hb].
  - rewrite (OrderFacts.Math_min_nan a b) by auto. apply nan_lt.
  - rewrite (OrderFacts.Math_min_nan a b) by auto. apply nan_lt.
  - destruct (OrderFacts.Math_min_spec a b Ha Hb) as ([-> | ->] & _); assumption.
Qed.

(** [Math.max] is below neither argument. *)
Lemma Math_max_not_below (a b : float) :
  JS.lt (JS.Math_max a b) a = false /\ JS.lt (JS.Math_max a b) b = false.
Proof.
  destruct (is_nan a) eqn:Ha; [|destruct (is_nan b) eqn:Hb].
  - rewrite (OrderFacts.Math_max_nan a b) by auto. split; apply nan_lt.
  - rewrite (OrderFacts.Math_max_nan a b) by auto. split; apply nan_lt.
  - destruct (OrderFacts.Math_max_spec a b Ha Hb) as (_ & Hl & Hr).
    split; now apply le_not_lt.
Qed.

(** [clamp(value, 0, hi)] is not negative when [hi] is not, and is never
    above [hi]. *)
Lemma clamp_zero (value hi : float) :
  JS.lt hi 0 = false ->
  JS.lt (MathUtils.clamp value 0 hi) 0 = false /\
  JS.gt (MathUtils.clamp value 0 hi) hi = false.
Proof.
  intros Hhi. unfold MathUtils.clamp. split.
  - apply Math_min_not_below; [apply Math_max_not_below | assumption].
  - apply Math_min_not_above.
Qed.

(** A typical detection: a face of 300 x 300 pixels in the middle of an
    image of 1000 x 1000 pixels. *)
Definition centred_face : RawBox :=
  mkRawBox (mkBox 0.35 0.35 0.3 0.3) (Some 0.9%float).

End BoxFacts.

(** X15. A face [selectBestFace] returns is one of the given boxes,
    converted to pixels and scored, and it passed the size, edge-margin and
    aspect-ratio filters. *)
Theorem selectBestFace_selects_valid (config : Config.t)
    (boxes : option (list RawBox)) (imageWidth imageHeight : float)
    (best : Candidate) :
  FaceProcessing.selectBestFace config boxes imageWidth imageHeight = Some best ->
  exists (given : list RawBox) (box : RawBox),
    boxes = Some given /\ In box given /\
    best = FaceProcessing.with_composite (Config.faceScoring config)
             imageWidth imageHeight
             (FaceProcessing.to_pixels imageWidth imageHeight box) /\
    FaceProcessing.passes_filters (Config.faceDetection config)
      imageWidth imageHeight best = true.
Proof.
  unfold FaceProcessing.selectBestFace.
  destruct boxes as [given|]; [|discriminate].
  destruct given as [|b0 rest]; [discriminate|].
  set (given := b0 :: rest). cbv zeta.
  set (candidates := List.map _ (List.filter _ _)).
  destruct candidates as [|c0 cs] eqn:Ec; [discriminate|].
  intros Hhead.
  assert (In best candidates) as Hin.
  { rewrite Ec. apply (NMSFacts.Array_sort_In
                         (fun a b : Candidate => (compositeScore b - compositeScore a)%float)).
    destruct (JS.Array_sort _ (c0 :: cs)) as [|h t]; [discriminate|].
    simpl in Hhead. injection Hhead as ->. now left. }
  subst candidates.
  apply in_map_iff in Hin as (d & Hbest & Hd).
  apply List.filter_In in Hd as [Hd Hpass].
  apply in_map_iff in Hd as (box & Hbox & Hgiven).
  exists given, box. subst d. subst best.
  split; [reflexivity|]. split; [assumption|]. split; [reflexivity|].
  exact Hpass.
Qed.

Lemma selectBestFace_selects_valid_witness :
  exists (given : list RawBox) (box : RawBox),
    Some [BoxFacts.centred_face] = Some given /\ In box given /\
    FaceProcessing.with_composite (Config.faceScoring Config.config) 1000 1000
      (FaceProcessing.to_pixels 1000 1000 BoxFacts.centred_face)
    = FaceProcessing.with_composite (Config.faceScoring Config.config) 1000 1000
        (FaceProcessing.to_pixels 1000 1000 box) /\
    FaceProcessing.passes_filters (Config.faceDetection Config.config) 1000 1000
      (FaceProcessing.with_composite (Config.faceScoring Config.config) 1000 1000
         (FaceProcessing.to_pixels 1000 1000 BoxFacts.centred_face)) = true.
Proof.
  apply (selectBestFace_selects_valid Config.config (Some [BoxFacts.centred_face])
           1000 1000).
  vm_compute. reflexivity.
Defined.

(** X16. [detectAndValidateFace] throws "no face detected" (a detection
    error with status 400) exactly when [selectBestFace] selects nothing on
    the detector's boxes, and otherwise returns the selected face expanded,
    and squared when [useSquareCrop] is set; it throws nothing else. *)
Theorem detectAndValidateFace_outcome {Buffer : Type} (config : Config.t)
    (buffer : Buffer) (detectFaces : Buffer -> DetectFacesResult) :
  let r := detectFaces buffer in
  let imageWidth := meta_width (metadata r) in
  let imageHeight := meta_height (metadata r) in
  match FaceProcessing.selectBestFace config (boxes r) imageWidth imageHeight with
  | None =>
      FaceProcessing.detectAndValidateFace config buffer detectFaces
      = Errors.Thrown (Errors.mkAppError Errors.NO_FACE_DETECTED Errors.DETECTION 400)
  | Some bestFace =>
      FaceProcessing.detectAndValidateFace config buffer detectFaces
      = Errors.Returned
          (FaceProcessing.processed_box (Config.faceRecognition config) bestFace
             imageWidth imageHeight)
  end.
Proof.
  cbv zeta. unfold FaceProcessing.detectAndValidateFace.
  destruct (detectFaces buffer) as [bs meta]. cbn [boxes metadata].
  destruct bs as [[|b0 rest]|]; try reflexivity.
  destruct (FaceProcessing.selectBestFace _ _ _ _) as [best|]; [|reflexivity].
  unfold FaceProcessing.processBoundingBox.
  now rewrite !ProcessingFacts.lt_nan.
Qed.

(** X17. The box [makeSquareBoundingBox] returns never has a negative [x]
    or [y], is never wider than the image nor taller than the image, and
    its sides are never above the rounded longer side of the given box. *)
Theorem makeSquareBoundingBox_within (box : Box) (imageWidth imageHeight : float) :
  let sq := FaceProcessing.makeSquareBoundingBox box imageWidth imageHeight in
  let side := JS.Math_round (JS.Math_max (width box) (height box)) in
  JS.lt (x sq) 0 = false /\ JS.lt (y sq) 0 = false /\
  JS.gt (width sq) imageWidth = false /\ JS.gt (height sq) imageHeight = false /\
  JS.gt (width sq) side = false /\ JS.gt (height sq) side = false.
Proof.
  cbv zeta. unfold FaceProcessing.makeSquareBoundingBox. cbn [x y width height].
  split; [apply OrderFacts.Math_max_zero_not_negative|].
  split; [apply OrderFacts.Math_max_zero_not_negative|].
  split; [apply BoxFacts.Math_min_not_above|].
  split; [apply BoxFacts.Math_min_not_above|].
  split; apply BoxFacts.Math_min_not_above.
Qed.

(** X18. For an image whose width and height are not negative, the corner
    [(x, y)] of the box [expandBoundingBox] returns lies in the image:
    [x] is neither negative nor above the image width, [y] neither
    negative nor above the image height; and [width] and [height] are never
    above the expanded sizes [box.width + 2 * expandX] and
    [box.height + 2 * expandY]. *)
Theorem expandBoundingBox_corner_in_image (box : Box)
    (imageWidth imageHeight expandRatio : float) :
  JS.lt imageWidth 0 = false -> JS.lt imageHeight 0 = false ->
  let e := FaceProcessing.expandBoundingBox box imageWidth imageHeight expandRatio in
  let expandX := JS.Math_round (width box * expandRatio / 2)%float in
  let expandY := JS.Math_round (height box * expandRatio / 2)%float in
  JS.lt (x e) 0 = false /\ JS.gt (x e) imageWidth = false /\
  JS.lt (y e) 0 = false /\ JS.gt (y e) imageHeight = false /\
  JS.gt (width e) (width box + 2 * expandX)%float = false /\
  JS.gt (height e) (height box + 2 * expandY)%float = false.
Proof.
  intros Hw Hh. cbv zeta. unfold FaceProcessing.expandBoundingBox.
  cbn [x y width height].
  destruct (BoxFacts.clamp_zero
              (x box - JS.Math_round (width box * expandRatio / 2))%float
              imageWidth Hw) as [Hx0 Hx1].
  destruct (BoxFacts.clamp_zero
              (y box - JS.Math_round (height box * expandRatio / 2))%float
              imageHeight Hh) as [Hy0 Hy1].
  split; [exact Hx0|]. split; [exact Hx1|].
  split; [exact Hy0|]. split; [exact Hy1|].
  split; apply BoxFacts.Math_min_not_above.
Qed.

Lemma expandBoundingBox_corner_in_image_witness :
  let e := FaceProcessing.expandBoundingBox (mkBox 10 20 100 100) 640 480 0.1 in
  e = mkBox 5 15 110 110 /\
  JS.lt (x e) 0 = false /\ JS.gt (x e) 640 = false /\
  JS.lt (y e) 0 = false /\ JS.gt (y e) 480 = false.
Proof.
  cbv zeta. split; [vm_compute; reflexivity|].
  pose proof (expandBoundingBox_corner_in_image (mkBox 10 20 100 100) 640 480 0.1
                eq_refl eq_refl) as H.
  cbv zeta in H. tauto.
Defined.

(* ===================================================================== *)
(** * The encoding pipeline *)
(* ===================================================================== *)

Module EncoderFacts.

Import FaceRecognition.

Lemma average_length {N : Type} `{Num.Arith N} (embedding flippedEmbedding : list N) :
  length (average embedding flippedEmbedding) = length embedding.
Proof.
  revert flippedEmbedding. induction embedding as [|e embedding IH];
    intros [|f flippedEmbedding]; simpl; try reflexivity.
  now rewrite IH.
Qed.

Lemma l2Normalize_length {N : Type} `{Num.Arith N} (vector : list N) :
  length (MathUtils.l2Normalize vector) = length vector.
Proof. unfold MathUtils.l2Normalize. apply length_map. Qed.

(** Neither the averaging with the mirrored embedding nor the
    normalization changes the number of entries. *)
Lemma generateEmbedding_length {N : Type} `{Num.Arith N} {E : Type} (fresh undef : E)
    (cfg : Config.Arcface) (runInference : list E -> list N)
    (preprocessedData : Preprocessed E) :
  length (generateEmbedding fresh undef cfg runInference preprocessedData)
  = length (runInference (nchw preprocessedData)).
Proof.
  unfold generateEmbedding. rewrite l2Normalize_length.
  unfold averaged_embedding.
  destruct (Config.useTTAFlip cfg); [|reflexivity].
  destruct (nhwc preprocessedData); [|reflexivity].
  apply average_length.
Qed.

Lemma channel_indices_length (order : Config.ChannelOrder) :
  length (channel_indices order) = 3.
Proof. now destruct order. Qed.

Lemma channel_indices_bound (order : Config.ChannelOrder) :
  Forall (fun c => c < 3) (channel_indices order).
Proof. destruct order; repeat constructor. Qed.

(** Every entry of the planar listing is an entry of the array or what a
    read past its end gives. *)
Lemma planar_Forall {E : Type} (undef : E) (P : E -> Prop) (nhwcData : list E)
    (height width : nat) (channelOrder : list nat) :
  Forall P nhwcData -> P undef ->
  Forall P (PixelFacts.planar undef nhwcData height width channelOrder).
Proof.
  intros Hdata Hundef. apply List.Forall_forall. intros v Hv.
  unfold PixelFacts.planar in Hv.
  apply in_flat_map in Hv as (channel & _ & Hv).
  apply in_flat_map in Hv as (y & _ & Hv).
  apply in_map_iff in Hv as (x & <- & _).
  unfold Image.read. destruct (nhwcData !! _) as [e|] eqn:He; simpl; [|assumption].
  rewrite List.Forall_forall in Hdata. apply Hdata.
  apply list_elem_of_In. eapply list_elem_of_lookup_2. exact He.
Qed.

(** When the array holds [height * width * 3] entries and the channels are
    below 3, every entry of the planar listing is an entry of the array. *)
Lemma planar_Forall_full {E : Type} (undef : E) (P : E -> Prop) (nhwcData : list E)
    (height width : nat) (channelOrder : list nat) :
  length nhwcData = height * width * 3 ->
  Forall (fun c => c < 3) channelOrder ->
  Forall P nhwcData ->
  Forall P (PixelFacts.planar undef nhwcData height width channelOrder).
Proof.
  intros Hlen Horder Hdata. apply List.Forall_forall. intros v Hv.
  unfold PixelFacts.planar in Hv.
  apply in_flat_map in Hv as (channel & Hc & Hv).
  apply in_flat_map in Hv as (y & Hy & Hv).
  apply in_map_iff in Hv as (x & <- & Hx).
  rewrite List.Forall_forall in Horder. apply Horder in Hc.
  apply in_seq in Hy. apply in_seq in Hx.
  assert ((y * width + x) * 3 + channel < length nhwcData) as Hidx
    by (rewrite Hlen; nia).
  destruct (lookup_lt_is_Some_2 nhwcData _ Hidx) as [e He].
  unfold Image.read. rewrite He. simpl.
  rewrite List.Forall_forall in Hdata. apply Hdata.
  apply list_elem_of_In. eapply list_elem_of_lookup_2. exact He.
Qed.

(** An extractor that resolves to a crop of 2 x 2 pixels with three
    channels, and the configuration of a recognizer with such an input. *)
Definition tiny_crop : Encoder.RawImage :=
  {| Encoder.data :=
       [Byte.x00; Byte.x10; Byte.x20; Byte.x30; Byte.x40; Byte.x50;
        Byte.x60; Byte.x70; Byte.x80; Byte.x90; Byte.xa0; Byte.xff];
     Encoder.channels := 3 |}.

Definition tiny_arcface : Config.Arcface :=
  {| Config.inputSize := 2; Config.channelOrder := Config.BGR;
     Config.useTTAFlip := true |}.

End EncoderFacts.

(** X19. Whatever the image codec resolves to, [preprocessFace] hands the
    recognizer a tensor of [3 * SIZE * SIZE] entries, each of them NaN or
    in the interval of the normalization mode. *)
Theorem preprocessFace_tensor {Buffer : Type}
    (extractRegion : Buffer -> Box -> nat -> nat -> Encoder.RawImage)
    (normMode : string) (cfg : Config.Arcface) (buffer : Buffer) (boundingBox : Box) :
  let p := Encoder.preprocessFace extractRegion normMode cfg buffer boundingBox in
  length (FaceRecognition.nchw p) = 3 * Config.inputSize cfg * Config.inputSize cfg /\
  Forall (fun v => is_nan v = true \/
                   NormalizeFacts.in_range (NormalizeFacts.mode_range normMode) v = true)
    (FaceRecognition.nchw p).
Proof.
  cbv zeta. unfold Encoder.preprocessFace. cbn [FaceRecognition.nchw].
  rewrite PixelFacts.convertNHWCtoNCHW_is_planar.
  - split.
    + rewrite PixelFacts.planar_length, EncoderFacts.channel_indices_length. lia.
    + apply EncoderFacts.planar_Forall; [|left; reflexivity].
      rewrite NormalizeFacts.normalizePixels_map.
      apply List.Forall_map, List.Forall_forall. intros b _. right.
      apply NormalizeFacts.normalize_sample_in_range.
  - apply EncoderFacts.channel_indices_length.
Qed.

(** X20. When the image codec resolves to three channels and
    [SIZE * SIZE * 3] bytes, no entry of the tensor is NaN: every entry
    lies in the interval of the normalization mode. *)
Theorem preprocessFace_tensor_in_range {Buffer : Type}
    (extractRegion : Buffer -> Box -> nat -> nat -> Encoder.RawImage)
    (normMode : string) (cfg : Config.Arcface) (buffer : Buffer) (boundingBox : Box) :
  let SIZE := Config.inputSize cfg in
  let processed := extractRegion buffer boundingBox SIZE SIZE in
  Encoder.channels processed = 3 ->
  length (Encoder.data processed) = SIZE * SIZE * 3 ->
  Forall (fun v => NormalizeFacts.in_range (NormalizeFacts.mode_range normMode) v = true)
    (FaceRecognition.nchw
       (Encoder.preprocessFace extractRegion normMode cfg buffer boundingBox)).
Proof.
  cbv zeta. intros Hch Hlen. unfold Encoder.preprocessFace.
  cbn [FaceRecognition.nchw].
  rewrite PixelFacts.convertNHWCtoNCHW_is_planar by apply EncoderFacts.channel_indices_length.
  unfold Pixels.convertToRGB. rewrite Hch. cbn [Nat.eqb].
  rewrite NormalizeFacts.normalizePixels_map.
  apply EncoderFacts.planar_Forall_full.
  - now rewrite length_map.
  - apply EncoderFacts.channel_indices_bound.
  - apply List.Forall_map, List.Forall_forall. intros b _.
    apply NormalizeFacts.normalize_sample_in_range.
Qed.

Lemma preprocessFace_tensor_in_range_witness :
  Forall (fun v => NormalizeFacts.in_range (NormalizeFacts.mode_range "INSIGHT") v = true)
    (FaceRecognition.nchw
       (Encoder.preprocessFace (fun (_ : unit) _ _ _ => EncoderFacts.tiny_crop)
          "INSIGHT" EncoderFacts.tiny_arcface tt (mkBox 0 0 2 2))).
Proof.
  apply (preprocessFace_tensor_in_range (fun (_ : unit) _ _ _ => EncoderFacts.tiny_crop)
           "INSIGHT" EncoderFacts.tiny_arcface tt (mkBox 0 0 2 2));
    reflexivity.
Defined.

(** X21. When the image codec and the recognizer resolve, [encodeface]
    returns the embedding exactly when the recognizer's raw embedding of the
    face has [embeddingDimension] entries, and the returned embedding has
    that many entries; otherwise it throws the plain error "Failed to
    generate valid embedding". *)
Theorem encodeface_outcome {Buffer : Type}
    (extractRegion : Buffer -> Box -> nat -> nat -> Encoder.RawImage)
    (runInference : list float -> list float) (normMode : string)
    (config : Config.t) (buffer : Buffer) (boundingBox : Box) :
  let dimension := Config.embeddingDimension (Config.faceRecognition config) in
  let raw :=
    runInference
      (FaceRecognition.nchw
         (Encoder.preprocessFace extractRegion normMode (Config.arcface config)
            buffer boundingBox)) in
  match Encoder.encodeface extractRegion runInference normMode config buffer boundingBox with
  | Encoder.Ok embedding => length raw = dimension /\ length embedding = dimension
  | Encoder.Throw e =>
      length raw <> dimension /\ e = Encoder.Plain "Failed to generate valid embedding"
  end.
Proof.
  cbv zeta. unfold Encoder.encodeface.
  pose proof (EncoderFacts.generateEmbedding_length 0%float nan
                (Config.arcface config) runInference
                (Encoder.preprocessFace extractRegion normMode (Config.arcface config)
                   buffer boundingBox)) as Hlen.
  destruct (Nat.eqb_spec
              (length (FaceRecognition.generateEmbedding 0%float nan
                         (Config.arcface config) runInference
                         (Encoder.preprocessFace extractRegion normMode
                            (Config.arcface config) buffer boundingBox)))
              (Config.embeddingDimension (Config.faceRecognition config))) as [He|He];
    cbn [negb]; rewrite <- Hlen; split; auto.
Qed.

(* ===================================================================== *)
(** * Comparing embeddings *)
(* ===================================================================== *)

Module ComparisonFacts.

Lemma cosineSimilarity_comm64 (vectorA vectorB : option (list float)) :
  MathUtils.cosineSimilarity vectorA vectorB
  = MathUtils.cosineSimilarity vectorB vectorA.
Proof. apply VectorFacts.cosineSimilarity_comm. exact Binary64.mul_comm. Qed.

Lemma euclideanDistance_comm (vectorA vectorB : option (list float)) :
  Distance.euclideanDistance vectorA vectorB
  = Distance.euclideanDistance vectorB vectorA.
Proof.
  destruct vectorA as [a|], vectorB as [b|]; simpl; try reflexivity.
  rewrite (Nat.eqb_sym (length b) (length a)).
  destruct (Nat.eqb (length a) (length b)); simpl; [|reflexivity].
  now rewrite DistanceFacts.distance_fold_comm.
Qed.

(** The two metrics are [null] on the same arguments. *)
Lemma null_together (vectorA vectorB : option (list float)) :
  MathUtils.cosineSimilarity vectorA vectorB = None <->
  Distance.euclideanDistance vectorA vectorB = None.
Proof.
  rewrite VectorFacts.cosineSimilarity_null.
  destruct vectorA as [a|], vectorB as [b|]; simpl; try (split; auto; fail).
  destruct (Nat.eqb_spec (length a) (length b)) as [Heq|Hne]; simpl.
  - split; [|discriminate].
    intros [|[|(a' & b' & [= <-] & [= <-] & Hne)]]; try discriminate. contradiction.
  - split; [reflexivity|]. intros _. right. right. eauto.
Qed.

End ComparisonFacts.

(** X22. [compareEmbeddings] is symmetric in its two embeddings.  It throws
    exactly when an embedding is missing or the two lengths differ, and
    what it throws is the processing error "similarity calculation failed"
    with status 500. *)
Theorem compareEmbeddings_symmetric (toFixed4 : float -> float)
    (cfg : Config.FaceRecognition) (embedding1 embedding2 : option (list float)) :
  FaceComparison.compareEmbeddings toFixed4 cfg embedding1 embedding2
  = FaceComparison.compareEmbeddings toFixed4 cfg embedding2 embedding1 /\
  ((exists e, FaceComparison.compareEmbeddings toFixed4 cfg embedding1 embedding2
              = Errors.Thrown e) <->
   embedding1 = None \/ embedding2 = None \/
   exists a b, embedding1 = Some a /\ embedding2 = Some b /\ length a <> length b) /\
  (forall e, FaceComparison.compareEmbeddings toFixed4 cfg embedding1 embedding2
             = Errors.Thrown e ->
     e = Errors.mkAppError Errors.SIMILARITY_CALCULATION_FAILED Errors.PROCESSING 500).
Proof.
  unfold FaceComparison.compareEmbeddings.
  rewrite (ComparisonFacts.cosineSimilarity_comm64 embedding2 embedding1).
  split; [reflexivity|].
  rewrite <- VectorFacts.cosineSimilarity_null.
  destruct (MathUtils.cosineSimilarity embedding1 embedding2) as [s|].
  - split; [split; [intros [e He]|]; discriminate | discriminate].
  - split; [split; [reflexivity | eauto] | now intros e [= <-]].
Qed.

(** X23. [calculateMetrics] is symmetric in its two embeddings, and its two
    metrics are [null] together. *)
Theorem calculateMetrics_symmetric (toFixed4 : float -> float)
    (embedding1 embedding2 : option (list float)) :
  FaceComparison.calculateMetrics toFixed4 embedding1 embedding2
  = FaceComparison.calculateMetrics toFixed4 embedding2 embedding1 /\
  (fst (FaceComparison.calculateMetrics toFixed4 embedding1 embedding2) = None <->
   snd (FaceComparison.calculateMetrics toFixed4 embedding1 embedding2) = None).
Proof.
  unfold FaceComparison.calculateMetrics. cbn [fst snd].
  rewrite (ComparisonFacts.cosineSimilarity_comm64 embedding2 embedding1).
  rewrite (ComparisonFacts.euclideanDistance_comm embedding2 embedding1).
  split; [reflexivity|].
  pose proof (ComparisonFacts.null_together embedding1 embedding2) as Hn.
  destruct (MathUtils.cosineSimilarity embedding1 embedding2),
    (Distance.euclideanDistance embedding1 embedding2); simpl;
    split; intros Hx; try reflexivity; try discriminate;
    first [apply Hn in Hx; discriminate | apply (proj2 Hn) in Hx; discriminate
          | destruct Hn as [Hn1 Hn2];
            first [discriminate (Hn1 eq_refl) | discriminate (Hn2 eq_refl)]].
Qed.

(* ===================================================================== *)
(** * Validating a bounding box *)
(* ===================================================================== *)

Module BoxValidationFacts.

#[local] Open Scope float_scope.

Lemma nan_add (a b : float) : is_nan a = true -> is_nan (a + b) = true.
Proof.
  rewrite !Binary64.is_nan_spec, FloatAxioms.add_spec. intros ->.
  now destruct (Prim2SF b).
Qed.

(** A comparison with NaN on the left is false. *)
Lemma nan_compare_false (a c : float) :
  is_nan a = true -> JS.lt a c = false /\ JS.gt a c = false /\ JS.le a c = false.
Proof.
  intros Ha.
  assert ((a ?= c) = FNotComparable) as Hac by (apply Binary64.compare_nan; auto).
  assert ((c ?= a) = FNotComparable) as Hca by (apply Binary64.compare_nan; auto).
  unfold JS.lt, JS.gt, JS.le.
  now rewrite !Binary64.ltb_compare, Binary64.leb_compare, Hac, Hca.
Qed.

End BoxValidationFacts.

(** X24. [validateBoundingBox] rejects a missing box, and a box it accepts
    has no negative [x] or [y], no [width] or [height] that is [<= 0], and
    neither [x + width] above the image width nor [y + height] above the
    image height; for coordinates and image sizes that are numbers (not
    NaN), the corner is at or after the origin and the sizes are
    positive. *)
Theorem validateBoundingBox_accepts (box : option Box) (imageWidth imageHeight : float) :
  Validation.validateBoundingBox box imageWidth imageHeight = true ->
  exists b, box = Some b /\
    JS.gt (x b + width b) imageWidth = false /\
    JS.gt (y b + height b) imageHeight = false /\
    (is_nan (x b) = false -> JS.le 0 (x b) = true) /\
    (is_nan (y b) = false -> JS.le 0 (y b) = true) /\
    (is_nan (width b) = false -> JS.lt 0 (width b) = true) /\
    (is_nan (height b) = false -> JS.lt 0 (height b) = true).
Proof.
  destruct box as [b|]; [|discriminate]. unfold Validation.validateBoundingBox.
  destruct (JS.lt (x b) 0) eqn:Hx; [discriminate|].
  destruct (JS.lt (y b) 0) eqn:Hy; [discriminate|].
  destruct (JS.le (width b) 0) eqn:Hw; [discriminate|].
  destruct (JS.le (height b) 0) eqn:Hh; [discriminate|].
  cbn [orb].
  destruct (JS.gt (x b + width b) imageWidth) eqn:Hxw; [discriminate|].
  destruct (JS.gt (y b + height b) imageHeight) eqn:Hyh; [discriminate|].
  intros _. exists b. split; [reflexivity|]. split; [exact Hxw|].
  split; [exact Hyh|].
  assert (forall v, JS.lt v 0 = false -> is_nan v = false -> JS.le 0 v = true) as Hle.
  { intros v Hv Hn. apply Binary64.not_gt_le; [reflexivity | exact Hn | exact Hv]. }
  assert (forall v, JS.le v 0 = false -> is_nan v = false -> JS.lt 0 v = true) as Hlt.
  { intros v Hv Hn. unfold JS.le in Hv. unfold JS.lt.
    rewrite Binary64.leb_compare in Hv.
    rewrite Binary64.ltb_compare, (Binary64.compare_antisym v 0%float).
    destruct (v ?= 0)%float eqn:E; try discriminate; try reflexivity.
    apply Binary64.compare_nan in E. destruct E as [E|E]; [congruence|].
    vm_compute in E. discriminate E. }
  split; [now apply Hle|]. split; [now apply Hle|].
  split; now apply Hlt.
Qed.

Lemma validateBoundingBox_accepts_witness :
  exists b, Some (mkBox 10 20 30 40) = Some b /\
    JS.gt (x b + width b) 100 = false /\
    JS.gt (y b + height b) 100 = false /\
    (is_nan (x b) = false -> JS.le 0 (x b) = true) /\
    (is_nan (y b) = false -> JS.le 0 (y b) = true) /\
    (is_nan (width b) = false -> JS.lt 0 (width b) = true) /\
    (is_nan (height b) = false -> JS.lt 0 (height b) = true).
Proof.
  apply (validateBoundingBox_accepts (Some (mkBox 10 20 30 40)) 100 100).
  reflexivity.
Defined.

(** X25. A box whose [x] and [y] are NaN escapes the image bounds: with any
    [width] and [height] that are not [<= 0], [validateBoundingBox] accepts
    it for every image size. *)
Theorem validateBoundingBox_accepts_nan_corner (box : Box)
    (imageWidth imageHeight : float) :
  is_nan (x box) = true -> is_nan (y box) = true ->
  JS.le (width box) 0 = false -> JS.le (height box) 0 = false ->
  Validation.validateBoundingBox (Some box) imageWidth imageHeight = true.
Proof.
  intros Hx Hy Hw Hh. unfold Validation.validateBoundingBox.
  destruct (BoxValidationFacts.nan_compare_false (x box) 0 Hx) as (-> & _ & _).
  destruct (BoxValidationFacts.nan_compare_false (y box) 0 Hy) as (-> & _ & _).
  rewrite Hw, Hh. cbn [orb].
  destruct (BoxValidationFacts.nan_compare_false (x box + width box) imageWidth
              (BoxValidationFacts.nan_add _ _ Hx)) as (_ & -> & _).
  destruct (BoxValidationFacts.nan_compare_false (y box + height box) imageHeight
              (BoxValidationFacts.nan_add _ _ Hy)) as (_ & -> & _).
  reflexivity.
Qed.

Lemma validateBoundingBox_accepts_nan_corner_witness :
  Validation.validateBoundingBox (Some (mkBox nan nan 5000 5000)) 100 100 = true.
Proof.
  apply (validateBoundingBox_accepts_nan_corner (mkBox nan nan 5000 5000) 100 100);
    reflexivity.
Defined.

(** X26. Without four regressors for its first anchor, [_decodeAnchors]
    returns no detection, whatever the scores are: an anchor whose four
    offsets are not all inside [regressors] is skipped. *)
Theorem decodeAnchors_no_regressors (Math_exp : float -> float)
    (cfg : Config.FaceDetection) (this_anchors : option (list Anchor))
    (regressors classificators : list float) (targetSize : float)
    (mapFunc : float -> float -> float -> float -> Box) :
  length regressors <= 3 ->
  Decoder._decodeAnchors Math_exp cfg this_anchors regressors classificators
    targetSize mapFunc = [].
Proof.
  intros Hlen. unfold Decoder._decodeAnchors.
  apply (DecodeFacts.for_invariant (fun _ st => st = [])); [reflexivity|].
  intros i st _ ->. unfold Decoder.decode_step.
  destruct (JS.lt _ _); [reflexivity|].
  rewrite (proj2 (Nat.leb_le (length regressors) (i * 16 + 3))) by lia.
  reflexivity.
Qed.

Lemma decodeAnchors_no_regressors_witness :
  Decoder._decodeAnchors (fun _ => 1%float) (Config.faceDetection Config.config) None
    [0.5; 0.5; 0.5]%float [9; 9]%float 128
    (fun bx by_ bw bh => Decoder._mapFromLetterbox bx by_ bw bh 128 0 0 1 128 128)
  = [].
Proof.
  apply (decodeAnchors_no_regressors (fun _ => 1%float)
           (Config.faceDetection Config.config) None [0.5; 0.5; 0.5]%float).
  simpl. lia.
Defined.
